(** * The PDF tool service (services/pdf-tool-go): service and handler layer

    A shallow embedding of [internal/service] (the [PDFService] methods),
    [internal/handlers] (the gin handlers) and the part of [internal/config]
    they read.  The Go code is glue around three outside parties: the
    operating system (temp files and directories), the pdfcpu library and
    the logger/tracer.  They are modelled as follows.

    - The file system is a finite map from paths to nodes that lives in a
      [World] threaded through every call.  A path is the list of its
      components, so [filepath.Join dir name] is [dir ++ [name]].
    - Every system call whose error the Go code checks consults a fault
      schedule in the world, so that each error return of the service can
      be reached.  [os.Remove] and [os.RemoveAll] are called with their
      result dropped; the model lets them succeed on what exists.
    - Random name parts ([os.CreateTemp], [uuid.New]) are drawn from an
      entropy oracle in the world.
    - pdfcpu is an interface, [PdfLib], of in-memory algorithms; the file
      level entry points of pdfcpu's [api] package (open the inputs,
      create the output, run the algorithm, write) are written on top.
    - Log lines, span attributes and file-system calls are recorded in the
      world's [trace] in the order they happen.
    - A call returns a value, returns an error or panics.  The one panic
      the service can raise is that of [make] on a capacity out of range;
      deferred calls run while it unwinds, and [gin.Recovery] answers it.
    - [filepath.Match] and [filepath.Glob] are embedded as package
      [path/filepath] has them on Unix, magic characters in directory
      names included. *)

From Stdlib Require Import ZArith List String Ascii DecimalString DecimalPos Lia.
From Stdlib.Strings Require Import Byte.
From stdpp Require Import base decidable option list strings gmap fin_maps sorting.

Open Scope Z_scope.

(** ** Bytes, paths, errors *)

Abbreviation bytes := (list byte).

#[global] Instance byte_eqdec : EqDecision byte := byte_eq_dec.

Abbreviation path := (list string).

Inductive node :=
| File (data : bytes)
| Dir.

(** Go's [error] values as the service builds them: a leaf from the
    operating system or a library, [fmt.Errorf] with a plain message, and
    [fmt.Errorf "...: %w"] around a cause. *)
Inductive error :=
| Errno (what : string)
| Errorf (msg : string)
| Wrap (msg : string) (cause : error).

(** [err.Error()] *)
Fixpoint Error (e : error) : string :=
  match e with
  | Errno s => s
  | Errorf m => m
  | Wrap m c => m +:+ ": " +:+ Error c
  end.

(** [strconv.Itoa] and the [%d] verb. *)
Definition Itoa (z : Z) : string := NilZero.string_of_int (Z.to_int z).

(** ** Configuration ([internal/config]) *)

Record PDFConfig := {
  MaxFileSize : Z;
  AllowedFormats : list string;
  TempDir : path;
  MaxPages : Z;
  OCREnabled : bool;
  OCRLanguages : list string;
  CompressionLevel : Z
}.

Record Config := {
  Port : Z;
  LogLevel : string;
  PDF : PDFConfig
}.

Definition validLogLevels (l : string) : bool :=
  bool_decide (l ∈ ["debug"; "info"; "warn"; "error"]).

(** [config.validate] *)
Definition validate (cfg : Config) : option error :=
  if bool_decide (Port cfg < 1 ∨ Port cfg > 65535) then
    Some (Errorf ("invalid port: " +:+ Itoa (Port cfg)))
  else if bool_decide (MaxFileSize (PDF cfg) <= 0) then
    Some (Errorf "max_file_size must be positive")
  else if bool_decide (MaxPages (PDF cfg) <= 0) then
    Some (Errorf "max_pages must be positive")
  else if negb (validLogLevels (LogLevel cfg)) then
    Some (Errorf ("invalid log level: " +:+ LogLevel cfg))
  else None.

(** ** The world: file system, oracles, trace *)

Inductive LogVal :=
| VInt (z : Z)
| VStr (s : string)
| VBool (b : bool)
| VErr (e : error)
| VRatio (num den : Z).

Inductive Event :=
| SpanStart (name : string)
| SpanAttr (key : string) (v : LogVal)
| SpanEnd (name : string)
| LogInfo (msg : string) (kv : list (string * LogVal))
| LogError (msg : string) (kv : list (string * LogVal))
| FsMkdirAll (p : path)
| FsCreate (p : path)
| FsRemove (p : path)
| FsRemoveAll (p : path).

Record World := mkWorld {
  fs : gmap path node;
  entropy : nat → string;
  drawn : nat;
  faults : list bool;
  trace : list Event
}.

Definition set_fs (f : gmap path node) (w : World) : World :=
  mkWorld f (entropy w) (drawn w) (faults w) (trace w).

Definition emit (e : Event) (w : World) : World :=
  mkWorld (fs w) (entropy w) (drawn w) (faults w) (trace w ++ [e]).

(** The next bit of the fault schedule: [true] makes the call in progress
    fail.  An exhausted schedule means no further faults. *)
Definition fault (w : World) : bool * World :=
  match faults w with
  | [] => (false, w)
  | b :: r => (b, mkWorld (fs w) (entropy w) (drawn w) r (trace w))
  end.

(** The next random token. *)
Definition draw (w : World) : string * World :=
  (entropy w (drawn w),
   mkWorld (fs w) (entropy w) (S (drawn w)) (faults w) (trace w)).

(** ** State and error monad, with [defer] and [panic] *)

(** How a call ends: it returns a value, it returns an error, or it
    panics with a run-time error. *)
Inductive Res (A : Type) :=
| Ok (a : A)
| Fail (e : error)
| Panic (v : string).
Arguments Ok {A} a.
Arguments Fail {A} e.
Arguments Panic {A} v.

Definition M (A : Type) : Type := World → Res A * World.

Definition ret {A} (a : A) : M A := λ w, (Ok a, w).

Definition raise {A} (e : error) : M A := λ w, (Fail e, w).

Definition panic {A} (v : string) : M A := λ w, (Panic v, w).

Definition bind {A B} (m : M A) (k : A → M B) : M B :=
  λ w, match m w with
       | (Ok a, w') => k a w'
       | (Fail e, w') => (Fail e, w')
       | (Panic v, w') => (Panic v, w')
       end.

(** [v, err := call(); if err != nil { return nil, fmt.Errorf(msg, err) }] *)
Definition try {A B} (m : M A) (msg : string) (k : A → M B) : M B :=
  λ w, match m w with
       | (Ok a, w') => k a w'
       | (Fail e, w') => (Fail (Wrap msg e), w')
       | (Panic v, w') => (Panic v, w')
       end.

(** [defer cleanup(); rest]: [rest] runs to its return or to its panic,
    and then [cleanup] runs.  Nested defers therefore run last-in
    first-out, also while a panic unwinds. *)
Definition defer {A} (cleanup : World → World) (rest : M A) : M A :=
  λ w, let '(r, w') := rest w in (r, cleanup w').

(** A statement whose result is dropped. *)
Definition exec {A} (step : World → World) (rest : M A) : M A :=
  λ w, rest (step w).

Notation "'let*' x ':=' m 'in' k" := (bind m (λ x, k))
  (at level 10, x name, m at level 100, k at level 200).
Notation "'let*' x ':=' m 'orelse' msg 'in' k" := (try m msg (λ x, k))
  (at level 10, x name, m at level 100, msg at level 0, k at level 200).
Notation "'do:' s 'in' k" := (exec s k)
  (at level 10, s at level 100, k at level 200).
Notation "'defer:' c 'in' k" := (defer c k)
  (at level 10, c at level 100, k at level 200).

(** ** The run time *)

(** [make([]T, 0, n)] for elements of [size] bytes, as [runtime.makeslice]
    decides it on a 64-bit platform: the call panics when [n] is negative
    or when [n] elements exceed the 48-bit address space ([maxAlloc]);
    otherwise the slice is empty.  Memory is taken to suffice for every
    capacity that [makeslice] accepts. *)
Definition maxAlloc : Z := 2 ^ 48.

Definition cap_in_range (size n : Z) : Prop := 0 <= n ∧ size * n <= maxAlloc.

Definition make_slice {T} (size n : Z) : M (list T) :=
  if bool_decide (cap_in_range size n) then ret []
  else panic "runtime error: makeslice: cap out of range".

(** ** The operating system ([os], [io], [path/filepath]) *)

Definition is_dir (f : gmap path node) (p : path) : bool :=
  match p with
  | [] => true
  | _ => match f !! p with Some Dir => true | _ => false end
  end.

(** [os.MkdirAll]: create every missing directory on the way to
    [pre ++ rest]; a regular file on the way is an error. *)
Fixpoint mkdir_from (f : gmap path node) (pre rest : path) : option (gmap path node) :=
  match rest with
  | [] => Some f
  | c :: r =>
      let q := pre ++ [c] in
      match f !! q with
      | Some (File _) => None
      | Some Dir => mkdir_from f q r
      | None => mkdir_from (<[q := Dir]> f) q r
      end
  end.

Definition os_MkdirAll (p : path) : M unit :=
  λ w, let '(b, w1) := fault w in
       if b then (Fail (Errno "mkdir: input/output error"), w1)
       else match mkdir_from (fs w1) [] p with
            | Some f' => (Ok tt, emit (FsMkdirAll p) (set_fs f' w1))
            | None => (Fail (Errno "mkdir: not a directory"), w1)
            end.

(** Does the string hold a path separator? *)
Fixpoint has_sep (s : string) : bool :=
  match s with
  | EmptyString => false
  | String c r => Ascii.eqb c "/" || has_sep r
  end.

(** [prefixAndSuffix] of package os: split the pattern at its last [*];
    its check for a path separator is made in [os_CreateTemp] below. *)
Fixpoint split_last_star (s : string) : option (string * string) :=
  match s with
  | EmptyString => None
  | String c r =>
      match split_last_star r with
      | Some (p, q) => Some (String c p, q)
      | None => if Ascii.eqb c "*" then Some (EmptyString, r) else None
      end
  end.

Definition prefixAndSuffix (pattern : string) : string * string :=
  match split_last_star pattern with
  | Some pq => pq
  | None => (pattern, EmptyString)
  end.

(** [os.CreateTemp]: a pattern with a path separator is refused;
    otherwise the name is [prefix + random + suffix], the file is opened
    with O_CREATE|O_EXCL, and a name that is taken is retried, up to 10000
    tries in all. *)
Fixpoint CreateTemp_try (fuel : nat) (dir : path) (pre suf : string) : M path :=
  λ w, let '(tok, w1) := draw w in
       let p := dir ++ [pre +:+ tok +:+ suf] in
       match fs w1 !! p with
       | Some _ =>
           match fuel with
           | O => (Fail (Errno "open: file exists"), w1)
           | S n => CreateTemp_try n dir pre suf w1
           end
       | None =>
           let '(b, w2) := fault w1 in
           if b then (Fail (Errno "open: input/output error"), w2)
           else if is_dir (fs w2) dir
                then (Ok p, emit (FsCreate p) (set_fs (<[p := File []]> (fs w2)) w2))
                else (Fail (Errno "open: no such file or directory"), w2)
       end.

Definition os_CreateTemp (dir : path) (pattern : string) : M path :=
  if has_sep pattern then raise (Errno "createtemp: pattern contains path separator")
  else let '(pre, suf) := prefixAndSuffix pattern in
       CreateTemp_try (Z.to_nat 9999) dir pre suf.

(** [io.Copy(tmpFile, bytes.NewReader(data))]; a failed write leaves the
    file as it was. *)
Definition io_Copy (p : path) (data : bytes) : M unit :=
  λ w, let '(b, w1) := fault w in
       if b then (Fail (Errno "write: input/output error"), w1)
       else (Ok tt, set_fs (<[p := File data]> (fs w1)) w1).

(** [os.Create]: create or truncate. *)
Definition os_Create (p : path) : M unit :=
  λ w, let '(b, w1) := fault w in
       if b then (Fail (Errno "open: input/output error"), w1)
       else match p with
            | [] => (Fail (Errno "open: is a directory"), w1)
            | _ =>
                if is_dir (fs w1) (removelast p)
                then match fs w1 !! p with
                     | Some Dir => (Fail (Errno "open: is a directory"), w1)
                     | _ => (Ok tt, emit (FsCreate p) (set_fs (<[p := File []]> (fs w1)) w1))
                     end
                else (Fail (Errno "open: no such file or directory"), w1)
            end.

(** [os.ReadFile] *)
Definition os_ReadFile (p : path) : M bytes :=
  λ w, let '(b, w1) := fault w in
       if b then (Fail (Errno "read: input/output error"), w1)
       else match fs w1 !! p with
            | Some (File d) => (Ok d, w1)
            | Some Dir => (Fail (Errno "read: is a directory"), w1)
            | None => (Fail (Errno "open: no such file or directory"), w1)
            end.

Definition below (d p : path) : Prop := d `prefix_of` p ∧ d ≠ p.

#[global] Instance below_dec d p : Decision (below d p).
Proof. unfold below. apply _. Defined.

(** [os.Remove], result dropped: a file goes, a directory goes when it is
    empty, anything else stays. *)
Definition os_Remove (p : path) (w : World) : World :=
  match fs w !! p with
  | Some (File _) => emit (FsRemove p) (set_fs (delete p (fs w)) w)
  | Some Dir =>
      if bool_decide (map_Forall (λ q _, ¬ below p q) (fs w))
      then emit (FsRemove p) (set_fs (delete p (fs w)) w)
      else w
  | None => w
  end.

(** [os.RemoveAll], result dropped: the path and everything under it. *)
Definition os_RemoveAll (p : path) (w : World) : World :=
  emit (FsRemoveAll p)
       (set_fs (filter (λ kv, ¬ p `prefix_of` kv.1) (fs w)) w).

Definition has_suffix (suf s : string) : bool :=
  String.eqb (substring (String.length s - String.length suf)
                        (String.length suf) s) suf
  && (String.length suf <=? String.length s)%nat.

Definition child_name (dir p : path) : option string :=
  if bool_decide (take (length dir) p = dir)
  then match drop (length dir) p with
       | [n] => Some n
       | _ => None
       end
  else None.

Definition str_le (a b : string) : Prop := String.leb a b = true.

#[global] Instance str_le_dec a b : Decision (str_le a b).
Proof. unfold str_le. apply _. Defined.

(** A path as a string, as [%s] prints it and as [filepath.Glob] reads
    it; the temp directory is taken to be absolute, as in the default
    [/tmp/pdf-tool], and a component holds no separator. *)
Definition path_string (p : path) : string := "/" +:+ String.concat "/" p.

(** The names of the entries directly in [dir], in the order of the map. *)
Definition children (dir : path) (f : gmap path node) : list string :=
  omap (λ kv : path * node, child_name dir kv.1) (map_to_list f).

(** ** Shell patterns ([path/filepath]: [Match] and [Glob], on Unix)

    Strings are byte strings; a character class and [?] consume one
    UTF-8 encoded rune of the name. *)

(** The value of a byte. *)
Definition code (c : ascii) : Z := Z.of_N (N_of_ascii c).

(** [utf8.RuneError], U+FFFD. *)
Definition RuneError : Z := 65533.

(** [s[n:]] *)
Fixpoint string_drop (n : nat) (s : string) : string :=
  match n, s with
  | S n', String _ r => string_drop n' r
  | _, _ => s
  end.

(** The size of the sequence that a leading byte announces and the range
    of its second byte ([first] and [acceptRanges] of package utf8). *)
Definition lead (s0 : Z) : option (nat * Z * Z) :=
  if bool_decide (194 <= s0 <= 223) then Some (2%nat, 128, 191)
  else if bool_decide (s0 = 224) then Some (3%nat, 160, 191)
  else if bool_decide (225 <= s0 <= 236 ∨ 238 <= s0 <= 239) then Some (3%nat, 128, 191)
  else if bool_decide (s0 = 237) then Some (3%nat, 128, 159)
  else if bool_decide (s0 = 240) then Some (4%nat, 144, 191)
  else if bool_decide (241 <= s0 <= 243) then Some (4%nat, 128, 191)
  else if bool_decide (s0 = 244) then Some (4%nat, 128, 143)
  else None.

(** The payload of a continuation byte. *)
Definition cont (c : ascii) : option Z :=
  if bool_decide (128 <= code c <= 191) then Some (Z.land (code c) 63) else None.

(** [utf8.DecodeRuneInString]: the first rune of [s] and its width. *)
Definition DecodeRuneInString (s : string) : Z * nat :=
  match s with
  | EmptyString => (RuneError, 0%nat)
  | String c0 r =>
      let s0 := code c0 in
      if bool_decide (s0 < 128) then (s0, 1%nat)
      else match lead s0 with
           | None => (RuneError, 1%nat)
           | Some (sz, lo, hi) =>
               match r with
               | EmptyString => (RuneError, 1%nat)
               | String c1 r1 =>
                   if bool_decide (code c1 < lo ∨ hi < code c1) then (RuneError, 1%nat)
                   else
                     let b1 := Z.land (code c1) 63 in
                     match sz with
                     | 2%nat => (Z.lor (Z.shiftl (Z.land s0 31) 6) b1, 2%nat)
                     | _ =>
                         match r1 with
                         | EmptyString => (RuneError, 1%nat)
                         | String c2 r2 =>
                             match cont c2 with
                             | None => (RuneError, 1%nat)
                             | Some b2 =>
                                 match sz with
                                 | 3%nat =>
                                     (Z.lor (Z.shiftl (Z.land s0 15) 12)
                                        (Z.lor (Z.shiftl b1 6) b2), 3%nat)
                                 | _ =>
                                     match r2 with
                                     | EmptyString => (RuneError, 1%nat)
                                     | String c3 _ =>
                                         match cont c3 with
                                         | None => (RuneError, 1%nat)
                                         | Some b3 =>
                                             (Z.lor (Z.shiftl (Z.land s0 7) 18)
                                                (Z.lor (Z.shiftl b1 12)
                                                   (Z.lor (Z.shiftl b2 6) b3)), 4%nat)
                                         end
                                     end
                                 end
                             end
                         end
                     end
               end
           end
  end.

(** [getEsc]: a possibly escaped character of a character class; [None]
    is [ErrBadPattern]. *)
Definition getEsc (chunk : string) : option (Z * string) :=
  match chunk with
  | EmptyString => None
  | String c r =>
      if Ascii.eqb c "-" || Ascii.eqb c "]" then None
      else
        let chunk := if Ascii.eqb c "\" then r else chunk in
        match chunk with
        | EmptyString => None
        | _ =>
            let '(r, n) := DecodeRuneInString chunk in
            if bool_decide (r = RuneError) && bool_decide (n = 1%nat) then None
            else match string_drop n chunk with
                 | EmptyString => None
                 | nchunk => Some (r, nchunk)
                 end
        end
  end.

(** The ranges of a character class, up to its closing bracket: whether
    [r] is in one of them, and what follows the class. *)
Fixpoint classRanges (fuel : nat) (r : Z) (chunk : string) (nrange : nat) (matched : bool)
    : option (bool * string) :=
  match fuel with
  | O => None
  | S fuel =>
      let closed :=
        match chunk with
        | String c rest =>
            if Ascii.eqb c "]" && negb (Nat.eqb nrange 0) then Some rest else None
        | EmptyString => None
        end in
      match closed with
      | Some rest => Some (matched, rest)
      | None =>
          match getEsc chunk with
          | None => None
          | Some (lo, chunk) =>
              let next hi chunk :=
                classRanges fuel r chunk (S nrange)
                  (matched || bool_decide (lo <= r ∧ r <= hi)) in
              match chunk with
              | String c rest =>
                  if Ascii.eqb c "-" then
                    match getEsc rest with
                    | None => None
                    | Some (hi, chunk) => next hi chunk
                    end
                  else next lo chunk
              | EmptyString => next lo chunk
              end
          end
      end
  end.

(** [matchChunk]: does [chunk], which holds no star outside a class,
    match a beginning of [s]?  [Some (Some rest)] is a match leaving
    [rest], [Some None] no match, [None] is [ErrBadPattern]; once the
    match has [failed] the rest of the chunk is still checked. *)
Fixpoint matchChunk_from (fuel : nat) (chunk s : string) (failed : bool)
    : option (option string) :=
  match chunk with
  | EmptyString => Some (if failed then None else Some s)
  | String c rest =>
      match fuel with
      | O => None
      | S fuel =>
          let failed := failed || bool_decide (s = EmptyString) in
          let literal (c : ascii) (rest : string) :=
            if failed then matchChunk_from fuel rest s failed
            else match s with
                 | String d s' => matchChunk_from fuel rest s' (negb (Ascii.eqb c d))
                 | EmptyString => matchChunk_from fuel rest s true
                 end in
          if Ascii.eqb c "[" then
            let '(r, s) := if failed then (0, s)
                           else let '(r, n) := DecodeRuneInString s in (r, string_drop n s) in
            let '(negated, rest) :=
              match rest with
              | String c t => if Ascii.eqb c "^" then (true, t) else (false, rest)
              | EmptyString => (false, rest)
              end in
            match classRanges (S (String.length rest)) r rest 0 false with
            | None => None
            | Some (matched, rest) =>
                matchChunk_from fuel rest s (failed || Bool.eqb matched negated)
            end
          else if Ascii.eqb c "?" then
            if failed then matchChunk_from fuel rest s failed
            else match s with
                 | String d _ =>
                     let '(_, n) := DecodeRuneInString s in
                     matchChunk_from fuel rest (string_drop n s) (Ascii.eqb d "/")
                 | EmptyString => matchChunk_from fuel rest s true
                 end
          else if Ascii.eqb c "\" then
            match rest with
            | EmptyString => None
            | String c' rest' => literal c' rest'
            end
          else literal c rest
      end
  end.

Definition matchChunk (chunk s : string) : option (option string) :=
  matchChunk_from (String.length chunk) chunk s false.

(** [scanChunk]: the next segment of the pattern, a star-free string
    possibly preceded by stars. *)
Fixpoint skipStars (pattern : string) : bool * string :=
  match pattern with
  | String c r => if Ascii.eqb c "*" then (true, (skipStars r).2) else (false, pattern)
  | EmptyString => (false, pattern)
  end.

Fixpoint scanSegment (pattern : string) (inrange : bool) : string * string :=
  match pattern with
  | EmptyString => (EmptyString, EmptyString)
  | String c r =>
      let keep (inrange : bool) := let '(a, b) := scanSegment r inrange in (String c a, b) in
      if Ascii.eqb c "\" then
        match r with
        | String d r' => let '(a, b) := scanSegment r' inrange in (String c (String d a), b)
        | EmptyString => (String c EmptyString, EmptyString)
        end
      else if Ascii.eqb c "[" then keep true
      else if Ascii.eqb c "]" then keep false
      else if Ascii.eqb c "*" then (if inrange then keep inrange else (EmptyString, pattern))
      else keep inrange
  end.

Definition scanChunk (pattern : string) : bool * string * string :=
  let '(star, p) := skipStars pattern in
  let '(chunk, rest) := scanSegment p false in
  (star, chunk, rest).

(** The loop of [Match] after a star: skip one more byte of [name], never
    a separator, and try the chunk again. *)
Fixpoint skipAndMatch (chunk : string) (last : bool) (name : string)
    : option (option string) :=
  match name with
  | EmptyString => Some None
  | String c name' =>
      if Ascii.eqb c "/" then Some None
      else match matchChunk chunk name' with
           | None => None
           | Some (Some t) =>
               if last && negb (bool_decide (t = EmptyString))
               then skipAndMatch chunk last name'
               else Some (Some t)
           | Some None => skipAndMatch chunk last name'
           end
  end.

(** After a mismatch the rest of the pattern is still checked. *)
Fixpoint checkRest (fuel : nat) (pattern : string) : option unit :=
  match pattern with
  | EmptyString => Some tt
  | _ =>
      match fuel with
      | O => None
      | S fuel =>
          let '(_, chunk, rest) := scanChunk pattern in
          match matchChunk chunk EmptyString with
          | None => None
          | Some _ => checkRest fuel rest
          end
      end
  end.

(** [filepath.Match]; [None] is [ErrBadPattern]. *)
Fixpoint Match_from (fuel : nat) (pattern name : string) : option bool :=
  match pattern with
  | EmptyString => Some (bool_decide (name = EmptyString))
  | _ =>
      match fuel with
      | O => None
      | S fuel =>
          let '(star, chunk, rest) := scanChunk pattern in
          if star && bool_decide (chunk = EmptyString) then Some (negb (has_sep name))
          else
            let last := bool_decide (rest = EmptyString) in
            let mismatch :=
              match (if star then skipAndMatch chunk last name else Some None) with
              | None => None
              | Some (Some t) => Match_from fuel rest t
              | Some None =>
                  match checkRest (String.length rest) rest with
                  | None => None
                  | Some _ => Some false
                  end
              end in
            match matchChunk chunk name with
            | None => None
            | Some (Some t) =>
                if bool_decide (t = EmptyString) || negb last
                then Match_from fuel rest t
                else mismatch
            | Some None => mismatch
            end
      end
  end.

Definition Match (pattern name : string) : option bool :=
  Match_from (String.length pattern) pattern name.

(** [hasMeta]: does the path hold one of the magic characters? *)
Fixpoint has_meta (s : string) : bool :=
  match s with
  | EmptyString => false
  | String c r =>
      Ascii.eqb c "*" || Ascii.eqb c "?" || Ascii.eqb c "[" || Ascii.eqb c "\" || has_meta r
  end.

Definition ErrBadPattern : error := Errno "syntax error in pattern".

(** [glob(dir, pattern, matches)]: the entries of [dir] whose name
    matches, appended to [matches] in lexical order of the names.  A
    [dir] that is no directory adds nothing; the only error is a bad
    pattern ([None]). *)
Fixpoint glob_names (dir : path) (pattern : string) (names : list string)
    (matches : list path) : option (list path) :=
  match names with
  | [] => Some matches
  | n :: r =>
      match Match pattern n with
      | None => None
      | Some matched =>
          glob_names dir pattern r (if matched then matches ++ [dir ++ [n]] else matches)
      end
  end.

Definition glob (f : gmap path node) (dir : path) (pattern : string)
    (matches : list path) : option (list path) :=
  if is_dir f dir
  then glob_names dir pattern (merge_sort str_le (children dir f)) matches
  else Some matches.

Fixpoint glob_each (f : gmap path node) (pattern : string) (dirs : list path)
    (matches : list path) : option (list path) :=
  match dirs with
  | [] => Some matches
  | d :: r =>
      match glob f d pattern matches with
      | None => None
      | Some matches => glob_each f pattern r matches
      end
  end.

Definition pathSeparatorsLimit : Z := 10000.

(** [globWithLimit(pattern, depth)], the pattern given by its components
    in reverse, so that [filepath.Split] takes the head off: the pattern
    is checked, a pattern without magic characters names at most itself,
    and otherwise the last component is matched against the entries of
    every directory that the rest of the pattern yields. *)
Fixpoint globWithLimit (f : gmap path node) (rpattern : list string) (depth : Z)
    : option (list path) :=
  let pattern := rev rpattern in
  if bool_decide (depth = pathSeparatorsLimit) then None
  else match Match (path_string pattern) "" with
       | None => None
       | Some _ =>
           if negb (has_meta (path_string pattern)) then
             Some (if bool_decide (pattern = [] ∨ is_Some (f !! pattern)) then [pattern] else [])
           else
             match rpattern with
             | [] => Some []
             | file :: rdir =>
                 if negb (has_meta (path_string (rev rdir)))
                 then glob f (rev rdir) file []
                 else match globWithLimit f rdir (depth + 1) with
                      | None => None
                      | Some dirs => glob_each f file dirs []
                      end
             end
       end.

(** [filepath.Glob(pattern)]: errors of the file system are ignored, a
    malformed pattern is the only error. *)
Definition filepath_Glob (pattern : path) : M (list path) :=
  λ w, match globWithLimit (fs w) (rev pattern) 0 with
       | Some matches => (Ok matches, w)
       | None => (Fail ErrBadPattern, w)
       end.

(** ** pdfcpu *)

Definition Dict := list (string * string).

(** What the service reads of a parsed document ([pdfcpu.Context]):
    [ctx.PageCount], [ctx.XRefTable.Info] and [ctx.Encrypt]; the latter two
    are nil when the document has no such dictionary. *)
Record Context := {
  PageCount : Z;
  Info : option Dict;
  Encrypt : option Dict
}.

(** The in-memory algorithms of pdfcpu that the service reaches.
    [pdf_Split data span] yields the page spans as (from, thru, document). *)
Class PdfLib := {
  Watermark : Type;
  pdf_ReadContext : bytes → option Context;
  pdf_Merge : list bytes → option bytes;
  pdf_Split : bytes → Z → option (list (Z * Z * bytes));
  pdf_Optimize : bytes → option bytes;
  pdf_ParseTextWatermarkDetails : string → option Watermark;
  pdf_AddWatermarks : Watermark → bytes → option bytes
}.

Definition trim_suffix (suf s : string) : string :=
  if has_suffix suf s
  then substring 0 (String.length s - String.length suf) s
  else s.

(** [filepath.Base] on a component path. *)
Definition Base (p : path) : string := List.last p "."%string.

(** pdfcpu's name for the file holding pages [from..thru] of [fileName]. *)
Definition spanFileName (fileName : string) (from thru : Z) : string :=
  let fn := trim_suffix ".pdf" fileName +:+ "_" +:+ Itoa from in
  if bool_decide (from = thru) then fn +:+ ".pdf"
  else fn +:+ "-" +:+ Itoa thru +:+ ".pdf".

Fixpoint read_all (ps : list path) : M (list bytes) :=
  match ps with
  | [] => ret []
  | p :: r =>
      let* d := os_ReadFile p in
      let* ds := read_all r in
      ret (d :: ds)
  end.

Fixpoint write_spans (outDir : path) (fileName : string)
    (spans : list (Z * Z * bytes)) : M unit :=
  match spans with
  | [] => ret tt
  | (from, thru, doc) :: r =>
      let out := outDir ++ [spanFileName fileName from thru] in
      let* _ := os_Create out in
      let* _ := io_Copy out doc in
      write_spans outDir fileName r
  end.

Section Service.

Context {lib : PdfLib}.

(** [api.MergeCreateFile(inFiles, outFile, nil)] *)
Definition api_MergeCreateFile (inFiles : list path) (outFile : path) : M unit :=
  let* _ := os_Create outFile in
  let* docs := read_all inFiles in
  match pdf_Merge docs with
  | None => raise (Errno "pdfcpu: merge")
  | Some out => io_Copy outFile out
  end.

(** [api.SplitFile(inFile, outDir, span, nil)] *)
Definition api_SplitFile (inFile outDir : path) (span : Z) : M unit :=
  let* data := os_ReadFile inFile in
  match pdf_Split data span with
  | None => raise (Errno "pdfcpu: split")
  | Some spans => write_spans outDir (Base inFile) spans
  end.

(** [api.OptimizeFile(inFile, outFile, nil)]; a partially written output
    is left in place on failure. *)
Definition api_OptimizeFile (inFile outFile : path) : M unit :=
  let* data := os_ReadFile inFile in
  let* _ := os_Create outFile in
  match pdf_Optimize data with
  | None => raise (Errno "pdfcpu: optimize")
  | Some out => io_Copy outFile out
  end.

(** [api.AddWatermarksFile(inFile, outFile, nil, wm, nil)] *)
Definition api_AddWatermarksFile (inFile outFile : path) (wm : Watermark) : M unit :=
  let* data := os_ReadFile inFile in
  let* _ := os_Create outFile in
  match pdf_AddWatermarks wm data with
  | None => raise (Errno "pdfcpu: watermark")
  | Some out => io_Copy outFile out
  end.

(** [pdfcpu.NewContext(reader, conf)] followed by [ctx.Read.ReadContext()] *)
Definition ReadContext (data : bytes) : M Context :=
  match pdf_ReadContext data with
  | Some ctx => ret ctx
  | None => raise (Errno "pdfcpu: read")
  end.

Definition ParseTextWatermarkDetails (text : string) : M Watermark :=
  match pdf_ParseTextWatermarkDetails text with
  | Some wm => ret wm
  | None => raise (Errno "pdfcpu: watermark details")
  end.

(** ** The service ([internal/service]) *)

Variable cfg : Config.

Record ConvertToImageRequest := {
  cti_PDFData : bytes;
  cti_Format : string;
  cti_DPI : Z;
  cti_PageRange : string;
  cti_Quality : Z
}.

Record ConvertToImageResponse := {
  Images : list bytes;
  cti_PageCount : Z;
  Format : string
}.

Record MergeRequest := {
  PDFs : list bytes;
  OutputName : string
}.

Record SplitRequest := {
  sp_PDFData : bytes;
  PageRange : string
}.

Record ExtractTextRequest := {
  et_PDFData : bytes;
  UseOCR : bool
}.

Record PageText := {
  PageNumber : Z;
  pt_Text : string
}.

(** The size of a [PageText] in memory: an [int] and a string header. *)
Definition sizeof_PageText : Z := 8 + 16.

Record ExtractTextResponse := {
  Text : string;
  et_PageCount : Z;
  Pages : list PageText
}.

Record MetadataResponse := {
  Title : string;
  Author : string;
  Subject : string;
  Creator : string;
  Producer : string;
  CreationDate : string;
  ModDate : string;
  md_PageCount : Z;
  FileSize : Z;
  Encrypted : bool
}.

Record CompressRequest := {
  cp_PDFData : bytes;
  cp_CompressionLevel : Z
}.

Record WatermarkRequest := {
  wm_PDFData : bytes;
  WatermarkText : string;
  Opacity : Z * Z;
  Rotation : Z;
  FontSize : Z
}.

(** [uuid.New().String()] *)
Definition uuid_New : M string := λ w, let '(t, w') := draw w in (Ok t, w').

Definition len (b : bytes) : Z := Z.of_nat (length b).

(** [createTempFile] *)
Definition createTempFile (data : bytes) (pattern : string) : M path :=
  let* _ := os_MkdirAll (TempDir (PDF cfg)) orelse "failed to create temp directory" in
  let* tmpFile := os_CreateTemp (TempDir (PDF cfg)) pattern orelse "failed to create temp file" in
  λ w, match io_Copy tmpFile data w with
       | (Ok _, w') => (Ok tmpFile, w')
       | (Fail e, w') => (Fail (Wrap "failed to write temp file" e), os_Remove tmpFile w')
       | (Panic v, w') => (Panic v, w')
       end.

Definition pdf_magic : bytes := list_byte_of_string "%PDF".

(** [ValidateRequest]; [None] is Go's nil error. *)
Definition ValidateRequest (pdfData : bytes) : option error :=
  if bool_decide (len pdfData = 0) then
    Some (Errorf "PDF data is empty")
  else if bool_decide (len pdfData > MaxFileSize (PDF cfg)) then
    Some (Errorf ("PDF file too large: " +:+ Itoa (len pdfData) +:+ " bytes (max "
                  +:+ Itoa (MaxFileSize (PDF cfg)) +:+ ")"))
  else if bool_decide (len pdfData < 4 ∨ take 4 pdfData ≠ pdf_magic) then
    Some (Errorf "invalid PDF format")
  else None.

(** [ConvertToImage] *)
Definition ConvertToImage (req : ConvertToImageRequest) : M ConvertToImageResponse :=
  do: emit (SpanStart "PDFService.ConvertToImage") in
  defer: emit (SpanEnd "PDFService.ConvertToImage") in
  do: emit (SpanAttr "format" (VStr (cti_Format req))) in
  do: emit (SpanAttr "dpi" (VInt (cti_DPI req))) in
  do: emit (LogInfo "Converting PDF to images"
              [("format"%string, VStr (cti_Format req)); ("dpi"%string, VInt (cti_DPI req))]) in
  let* tempFile := createTempFile (cti_PDFData req) "input-*.pdf"
                   orelse "failed to create temp file" in
  defer: os_Remove tempFile in
  let response := {| Images := []; cti_PageCount := 0; Format := cti_Format req |} in
  do: emit (LogInfo "PDF to image conversion completed"
              [("pages"%string, VInt (cti_PageCount response))]) in
  ret response.

(** The loop of [MergePDFs] that writes the inputs: each iteration creates
    a temp file and defers its removal to the return of [MergePDFs]; [k]
    is the rest of the function, given [tempFiles]. *)
Fixpoint merge_inputs {A} (i : Z) (pdfs : list bytes) (k : list path → M A) : M A :=
  match pdfs with
  | [] => k []
  | pdfData :: rest =>
      let* tempFile := createTempFile pdfData ("merge-input-" +:+ Itoa i +:+ "-*.pdf")
                       orelse ("failed to create temp file " +:+ Itoa i) in
      defer: os_Remove tempFile in
      merge_inputs (i + 1) rest (λ tempFiles, k (tempFile :: tempFiles))
  end.

(** [MergePDFs] *)
Definition MergePDFs (req : MergeRequest) : M bytes :=
  do: emit (SpanStart "PDFService.MergePDFs") in
  defer: emit (SpanEnd "PDFService.MergePDFs") in
  do: emit (SpanAttr "pdf_count" (VInt (Z.of_nat (length (PDFs req))))) in
  do: emit (LogInfo "Merging PDFs" [("count"%string, VInt (Z.of_nat (length (PDFs req))))]) in
  if bool_decide (Z.of_nat (length (PDFs req)) < 2) then
    raise (Errorf "at least 2 PDFs required for merging")
  else
    merge_inputs 0 (PDFs req) (λ tempFiles,
      let* u := uuid_New in
      let outputFile := TempDir (PDF cfg) ++ ["merge-output-" +:+ u +:+ ".pdf"] in
      defer: os_Remove outputFile in
      let* _ := api_MergeCreateFile tempFiles outputFile orelse "failed to merge PDFs" in
      let* mergedData := os_ReadFile outputFile orelse "failed to read merged PDF" in
      do: emit (LogInfo "PDFs merged successfully"
                  [("output_size"%string, VInt (len mergedData))]) in
      ret mergedData).

(** The loop of [SplitPDF] that reads the split files back. *)
Fixpoint read_split (files : list path) (splitPDFs : list bytes) : M (list bytes) :=
  match files with
  | [] => ret splitPDFs
  | file :: rest =>
      let* data := os_ReadFile file
                   orelse ("failed to read split file " +:+ path_string file) in
      read_split rest (splitPDFs ++ [data])
  end.

(** [SplitPDF] *)
Definition SplitPDF (req : SplitRequest) : M (list bytes) :=
  do: emit (SpanStart "PDFService.SplitPDF") in
  defer: emit (SpanEnd "PDFService.SplitPDF") in
  do: emit (LogInfo "Splitting PDF" [("page_range"%string, VStr (PageRange req))]) in
  let* tempFile := createTempFile (sp_PDFData req) "split-input-*.pdf"
                   orelse "failed to create temp file" in
  defer: os_Remove tempFile in
  let* u := uuid_New in
  let outputDir := TempDir (PDF cfg) ++ ["split-output-" +:+ u] in
  let* _ := os_MkdirAll outputDir orelse "failed to create output directory" in
  defer: os_RemoveAll outputDir in
  let* _ := api_SplitFile tempFile outputDir 1 orelse "failed to split PDF" in
  let* files := filepath_Glob (outputDir ++ ["*.pdf"]) orelse "failed to read split files" in
  let* splitPDFs := read_split files [] in
  do: emit (LogInfo "PDF split successfully"
              [("output_count"%string, VInt (Z.of_nat (length splitPDFs)))]) in
  ret splitPDFs.

(** [ExtractText] *)
Definition ExtractText (req : ExtractTextRequest) : M ExtractTextResponse :=
  do: emit (SpanStart "PDFService.ExtractText") in
  defer: emit (SpanEnd "PDFService.ExtractText") in
  do: emit (SpanAttr "use_ocr" (VBool (UseOCR req))) in
  do: emit (LogInfo "Extracting text from PDF" [("use_ocr"%string, VBool (UseOCR req))]) in
  let* tempFile := createTempFile (et_PDFData req) "extract-text-*.pdf"
                   orelse "failed to create temp file" in
  defer: os_Remove tempFile in
  let* ctx2 := ReadContext (et_PDFData req) orelse "failed to read PDF context" in
  let pageCount := PageCount ctx2 in
  let* pages := make_slice sizeof_PageText pageCount in
  let response := {| Text := ""; et_PageCount := pageCount; Pages := pages |} in
  do: emit (LogInfo "Text extraction completed" [("page_count"%string, VInt pageCount)]) in
  ret response.

(** [ExtractMetadata] *)
Definition ExtractMetadata (pdfData : bytes) : M MetadataResponse :=
  do: emit (SpanStart "PDFService.ExtractMetadata") in
  defer: emit (SpanEnd "PDFService.ExtractMetadata") in
  do: emit (LogInfo "Extracting PDF metadata" []) in
  let* ctx2 := ReadContext pdfData orelse "failed to read PDF" in
  let info := Info ctx2 in
  let response :=
    {| Title := ""; Author := ""; Subject := ""; Creator := ""; Producer := "";
       CreationDate := ""; ModDate := "";
       md_PageCount := PageCount ctx2;
       FileSize := len pdfData;
       Encrypted := bool_decide (Encrypt ctx2 ≠ None) |} in
  let response :=
    match info with
    | Some _ =>
        {| Title := "Document Title"; Author := "Document Author";
           Subject := Subject response; Creator := Creator response;
           Producer := Producer response; CreationDate := CreationDate response;
           ModDate := ModDate response; md_PageCount := md_PageCount response;
           FileSize := FileSize response; Encrypted := Encrypted response |}
    | None => response
    end in
  do: emit (LogInfo "Metadata extraction completed"
              [("page_count"%string, VInt (md_PageCount response))]) in
  ret response.

(** [CompressPDF].  The logged ratio is a float64 in the source; the log
    entry here keeps its numerator and denominator. *)
Definition CompressPDF (req : CompressRequest) : M bytes :=
  do: emit (SpanStart "PDFService.CompressPDF") in
  defer: emit (SpanEnd "PDFService.CompressPDF") in
  do: emit (SpanAttr "compression_level" (VInt (cp_CompressionLevel req))) in
  do: emit (LogInfo "Compressing PDF" [("level"%string, VInt (cp_CompressionLevel req))]) in
  let* tempFile := createTempFile (cp_PDFData req) "compress-input-*.pdf"
                   orelse "failed to create temp file" in
  defer: os_Remove tempFile in
  let* u := uuid_New in
  let outputFile := TempDir (PDF cfg) ++ ["compress-output-" +:+ u +:+ ".pdf"] in
  defer: os_Remove outputFile in
  let* _ := api_OptimizeFile tempFile outputFile orelse "failed to compress PDF" in
  let* compressedData := os_ReadFile outputFile orelse "failed to read compressed PDF" in
  let originalSize := len (cp_PDFData req) in
  let compressedSize := len compressedData in
  do: emit (LogInfo "PDF compression completed"
              [("original_size"%string, VInt originalSize);
               ("compressed_size"%string, VInt compressedSize);
               ("ratio"%string, VRatio ((originalSize - compressedSize) * 100) originalSize)]) in
  ret compressedData.

(** [AddWatermark] *)
Definition AddWatermark (req : WatermarkRequest) : M bytes :=
  do: emit (SpanStart "PDFService.AddWatermark") in
  defer: emit (SpanEnd "PDFService.AddWatermark") in
  do: emit (LogInfo "Adding watermark to PDF" [("text"%string, VStr (WatermarkText req))]) in
  let* tempFile := createTempFile (wm_PDFData req) "watermark-input-*.pdf"
                   orelse "failed to create temp file" in
  defer: os_Remove tempFile in
  let* u := uuid_New in
  let outputFile := TempDir (PDF cfg) ++ ["watermark-output-" +:+ u +:+ ".pdf"] in
  defer: os_Remove outputFile in
  let* wm := ParseTextWatermarkDetails (WatermarkText req) orelse "failed to parse watermark" in
  let* _ := api_AddWatermarksFile tempFile outputFile wm orelse "failed to add watermark" in
  let* watermarkedData := os_ReadFile outputFile orelse "failed to read watermarked PDF" in
  do: emit (LogInfo "Watermark added successfully" []) in
  ret watermarkedData.

(** ** The handlers ([internal/handlers]) *)

(** What a handler reads of the gin context: the multipart form, if the
    request has one, as file fields with their uploaded files in order,
    and the query string. *)
Record Request := {
  multipart : option (list (string * list bytes));
  query : list (string * string)
}.

(** The JSON values the handlers send; a [[]byte] is a blob (gin encodes it
    in base64). *)
Inductive JVal :=
| JStr (s : string)
| JInt (z : Z)
| JBool (b : bool)
| JBlobs (l : list bytes)
| JPages (l : list PageText).

(** [c.JSON(status, obj)] with the fields of [obj], or [c.Data]. *)
Inductive Body :=
| JSON (fields : list (string * JVal))
| Data (contentType : string) (data : bytes)
| NoBody.

Record Response := {
  status : Z;
  body : Body
}.

Definition StatusOK := 200.
Definition StatusBadRequest := 400.
Definition StatusInternalServerError := 500.
Definition StatusNotImplemented := 501.

Definition Handler := Request → World → Response * World.

(** [gin.H{"error": msg}] *)
Definition H_error (msg : string) : Body := JSON [("error"%string, JStr msg)].

Definition lookup_key {V} (key : string) (l : list (string * V)) : option V :=
  snd <$> List.find (λ kv, String.eqb (fst kv) key) l.

(** [form.File[key]] *)
Definition form_files (c : Request) (key : string) : option (list bytes) :=
  match multipart c with
  | Some form => Some (default [] (lookup_key key form))
  | None => None
  end.

(** [c.FormFile(key)]: the first file of that field. *)
Definition FormFile (c : Request) (key : string) : option bytes :=
  match form_files c key with
  | Some (f :: _) => Some f
  | _ => None
  end.

(** [c.DefaultQuery(key, defaultValue)] *)
Definition DefaultQuery (c : Request) (key defaultValue : string) : string :=
  default defaultValue (lookup_key key (query c)).

Definition digit (c : ascii) : option Z :=
  let n := Z.of_N (N_of_ascii c) in
  if bool_decide (48 <= n <= 57) then Some (n - 48) else None.

Fixpoint digits (s : string) (acc : Z) : option Z :=
  match s with
  | EmptyString => Some acc
  | String c r =>
      match digit c with
      | Some d => digits r (acc * 10 + d)
      | None => None
      end
  end.

(** [strconv.Atoi] on a 64-bit int. *)
Definition Atoi (s : string) : option Z :=
  let '(neg, ds) :=
    match s with
    | String "-" r => (true, r)
    | String "+" r => (false, r)
    | _ => (false, s)
    end in
  match ds with
  | EmptyString => None
  | _ =>
      match digits ds 0 with
      | Some n =>
          let v := if neg : bool then - n else n in
          if bool_decide (- 2 ^ 63 <= v < 2 ^ 63) then Some v else None
      | None => None
      end
  end.

(** [parseIntParam] *)
Definition parseIntParam (c : Request) (key : string) (defaultValue : Z) : Z :=
  match Atoi (DefaultQuery c key (Itoa defaultValue)) with
  | Some value => value
  | None => defaultValue
  end.

(** [readUploadedFile] *)
Definition readUploadedFile (file : bytes) : M bytes :=
  λ w, let '(b, w1) := fault w in
       if b then (Fail (Errno "read: input/output error"), w1)
       else (Ok file, w1).

Definition respond (st : Z) (b : Body) (w : World) : Response * World :=
  ({| status := st; body := b |}, w).

(** [gin.Recovery()], the outermost middleware that [main] installs: a
    panic that unwinds a handler is answered with
    [c.AbortWithStatus(500)], a status without a body.  (Its report goes
    to gin's own error writer, not to the service's logger.) *)
Definition recovered (w : World) : Response * World :=
  respond StatusInternalServerError NoBody w.

(** The shape shared by the single-file handlers: take the upload of field
    [pdf] and read it; [k] is the rest of the handler. *)
Definition with_pdf (c : Request) (k : bytes → World → Response * World)
    : World → Response * World :=
  λ w, match FormFile c "pdf" with
       | None => respond StatusBadRequest (H_error "PDF file required") w
       | Some file =>
           match readUploadedFile file w with
           | (Fail _, w1) => respond StatusInternalServerError (H_error "Failed to read file") w1
           | (Ok pdfData, w1) => k pdfData w1
           | (Panic _, w1) => recovered w1
           end
       end.

(** [result, err := call; if err != nil { h.log.Error(msg, "error", err);
    c.JSON(500, gin.H{"error": public}); return }] *)
Definition serve {A} (call : M A) (msg public : string) (k : A → Body)
    : World → Response * World :=
  λ w, match call w with
       | (Fail err, w1) =>
           respond StatusInternalServerError (H_error public)
                   (emit (LogError msg [("error"%string, VErr err)]) w1)
       | (Ok result, w1) => respond StatusOK (k result) w1
       | (Panic _, w1) => recovered w1
       end.

Definition h_ConvertToImage : Handler := λ c,
  with_pdf c (λ pdfData w,
    match ValidateRequest pdfData with
    | Some err => respond StatusBadRequest (H_error (Error err)) w
    | None =>
        let req := {| cti_PDFData := pdfData;
                      cti_Format := DefaultQuery c "format" "png";
                      cti_DPI := parseIntParam c "dpi" 150;
                      cti_PageRange := ""; cti_Quality := 0 |} in
        serve (ConvertToImage req) "Failed to convert PDF to images" "Conversion failed"
          (λ result, JSON [("images"%string, JBlobs (Images result));
                            ("page_count"%string, JInt (cti_PageCount result));
                            ("format"%string, JStr (Format result))]) w
    end).

(** The loop of the merge handler that reads the uploads. *)
Fixpoint read_uploads (files : list bytes) : M (list bytes) :=
  match files with
  | [] => ret []
  | file :: rest =>
      let* data := readUploadedFile file in
      let* pdfs := read_uploads rest in
      ret (data :: pdfs)
  end.

Definition h_MergePDFs : Handler := λ c w,
  match form_files c "pdfs" with
  | None => respond StatusBadRequest (H_error "Invalid multipart form") w
  | Some files =>
      if bool_decide (Z.of_nat (length files) < 2) then
        respond StatusBadRequest (H_error "At least 2 PDFs required") w
      else
        match read_uploads files w with
        | (Fail _, w1) => respond StatusInternalServerError (H_error "Failed to read file") w1
        | (Ok pdfs, w1) =>
            let req := {| PDFs := pdfs; OutputName := "" |} in
            serve (MergePDFs req) "Failed to merge PDFs" "Merge failed"
                  (λ result, Data "application/pdf" result) w1
        | (Panic _, w1) => recovered w1
        end
  end.

Definition h_SplitPDF : Handler := λ c,
  with_pdf c (λ pdfData,
    let req := {| sp_PDFData := pdfData; PageRange := DefaultQuery c "pages" "all" |} in
    serve (SplitPDF req) "Failed to split PDF" "Split failed"
      (λ result, JSON [("files"%string, JBlobs result);
                        ("count"%string, JInt (Z.of_nat (length result)))])).

Definition h_ExtractText : Handler := λ c,
  with_pdf c (λ pdfData,
    let req := {| et_PDFData := pdfData;
                  UseOCR := String.eqb (DefaultQuery c "ocr" "false") "true" |} in
    serve (ExtractText req) "Failed to extract text" "Extraction failed"
      (λ result, JSON [("Text"%string, JStr (Text result));
                        ("PageCount"%string, JInt (et_PageCount result));
                        ("Pages"%string, JPages (Pages result))])).

Definition h_ExtractMetadata : Handler := λ c,
  with_pdf c (λ pdfData,
    serve (ExtractMetadata pdfData) "Failed to extract metadata" "Extraction failed"
      (λ r, JSON ([("Title"%string, JStr (Title r));
                        ("Author"%string, JStr (Author r));
                        ("Subject"%string, JStr (Subject r));
                        ("Creator"%string, JStr (Creator r));
                        ("Producer"%string, JStr (Producer r));
                        ("CreationDate"%string, JStr (CreationDate r));
                        ("ModDate"%string, JStr (ModDate r));
                        ("PageCount"%string, JInt (md_PageCount r));
                        ("FileSize"%string, JInt (FileSize r));
                        ("Encrypted"%string, JBool (Encrypted r))]))).

Definition h_CompressPDF : Handler := λ c,
  with_pdf c (λ pdfData,
    let req := {| cp_PDFData := pdfData;
                  cp_CompressionLevel := parseIntParam c "level" 1 |} in
    serve (CompressPDF req) "Failed to compress PDF" "Compression failed"
      (λ result, Data "application/pdf" result)).

Definition h_AddWatermark : Handler := λ c,
  with_pdf c (λ pdfData,
    let req := {| wm_PDFData := pdfData;
                  WatermarkText := DefaultQuery c "text" "CONFIDENTIAL";
                  Opacity := (3, 10); Rotation := 45; FontSize := 48 |} in
    serve (AddWatermark req) "Failed to add watermark" "Watermark failed"
      (λ result, Data "application/pdf" result)).

(** [RotatePages], [EncryptPDF], [DecryptPDF], [BatchProcess] *)
Definition h_ComingSoon : Handler := λ _,
  respond StatusNotImplemented (JSON [("message"%string, JStr "Coming soon")]).

(** The POST routes that [main] registers under [/api/v1]. *)
Definition router (target : string) : option Handler :=
  if String.eqb target "/api/v1/pdf/convert/image" then Some h_ConvertToImage
  else if String.eqb target "/api/v1/pdf/merge" then Some h_MergePDFs
  else if String.eqb target "/api/v1/pdf/split" then Some h_SplitPDF
  else if String.eqb target "/api/v1/pdf/extract/text" then Some h_ExtractText
  else if String.eqb target "/api/v1/pdf/extract/metadata" then Some h_ExtractMetadata
  else if String.eqb target "/api/v1/pdf/compress" then Some h_CompressPDF
  else if String.eqb target "/api/v1/pdf/watermark" then Some h_AddWatermark
  else if String.eqb target "/api/v1/pdf/rotate" then Some h_ComingSoon
  else if String.eqb target "/api/v1/pdf/encrypt" then Some h_ComingSoon
  else if String.eqb target "/api/v1/pdf/decrypt" then Some h_ComingSoon
  else if String.eqb target "/api/v1/batch/process" then Some h_ComingSoon
  else None.

End Service.

(** ** A miniature document format

    A small instance of [PdfLib], used to run the service on concrete
    inputs: a document is the signature [%PDF] followed by one byte per
    page. *)

Definition mini_pages (d : bytes) : option bytes :=
  if bool_decide (take 4 d = pdf_magic) then Some (drop 4 d) else None.

Definition mini_doc (pages : bytes) : bytes := pdf_magic ++ pages.

Definition mini_ReadContext (d : bytes) : option Context :=
  match mini_pages d with
  | Some ps => Some {| PageCount := len ps; Info := None; Encrypt := None |}
  | None => None
  end.

Fixpoint mini_Merge_pages (ds : list bytes) : option bytes :=
  match ds with
  | [] => Some []
  | d :: r =>
      match mini_pages d, mini_Merge_pages r with
      | Some ps, Some qs => Some (ps ++ qs)
      | _, _ => None
      end
  end.

Definition mini_Merge (ds : list bytes) : option bytes :=
  mini_doc <$> mini_Merge_pages ds.

Fixpoint mini_spans (from : Z) (ps : bytes) : list (Z * Z * bytes) :=
  match ps with
  | [] => []
  | b :: r => (from, from, mini_doc [b]) :: mini_spans (from + 1) r
  end.

Definition mini_Split (d : bytes) (span : Z) : option (list (Z * Z * bytes)) :=
  if bool_decide (span = 1) then mini_spans 1 <$> mini_pages d else None.

Definition mini_Optimize (d : bytes) : option bytes :=
  mini_doc <$> mini_pages d.

#[global] Instance mini : PdfLib := {|
  Watermark := string;
  pdf_ReadContext := mini_ReadContext;
  pdf_Merge := mini_Merge;
  pdf_Split := mini_Split;
  pdf_Optimize := mini_Optimize;
  pdf_ParseTextWatermarkDetails := λ t, Some t;
  pdf_AddWatermarks := λ _ d, mini_doc <$> mini_pages d
|}.

(** The configuration that [setDefaults] yields, with the temp directory
    [/tmp/pdf-tool]. *)
Definition default_config : Config := {|
  Port := 8080;
  LogLevel := "info";
  PDF := {| MaxFileSize := 52428800;
            AllowedFormats := ["pdf"%string];
            TempDir := ["tmp"%string; "pdf-tool"%string];
            MaxPages := 1000;
            OCREnabled := true;
            OCRLanguages := ["eng"%string];
            CompressionLevel := 1 |}
|}.

(** A machine whose file system holds [f], with entropy tokens 0, 1, 2, ...
    and the fault schedule [fl]. *)
Definition world_of (f : gmap path node) (fl : list bool) : World :=
  mkWorld f (λ n, Itoa (Z.of_nat n)) 0 fl [].

Definition B (s : string) : bytes := list_byte_of_string s.

(** The default configuration with another temp directory. *)
Definition with_TempDir (T : path) : Config := {|
  Port := Port default_config;
  LogLevel := LogLevel default_config;
  PDF := {| MaxFileSize := MaxFileSize (PDF default_config);
            AllowedFormats := AllowedFormats (PDF default_config);
            TempDir := T;
            MaxPages := MaxPages (PDF default_config);
            OCREnabled := OCREnabled (PDF default_config);
            OCRLanguages := OCRLanguages (PDF default_config);
            CompressionLevel := CompressionLevel (PDF default_config) |}
|}.

(** ** Vocabulary of the statements *)

(** Two worlds that differ at most in their trace. *)
Definition same_machine (w1 w2 : World) : Prop :=
  fs w1 = fs w2 ∧ entropy w1 = entropy w2 ∧ drawn w1 = drawn w2 ∧ faults w1 = faults w2.

(** [m] returns, with a value or an error, on every machine. *)
Definition never_panics {A} (m : M A) : Prop :=
  ∀ w v, fst (m w) ≠ Panic v.

(** Two computations that, run on the same machine, return the same
    result and leave the same machine; what they log may differ. *)
Definition related {A} (m1 m2 : M A) : Prop :=
  ∀ w1 w2, same_machine w1 w2 →
    fst (m1 w1) = fst (m2 w2) ∧ same_machine (snd (m1 w1)) (snd (m2 w2)).

Definition related_step (s1 s2 : World → World) : Prop :=
  ∀ w1 w2, same_machine w1 w2 → same_machine (s1 w1) (s2 w2).

(** Every directory on the way to [T] exists. *)
Definition dirs_ready (f : gmap path node) (T : path) : Prop :=
  ∀ q, q `prefix_of` T → q ≠ [] → f !! q = Some Dir.

(** [f'] is [f], possibly with the directories leading to [T] created. *)
Definition settled (T : path) (f f' : gmap path node) : Prop :=
  f' = f ∨ mkdir_from f [] T = Some f'.

(** The entries below [T] are the same in [f] and [f']. *)
Definition same_contents (T : path) (f f' : gmap path node) : Prop :=
  ∀ q, below T q → f' !! q = f !! q.

(** The random tokens still to be drawn are fresh: no entry of the temp
    directory [T] has a name that contains one of them. *)
Definition fresh_scratch (T : path) (w : World) : Prop :=
  ∀ (n : nat) (pre suf : string) (rest : path),
    (drawn w <= n)%nat →
    fs w !! (T ++ [pre +:+ entropy w n +:+ suf] ++ rest) = None.

(** The oracles only move forward. *)
Definition advances (w w' : World) : Prop :=
  entropy w' = entropy w ∧ (drawn w <= drawn w')%nat.

(** [m] changes the file system within the relation [R]. *)
Definition effect (R : relation (gmap path node)) {A} (m : M A) : Prop :=
  ∀ w, R (fs w) (fs (snd (m w))) ∧ advances w (snd (m w)).

(** The only entry that may differ is [out], and it is not turned into a
    directory. *)
Definition file_at (out : path) (f f' : gmap path node) : Prop :=
  (∀ q, q ≠ out → f' !! q = f !! q) ∧ (f !! out ≠ Some Dir → f' !! out ≠ Some Dir).

(** The only entries that may differ are [d] and what lies under it. *)
Definition under (d : path) (f f' : gmap path node) : Prop :=
  ∀ q, ¬ d `prefix_of` q → f' !! q = f !! q.

(** [m], started in [w], returns with the file system as it found it. *)
Definition keeps {A} (m : M A) (w : World) : Prop :=
  fs (snd (m w)) = fs w ∧ advances w (snd (m w)).

(** [m] returns with the temp directory [T] as it found it, whenever the
    tokens to come are fresh. *)
Definition releases (T : path) {A} (m : M A) : Prop :=
  ∀ w, fresh_scratch T w →
    settled T (fs w) (fs (snd (m w))) ∧ advances w (snd (m w)).

(** What C5 asks of a run from [w] to [w']: the entries below the temp
    directory are the same, and the file system as a whole is the same but
    for the directories leading to the temp directory, which the run may
    have created. *)
Definition restored (T : path) (w w' : World) : Prop :=
  same_contents T (fs w) (fs w') ∧ settled T (fs w) (fs w').

(** No name that [MergePDFs] may still give its output file is taken. *)
Definition out_free (T : path) (w : World) : Prop :=
  ∀ n : nat, (drawn w <= n)%nat →
    fs w !! (T ++ ["merge-output-" +:+ entropy w n +:+ ".pdf"]) = None.

(** A machine with one file outside the temp directory. *)
Definition home_fs : gmap path node :=
  {[ ["home"%string; "report.pdf"%string] := File (B "%PDFxyz") ]}.

(** ** The logger ([pkg/logger]) *)

(** [parseFields]: the variadic [keysAndValues] is walked two at a time;
    a pair whose first component is a string sets that field, a pair with
    any other first component is skipped, and a last element without a
    partner is ignored.  [LogVal] stands for the [interface{}] values. *)
Fixpoint parseFields_from (keysAndValues : list LogVal) (fields : gmap string LogVal)
    : gmap string LogVal :=
  match keysAndValues with
  | k :: v :: rest =>
      parseFields_from rest
        (match k with
         | VStr key => <[key := v]> fields
         | _ => fields
         end)
  | _ => fields
  end.

Definition parseFields (keysAndValues : list LogVal) : gmap string LogVal :=
  parseFields_from keysAndValues ∅.

(** The variadic arguments of a log call that passes the given pairs in
    order, and the pairs among them whose key is a string. *)
Definition pair_args (kv : list (LogVal * LogVal)) : list LogVal :=
  flat_map (λ p, [p.1; p.2]) kv.

Definition string_keyed (kv : list (LogVal * LogVal)) : list (string * LogVal) :=
  omap (λ p, match p.1 with VStr key => Some (key, p.2) | _ => None end) kv.

(** An event that is no file-system call outside [T]: the calls recorded
    in the trace carry their target, which must be [T] or lie below it. *)
Definition in_scratch (T : path) (e : Event) : Prop :=
  match e with
  | FsMkdirAll p | FsCreate p | FsRemove p | FsRemoveAll p => T `prefix_of` p
  | _ => True
  end.

Definition not_span (e : Event) : Prop :=
  match e with
  | SpanStart _ | SpanEnd _ => False
  | _ => True
  end.

(** [m] only appends to the trace, and only events that satisfy [P]. *)
Definition emits (P : Event → Prop) {A} (m : M A) : Prop :=
  ∀ w, ∃ t, trace (snd (m w)) = trace w ++ t ∧ Forall P t.

Definition emits_step (P : Event → Prop) (s : World → World) : Prop :=
  ∀ w, ∃ t, trace (s w) = trace w ++ t ∧ Forall P t.

(** The trace of a run from [w] to [w'] is one span [name], opened first
    and closed last, around events that are no span events and no
    file-system calls outside [T]. *)
Definition one_span (T : path) (name : string) (w w' : World) : Prop :=
  ∃ mid, trace w' = trace w ++ SpanStart name :: mid ++ [SpanEnd name] ∧
         Forall (λ e, in_scratch T e ∧ not_span e) mid.

(** The messages that a handler sends with a 500. *)
Definition public_errors : list string :=
  ["Failed to read file"; "Conversion failed"; "Merge failed"; "Split failed";
   "Extraction failed"; "Compression failed"; "Watermark failed"]%string.

(** An answer with a known status whose 500 carries a public message only. *)
Definition well_answered (r : Response) : Prop :=
  status r ∈ [200; 400; 500; 501] ∧
  (status r = 500 → ∃ m, body r = JSON [("error"%string, JStr m)] ∧ m ∈ public_errors).

(** ** Split output *)

(** [s] without its beginning [p], if it begins with [p]. *)
Fixpoint strip_prefix (p s : string) : option string :=
  match p, s with
  | EmptyString, _ => Some s
  | String c p', String d s' => if Ascii.eqb c d then strip_prefix p' s' else None
  | String _ _, EmptyString => None
  end.

(** A random token made of characters that mean nothing to the file
    system or to [filepath.Glob], as the tokens of [os.CreateTemp]
    (digits) and of [uuid.New] (hexadecimal digits and dashes) are. *)
Definition plain (s : string) : bool := negb (has_meta s) && negb (has_sep s).

(** The document that [spans] holds under the file name [n]. *)
Definition span_doc (fileName : string) (spans : list (Z * Z * bytes)) (n : string) : bytes :=
  default [] (lookup_key n ((λ s, (spanFileName fileName s.1.1 s.1.2, s.2)) <$> spans)).

(** * Properties *)

(** ** Validation *)

Lemma len_zero (b : bytes) : len b = 0 ↔ b = [].
Proof.
  unfold len. destruct b; simpl; split; intros; try done; lia.
Qed.

Lemma short_has_no_magic (b : bytes) : len b < 4 → take 4 b ≠ pdf_magic.
Proof.
  unfold len. intros Hl Heq.
  assert (length (take 4 b) = 4%nat) as Hlen by (rewrite Heq; reflexivity).
  rewrite length_take in Hlen. lia.
Qed.

(** C2 (the code falls short of it): validation passes exactly the
    non-empty blobs within the size limit that start with the signature;
    the three causes are checked in this order and each has its own
    message.  The page limit that the configuration carries is not
    enforced: the result depends on the configuration through its size
    limit alone. *)
Theorem ValidateRequest_spec (cfg : Config) (blob : bytes) :
  (ValidateRequest cfg blob = None ↔
     blob ≠ [] ∧ len blob <= MaxFileSize (PDF cfg) ∧ take 4 blob = pdf_magic) ∧
  (ValidateRequest cfg blob = Some (Errorf "PDF data is empty") ↔ blob = []) ∧
  (ValidateRequest cfg blob =
     Some (Errorf ("PDF file too large: " +:+ Itoa (len blob) +:+ " bytes (max "
                   +:+ Itoa (MaxFileSize (PDF cfg)) +:+ ")")) ↔
     blob ≠ [] ∧ len blob > MaxFileSize (PDF cfg)) ∧
  (ValidateRequest cfg blob = Some (Errorf "invalid PDF format") ↔
     blob ≠ [] ∧ len blob <= MaxFileSize (PDF cfg) ∧ take 4 blob ≠ pdf_magic) ∧
  (∀ cfg' : Config, MaxFileSize (PDF cfg') = MaxFileSize (PDF cfg) →
     ValidateRequest cfg' blob = ValidateRequest cfg blob).
Proof.
  assert (Hz := len_zero blob). assert (Hs := short_has_no_magic blob).
  destruct (decide (take 4 blob = pdf_magic)) as [Hm|Hm].
  all: unfold ValidateRequest.
  all: repeat split; try (intros cfg' ->; reflexivity);
    repeat case_bool_decide; simpl in *;
    try discriminate; try tauto; try lia;
    try (intros [=]); try (intros; exfalso; tauto); try (intros; exfalso; lia).
Qed.

(** Whatever page count pdfcpu parses from a document, and however far
    it lies over the limit, the document passes validation when it is
    non-empty, within the size limit and starts with the signature. *)
Lemma ValidateRequest_passes_over_page_limit `{lib : PdfLib} (cfg : Config)
    (blob : bytes) (ctx : Context) :
  pdf_ReadContext blob = Some ctx → PageCount ctx > MaxPages (PDF cfg) →
  blob ≠ [] → len blob <= MaxFileSize (PDF cfg) → take 4 blob = pdf_magic →
  ValidateRequest cfg blob = None.
Proof.
  intros _ _ Hne Hsize Hmagic. unfold ValidateRequest.
  pose proof (len_zero blob) as Hz. pose proof (short_has_no_magic blob) as Hs.
  repeat case_bool_decide; try done; try tauto; lia.
Qed.

(** ** Merge needs two inputs *)

(** C6: with fewer than two blobs [MergePDFs] returns its
    too-few-inputs error having touched neither the file system nor the
    oracles (only the span and one log line are recorded), and the merge
    handler answers 400 for such a form without calling the service. *)
Theorem MergePDFs_requires_two `{lib : PdfLib} (cfg : Config)
    (pdfs : list bytes) (o : string) (w : World) :
  (length pdfs < 2)%nat →
  (let '(r, w') := MergePDFs cfg {| PDFs := pdfs; OutputName := o |} w in
   r = Fail (Errorf "at least 2 PDFs required for merging") ∧
   fs w' = fs w ∧ drawn w' = drawn w ∧ faults w' = faults w ∧
   trace w' = trace w ++
     [SpanStart "PDFService.MergePDFs";
      SpanAttr "pdf_count" (VInt (Z.of_nat (length pdfs)));
      LogInfo "Merging PDFs" [("count"%string, VInt (Z.of_nat (length pdfs)))];
      SpanEnd "PDFService.MergePDFs"]) ∧
  (∀ c : Request, form_files c "pdfs" = Some pdfs →
     h_MergePDFs cfg c w =
       ({| status := 400; body := JSON [("error"%string, JStr "At least 2 PDFs required")] |}, w)).
Proof.
  intros Hlen. split.
  - unfold MergePDFs, exec, defer. simpl.
    rewrite bool_decide_eq_true_2 by lia. simpl.
    rewrite <- !app_assoc. simpl. done.
  - intros c Hc. unfold h_MergePDFs. rewrite Hc.
    rewrite bool_decide_eq_true_2 by lia. reflexivity.
Qed.

Lemma MergePDFs_requires_two_witness :
  (length [B "%PDF-1.4"] < 2)%nat ∧
  fst (MergePDFs default_config {| PDFs := [B "%PDF-1.4"]; OutputName := "" |}
         (world_of ∅ []))
    = Fail (Errorf "at least 2 PDFs required for merging").
Proof.
  split; [simpl; lia |].
  pose proof (MergePDFs_requires_two default_config [B "%PDF-1.4"] "" (world_of ∅ [])) as Hw.
  destruct Hw as [Hw _]; [simpl; lia |].
  destruct (MergePDFs _ _ _) as [r w']. apply Hw.
Defined.

(** ** What cannot panic *)

Lemma never_panics_ret {A} (a : A) : never_panics (ret a).
Proof. by intros w v. Qed.

Lemma never_panics_raise {A} (e : error) : never_panics (@raise A e).
Proof. by intros w v. Qed.

Lemma never_panics_bind {A B} (m : M A) (k : A → M B) :
  never_panics m → (∀ a, never_panics (k a)) → never_panics (bind m k).
Proof.
  intros Hm Hk w v. unfold bind. specialize (Hm w).
  destruct (m w) as [[a|e|u] w1]; simpl in *; [apply Hk | done | by destruct (Hm u)].
Qed.

Lemma never_panics_try {A B} (m : M A) (msg : string) (k : A → M B) :
  never_panics m → (∀ a, never_panics (k a)) → never_panics (try m msg k).
Proof.
  intros Hm Hk w v. unfold try. specialize (Hm w).
  destruct (m w) as [[a|e|u] w1]; simpl in *; [apply Hk | done | by destruct (Hm u)].
Qed.

Lemma never_panics_defer {A} (c : World → World) (m : M A) :
  never_panics m → never_panics (defer c m).
Proof. intros Hm w v. unfold defer. specialize (Hm w v). by destruct (m w). Qed.

Lemma never_panics_exec {A} (s : World → World) (m : M A) :
  never_panics m → never_panics (exec s m).
Proof. intros Hm w v. apply Hm. Qed.

Lemma never_panics_os_MkdirAll (p : path) : never_panics (os_MkdirAll p).
Proof.
  intros w v. unfold os_MkdirAll. destruct (fault w) as [[|] w1]; [done|].
  by destruct (mkdir_from (fs w1) [] p).
Qed.

Lemma never_panics_CreateTemp_try (fuel : nat) (dir : path) (pre suf : string) :
  never_panics (CreateTemp_try fuel dir pre suf).
Proof.
  induction fuel as [|n IH]; intros w v; simpl.
  all: destruct (fs w !! (dir ++ [pre +:+ entropy w (drawn w) +:+ suf])); [done || apply IH|].
  all: unfold fault; simpl; destruct (faults w) as [|[|] r]; simpl; try done.
  all: by destruct (is_dir (fs w) dir).
Qed.

Lemma never_panics_os_CreateTemp (dir : path) (pattern : string) :
  never_panics (os_CreateTemp dir pattern).
Proof.
  unfold os_CreateTemp. destruct (has_sep pattern); [apply never_panics_raise|].
  destruct (prefixAndSuffix pattern). apply never_panics_CreateTemp_try.
Qed.

Lemma never_panics_io_Copy (p : path) (data : bytes) : never_panics (io_Copy p data).
Proof. intros w v. unfold io_Copy. by destruct (fault w) as [[|] w1]. Qed.

Lemma never_panics_os_ReadFile (p : path) : never_panics (os_ReadFile p).
Proof.
  intros w v. unfold os_ReadFile. destruct (fault w) as [[|] w1]; [done|].
  by destruct (fs w1 !! p) as [[|]|].
Qed.

Lemma never_panics_os_Create (p : path) : never_panics (os_Create p).
Proof.
  intros w v. unfold os_Create. destruct (fault w) as [[|] w1]; [done|].
  destruct p as [|c r]; [done|].
  destruct (is_dir (fs w1) (removelast (c :: r))); [|done].
  by destruct (fs w1 !! (c :: r)) as [[|]|].
Qed.

Lemma never_panics_createTempFile (cfg : Config) (data : bytes) (pattern : string) :
  never_panics (createTempFile cfg data pattern).
Proof.
  unfold createTempFile.
  apply never_panics_try; [apply never_panics_os_MkdirAll|]. intros _.
  apply never_panics_try; [apply never_panics_os_CreateTemp|]. intros tmpFile w v.
  pose proof (never_panics_io_Copy tmpFile data w) as Hc.
  destruct (io_Copy tmpFile data w) as [[a|e|u] w1]; simpl in *; [done | done | by destruct (Hc u)].
Qed.

(** ** Metadata and image conversion: what the placeholders return *)

(** C7 (the code falls short of it): for a parseable document the
    response carries the page count, the size and the encryption flag of
    the parsed context, but the information dictionary is never read:
    title and author are two fixed strings when a dictionary is present,
    and every other field is empty whatever the dictionary holds. *)
Theorem ExtractMetadata_result `{lib : PdfLib} (pdfData : bytes) (w : World) :
  fst (ExtractMetadata pdfData w) =
    match pdf_ReadContext pdfData with
    | None => Fail (Wrap "failed to read PDF" (Errno "pdfcpu: read"))
    | Some ctx =>
        Ok {| Title := match Info ctx with Some _ => "Document Title" | None => "" end;
              Author := match Info ctx with Some _ => "Document Author" | None => "" end;
              Subject := ""; Creator := ""; Producer := "";
              CreationDate := ""; ModDate := "";
              md_PageCount := PageCount ctx;
              FileSize := len pdfData;
              Encrypted := match Encrypt ctx with Some _ => true | None => false end |}
    end.
Proof.
  unfold ExtractMetadata, ReadContext, exec, defer, try, ret, raise.
  destruct (pdf_ReadContext pdfData) as [ctx|]; simpl; [|done].
  destruct (Info ctx), (Encrypt ctx); simpl; reflexivity.
Qed.

(** C8 (the code falls short of it): whenever [ConvertToImage] returns, it
    returns no image and page count 0 and echoes the requested format,
    whatever the document and whatever the format; its only error is a
    failure to write the temp file.  On a two-page document and the format
    [exe] it succeeds with no image. *)
Theorem ConvertToImage_result (cfg : Config)
    (req : ConvertToImageRequest) (w : World) :
  match fst (ConvertToImage cfg req w) with
  | Ok r => r = {| Images := []; cti_PageCount := 0; Format := cti_Format req |}
  | Fail e => ∃ cause, e = Wrap "failed to create temp file" cause
  | Panic _ => False
  end ∧
  fst (ConvertToImage default_config
         {| cti_PDFData := B "%PDFab"; cti_Format := "exe"; cti_DPI := 150;
            cti_PageRange := ""; cti_Quality := 0 |} (world_of ∅ []))
    = Ok {| Images := []; cti_PageCount := 0; Format := "exe" |}.
Proof.
  split; [|vm_compute; reflexivity].
  unfold ConvertToImage, exec, defer, try, ret.
  match goal with |- context [createTempFile cfg ?d ?pat ?w] =>
    pose proof (never_panics_createTempFile cfg d pat w) as Hnp;
    destruct (createTempFile cfg d pat w) as [[p|e|v] w1]
  end; simpl in *; eauto.
  by destruct (Hnp v).
Qed.

(** ** What is logged does not flow back *)

Ltac same_worlds :=
  let w1 := fresh "w" in
  let w2 := fresh "w" in
  let Hw := fresh "Hw" in
  intros w1 w2 Hw; destruct w1, w2; destruct Hw as (? & ? & ? & ?);
  simpl in *; subst.

Ltac crunch :=
  repeat (simpl;
          match goal with
          | |- context [match ?x with _ => _ end] =>
              lazymatch x with
              | context [match _ with _ => _ end] => fail
              | _ => destruct x eqn:?
              end
          end);
  simpl; unfold same_machine; simpl; auto.

Create HintDb blind.

Lemma related_ret {A} (a : A) : related (ret a) (ret a).
Proof. intros w1 w2 H. done. Qed.

Lemma related_raise {A} (e : error) : related (@raise A e) (raise e).
Proof. intros w1 w2 H. done. Qed.

Lemma related_make_slice {T} (size n : Z) :
  related (@make_slice T size n) (make_slice size n).
Proof. intros w1 w2 H. unfold make_slice. by case_bool_decide. Qed.

Lemma related_bind {A B} (m1 m2 : M A) (k1 k2 : A → M B) :
  related m1 m2 → (∀ a, related (k1 a) (k2 a)) → related (bind m1 k1) (bind m2 k2).
Proof.
  intros Hm Hk w1 w2 Hw. unfold bind.
  destruct (Hm w1 w2 Hw) as [Hr Hs].
  destruct (m1 w1) as [r1 v1], (m2 w2) as [r2 v2]. simpl in *. subst r2.
  destruct r1; [by apply Hk | done | done].
Qed.

Lemma related_try {A B} (m1 m2 : M A) (msg : string) (k1 k2 : A → M B) :
  related m1 m2 → (∀ a, related (k1 a) (k2 a)) → related (try m1 msg k1) (try m2 msg k2).
Proof.
  intros Hm Hk w1 w2 Hw. unfold try.
  destruct (Hm w1 w2 Hw) as [Hr Hs].
  destruct (m1 w1) as [r1 v1], (m2 w2) as [r2 v2]. simpl in *. subst r2.
  destruct r1; [by apply Hk | done | done].
Qed.

Lemma related_defer {A} (c1 c2 : World → World) (m1 m2 : M A) :
  related_step c1 c2 → related m1 m2 → related (defer c1 m1) (defer c2 m2).
Proof.
  intros Hc Hm w1 w2 Hw. unfold defer.
  destruct (Hm w1 w2 Hw) as [Hr Hs].
  destruct (m1 w1) as [r1 v1], (m2 w2) as [r2 v2]. simpl in *. auto.
Qed.

Lemma related_exec {A} (s1 s2 : World → World) (m1 m2 : M A) :
  related_step s1 s2 → related m1 m2 → related (exec s1 m1) (exec s2 m2).
Proof. intros Hs Hm w1 w2 Hw. unfold exec. auto. Qed.

Lemma related_emit (e1 e2 : Event) : related_step (emit e1) (emit e2).
Proof. same_worlds. done. Qed.

Lemma related_os_Remove (p : path) : related_step (os_Remove p) (os_Remove p).
Proof. same_worlds. unfold os_Remove. crunch. Qed.

Lemma related_os_RemoveAll (p : path) : related_step (os_RemoveAll p) (os_RemoveAll p).
Proof. same_worlds. done. Qed.

Lemma related_os_MkdirAll (p : path) : related (os_MkdirAll p) (os_MkdirAll p).
Proof. same_worlds. unfold os_MkdirAll, fault. crunch. Qed.

Lemma related_CreateTemp_try (fuel : nat) (dir : path) (pre suf : string) :
  related (CreateTemp_try fuel dir pre suf) (CreateTemp_try fuel dir pre suf).
Proof.
  induction fuel as [|n IH]; same_worlds; simpl; unfold fault; simpl.
  - crunch.
  - match goal with |- context [?f !! ?q] => destruct (f !! q) eqn:E end.
    + apply IH. done.
    + crunch.
Qed.

Lemma related_os_CreateTemp (dir : path) (pattern : string) :
  related (os_CreateTemp dir pattern) (os_CreateTemp dir pattern).
Proof.
  unfold os_CreateTemp. destruct (has_sep pattern); [apply related_raise|].
  destruct (prefixAndSuffix pattern). apply related_CreateTemp_try.
Qed.

Lemma related_io_Copy (p : path) (d : bytes) : related (io_Copy p d) (io_Copy p d).
Proof. same_worlds. unfold io_Copy, fault. crunch. Qed.

Lemma related_os_Create (p : path) : related (os_Create p) (os_Create p).
Proof.
  same_worlds. unfold os_Create, fault.
  destruct p as [|c r]; [crunch|].
  generalize (removelast (c :: r)). generalize (c :: r). intros q parent. crunch.
Qed.

Lemma related_os_ReadFile (p : path) : related (os_ReadFile p) (os_ReadFile p).
Proof. same_worlds. unfold os_ReadFile, fault. crunch. Qed.

Lemma related_filepath_Glob (pattern : path) :
  related (filepath_Glob pattern) (filepath_Glob pattern).
Proof.
  same_worlds. unfold filepath_Glob. simpl.
  by destruct (globWithLimit _ (rev pattern) 0).
Qed.

Lemma related_uuid_New : related uuid_New uuid_New.
Proof. same_worlds. done. Qed.

#[local] Hint Resolve related_ret related_raise related_bind related_try related_defer
  related_exec related_emit related_os_Remove related_os_RemoveAll related_os_MkdirAll
  related_os_CreateTemp related_io_Copy related_os_Create related_os_ReadFile
  related_filepath_Glob related_uuid_New : blind.

Lemma related_read_all (ps : list path) : related (read_all ps) (read_all ps).
Proof. induction ps; simpl; auto 10 with blind. Qed.

Lemma related_write_spans (outDir : path) (fileName : string) (spans : list (Z * Z * bytes)) :
  related (write_spans outDir fileName spans) (write_spans outDir fileName spans).
Proof. induction spans as [|[[from thru] doc] r IH]; simpl; auto 10 with blind. Qed.

Lemma related_read_split (files : list path) (acc : list bytes) :
  related (read_split files acc) (read_split files acc).
Proof. revert acc. induction files; intros acc; simpl; auto 10 with blind. Qed.

Lemma related_createTempFile (cfg : Config) (data : bytes) (pattern : string) :
  related (createTempFile cfg data pattern) (createTempFile cfg data pattern).
Proof.
  unfold createTempFile.
  apply related_try; [auto with blind|]. intros _.
  apply related_try; [auto with blind|]. intros p w1 w2 Hw.
  destruct (related_io_Copy p data w1 w2 Hw) as [Hr Hs].
  destruct (io_Copy p data w1) as [r1 v1], (io_Copy p data w2) as [r2 v2].
  simpl in *. subst r2. destruct r1; simpl; [done| |done].
  split; [done|]. by apply related_os_Remove.
Qed.

#[local] Hint Resolve related_read_all related_write_spans related_read_split
  related_createTempFile : blind.

Section Blind.

Context {lib : PdfLib}.
Variable cfg : Config.

Lemma related_api_MergeCreateFile (ins : list path) (out : path) :
  related (api_MergeCreateFile ins out) (api_MergeCreateFile ins out).
Proof.
  unfold api_MergeCreateFile. apply related_bind; [auto with blind|]. intros _.
  apply related_bind; [auto with blind|]. intros docs.
  destruct (pdf_Merge docs); auto with blind.
Qed.

Lemma related_api_SplitFile (inFile outDir : path) (span : Z) :
  related (api_SplitFile inFile outDir span) (api_SplitFile inFile outDir span).
Proof.
  unfold api_SplitFile. apply related_bind; [auto with blind|]. intros data.
  destruct (pdf_Split data span); auto with blind.
Qed.

Lemma related_api_OptimizeFile (inFile outFile : path) :
  related (api_OptimizeFile inFile outFile) (api_OptimizeFile inFile outFile).
Proof.
  unfold api_OptimizeFile. apply related_bind; [auto with blind|]. intros data.
  apply related_bind; [auto with blind|]. intros _.
  destruct (pdf_Optimize data); auto with blind.
Qed.

Lemma related_merge_inputs {A} (pdfs : list bytes) (i : Z) (k1 k2 : list path → M A) :
  (∀ l, related (k1 l) (k2 l)) →
  related (merge_inputs cfg i pdfs k1) (merge_inputs cfg i pdfs k2).
Proof.
  revert i k1 k2. induction pdfs as [|d r IH]; intros i k1 k2 Hk; simpl; [done|].
  apply related_try; [auto with blind|]. intros p.
  apply related_defer; [auto with blind|]. apply IH. intros l. apply Hk.
Qed.

End Blind.

#[local] Hint Resolve related_api_MergeCreateFile related_api_SplitFile
  related_api_OptimizeFile related_merge_inputs : blind.

Lemma same_machine_refl (w : World) : same_machine w w.
Proof. done. Qed.

(** C9: the page range of a split request reaches the log and nothing
    else.  Two requests with the same document and any two page ranges
    return the same blobs (or the same error) and leave the same file
    system and oracles; the split handler answers them alike whatever the
    query strings are. *)
Theorem SplitPDF_ignores_PageRange `{lib : PdfLib} (cfg : Config)
    (data : bytes) (r1 r2 : string) (w : World) :
  (fst (SplitPDF cfg {| sp_PDFData := data; PageRange := r1 |} w)
     = fst (SplitPDF cfg {| sp_PDFData := data; PageRange := r2 |} w) ∧
   same_machine (snd (SplitPDF cfg {| sp_PDFData := data; PageRange := r1 |} w))
                (snd (SplitPDF cfg {| sp_PDFData := data; PageRange := r2 |} w))) ∧
  (∀ form q1 q2,
     fst (h_SplitPDF cfg {| multipart := form; query := q1 |} w)
       = fst (h_SplitPDF cfg {| multipart := form; query := q2 |} w)).
Proof.
  assert (∀ d a b, related (SplitPDF cfg {| sp_PDFData := d; PageRange := a |})
                           (SplitPDF cfg {| sp_PDFData := d; PageRange := b |})) as Hrel.
  { intros d a b. unfold SplitPDF. simpl. auto 20 with blind. }
  split; [apply Hrel, same_machine_refl|].
  intros form q1 q2. unfold h_SplitPDF, with_pdf, FormFile, form_files. simpl.
  destruct form as [form|]; [|done].
  destruct (default [] (lookup_key "pdf" form)) as [|file ?]; [done|].
  destruct (readUploadedFile file w) as [[pdfData|e|v] w1]; [|done..].
  unfold serve.
  destruct (Hrel pdfData (DefaultQuery {| multipart := Some form; query := q1 |} "pages" "all")
                 (DefaultQuery {| multipart := Some form; query := q2 |} "pages" "all")
                 w1 w1 (same_machine_refl w1)) as [Hr _].
  destruct (SplitPDF cfg _ w1) as [res1 v1]. destruct (SplitPDF cfg _ w1) as [res2 v2].
  simpl in Hr. subst res2. destruct res1; reflexivity.
Qed.

(** C10: the compression level of a request reaches the span attribute
    and the log and nothing else: [api_OptimizeFile] is called without
    it.  Two requests with the same document and any two levels return the
    same bytes (or the same error) and leave the same file system and
    oracles; the compress handler answers them alike whatever the query
    strings are. *)
Theorem CompressPDF_ignores_level `{lib : PdfLib} (cfg : Config)
    (data : bytes) (l1 l2 : Z) (w : World) :
  (fst (CompressPDF cfg {| cp_PDFData := data; cp_CompressionLevel := l1 |} w)
     = fst (CompressPDF cfg {| cp_PDFData := data; cp_CompressionLevel := l2 |} w) ∧
   same_machine (snd (CompressPDF cfg {| cp_PDFData := data; cp_CompressionLevel := l1 |} w))
                (snd (CompressPDF cfg {| cp_PDFData := data; cp_CompressionLevel := l2 |} w))) ∧
  (∀ form q1 q2,
     fst (h_CompressPDF cfg {| multipart := form; query := q1 |} w)
       = fst (h_CompressPDF cfg {| multipart := form; query := q2 |} w)).
Proof.
  assert (∀ d a b, related (CompressPDF cfg {| cp_PDFData := d; cp_CompressionLevel := a |})
                           (CompressPDF cfg {| cp_PDFData := d; cp_CompressionLevel := b |}))
    as Hrel.
  { intros d a b. unfold CompressPDF. simpl. auto 20 with blind. }
  split; [apply Hrel, same_machine_refl|].
  intros form q1 q2. unfold h_CompressPDF, with_pdf, FormFile, form_files. simpl.
  destruct form as [form|]; [|done].
  destruct (default [] (lookup_key "pdf" form)) as [|file ?]; [done|].
  destruct (readUploadedFile file w) as [[pdfData|e|v] w1]; [|done..].
  unfold serve.
  destruct (Hrel pdfData (parseIntParam {| multipart := Some form; query := q1 |} "level" 1)
                 (parseIntParam {| multipart := Some form; query := q2 |} "level" 1)
                 w1 w1 (same_machine_refl w1)) as [Hr _].
  destruct (CompressPDF cfg _ w1) as [res1 v1]. destruct (CompressPDF cfg _ w1) as [res2 v2].
  simpl in Hr. subst res2. destruct res1; reflexivity.
Qed.

(** ** Scratch files are released *)

Lemma prefix_snoc_cases (q l : path) (x : string) :
  q `prefix_of` l ++ [x] → q `prefix_of` l ∨ q = l ++ [x].
Proof.
  intros [k Hk].
  destruct (decide (k = [])) as [->|Hne].
  - right. by rewrite app_nil_r in Hk.
  - left. destruct (exists_last Hne) as (k' & y & ->).
    rewrite app_assoc in Hk. apply app_inj_tail in Hk as [-> _].
    by exists k'.
Qed.

Lemma mkdir_from_other (rest : path) : ∀ (f f' : gmap path node) (pre : path),
  mkdir_from f pre rest = Some f' →
  ∀ q, ¬ q `prefix_of` pre ++ rest → f' !! q = f !! q.
Proof.
  induction rest as [|c r IH]; intros f f' pre Hm q Hq; simpl in Hm.
  - by inversion Hm.
  - assert (pre ++ c :: r = (pre ++ [c]) ++ r) as Heq by (by rewrite <- app_assoc).
    rewrite Heq in Hq.
    destruct (f !! (pre ++ [c])) as [[d|]|] eqn:E; [done| |].
    + by apply (IH _ _ _ Hm).
    + rewrite (IH _ _ _ Hm q Hq). apply lookup_insert_ne.
      intros <-. apply Hq. by apply prefix_app_r.
Qed.

Lemma mkdir_from_keeps (rest : path) : ∀ (f f' : gmap path node) (pre : path),
  mkdir_from f pre rest = Some f' →
  ∀ q v, f !! q = Some v → f' !! q = Some v.
Proof.
  induction rest as [|c r IH]; intros f f' pre Hm q v Hq; simpl in Hm.
  - inversion Hm; subst; done.
  - destruct (f !! (pre ++ [c])) as [[d|]|] eqn:E; [done| |].
    + by apply (IH _ _ _ Hm).
    + apply (IH _ _ _ Hm). rewrite lookup_insert_ne; [done|].
      congruence.
Qed.

Lemma mkdir_from_ready (rest : path) : ∀ (f f' : gmap path node) (pre : path),
  mkdir_from f pre rest = Some f' →
  (∀ q, q `prefix_of` pre → q ≠ [] → f !! q = Some Dir) →
  ∀ q, q `prefix_of` pre ++ rest → q ≠ [] → f' !! q = Some Dir.
Proof.
  induction rest as [|c r IH]; intros f f' pre Hm Hpre q Hq Hne; simpl in Hm.
  - inversion Hm; subst. rewrite app_nil_r in Hq. by apply Hpre.
  - assert (pre ++ c :: r = (pre ++ [c]) ++ r) as Heq by (by rewrite <- app_assoc).
    rewrite Heq in Hq.
    destruct (f !! (pre ++ [c])) as [[d|]|] eqn:E; [done| |].
    + apply (IH _ _ _ Hm); [|done..].
      intros q' Hq' Hne'. apply prefix_snoc_cases in Hq' as [Hq'| ->]; auto.
    + apply (IH _ _ _ Hm); [|done..].
      intros q' Hq' Hne'. apply prefix_snoc_cases in Hq' as [Hq'| ->].
      * rewrite lookup_insert_ne; [by apply Hpre|].
        intros <-. rewrite (Hpre _ Hq' Hne') in E. done.
      * apply lookup_insert_eq.
Qed.

Lemma mkdir_from_id (rest : path) : ∀ (f : gmap path node) (pre : path),
  (∀ q, q `prefix_of` pre ++ rest → q ≠ [] → f !! q = Some Dir) →
  mkdir_from f pre rest = Some f.
Proof.
  induction rest as [|c r IH]; intros f pre Hready; simpl; [done|].
  assert (pre ++ c :: r = (pre ++ [c]) ++ r) as Heq by (by rewrite <- app_assoc).
  rewrite Heq in Hready.
  rewrite (Hready (pre ++ [c])).
  - by apply IH.
  - by apply prefix_app_r.
  - by destruct pre.
Qed.

Lemma settled_refl (T : path) (f : gmap path node) : settled T f f.
Proof. by left. Qed.

Lemma settled_same_contents (T : path) (f f' : gmap path node) :
  settled T f f' → same_contents T f f'.
Proof.
  intros [->|Hm] q [Hpre Hne]; [done|].
  apply (mkdir_from_other _ _ _ _ Hm). simpl.
  intros Hq. apply Hne. by apply (anti_symm prefix).
Qed.

Lemma settled_ready (T : path) (f f' : gmap path node) :
  dirs_ready f T → settled T f f' → f' = f.
Proof.
  intros Hr [->|Hm]; [done|].
  rewrite (mkdir_from_id T f []) in Hm; [congruence|]. apply Hr.
Qed.

Lemma mkdir_settles (T : path) (f f1 : gmap path node) :
  mkdir_from f [] T = Some f1 → settled T f f1 ∧ dirs_ready f1 T.
Proof.
  intros Hm. split; [by right|].
  intros q Hq Hne. apply (mkdir_from_ready _ _ _ _ Hm); [|done..].
  intros q' Hq' Hne'. apply prefix_nil_inv in Hq'. done.
Qed.

Lemma not_prefix_of_parent (T : path) (name : string) (rest : path) :
  ¬ T ++ name :: rest `prefix_of` T.
Proof.
  intros [k Hk]. apply (f_equal length) in Hk.
  rewrite !length_app in Hk. simpl in Hk. lia.
Qed.

Lemma dirs_ready_insert (T : path) (f : gmap path node) (name : string) (rest : path) (v : node) :
  dirs_ready f T → dirs_ready (<[T ++ name :: rest := v]> f) T.
Proof.
  intros Hr q Hq Hne. rewrite lookup_insert_ne; [by apply Hr|].
  intros <-. by apply not_prefix_of_parent in Hq.
Qed.

Lemma below_child (T : path) (name : string) (rest : path) : below T (T ++ name :: rest).
Proof.
  split; [by apply prefix_app_r|].
  intros Heq. apply (f_equal length) in Heq. rewrite length_app in Heq. simpl in Heq. lia.
Qed.

Lemma advances_refl (w : World) : advances w w.
Proof. done. Qed.

Lemma advances_trans (w1 w2 w3 : World) : advances w1 w2 → advances w2 w3 → advances w1 w3.
Proof. intros [E1 D1] [E2 D2]. split; [congruence | lia]. Qed.

Lemma os_MkdirAll_spec (p : path) (w : World) :
  let '(r, w') := os_MkdirAll p w in
  entropy w' = entropy w ∧ drawn w' = drawn w ∧
  match r with
  | Ok _ => mkdir_from (fs w) [] p = Some (fs w')
  | _ => fs w' = fs w
  end.
Proof.
  destruct w as [f e d x t]. unfold os_MkdirAll, fault. simpl.
  destruct x as [|[|] x]; simpl; try done.
  all: destruct (mkdir_from f [] p) eqn:E; simpl; done.
Qed.

Lemma io_Copy_spec (p : path) (data : bytes) (w : World) :
  let '(r, w') := io_Copy p data w in
  entropy w' = entropy w ∧ drawn w' = drawn w ∧
  match r with
  | Ok _ => fs w' = <[p := File data]> (fs w)
  | _ => fs w' = fs w
  end.
Proof.
  destruct w as [f e d x t]. unfold io_Copy, fault. simpl.
  destruct x as [|[|] x]; simpl; done.
Qed.

Lemma os_Create_spec (p : path) (w : World) :
  let '(r, w') := os_Create p w in
  entropy w' = entropy w ∧ drawn w' = drawn w ∧
  match r with
  | Ok _ => fs w' = <[p := File []]> (fs w) ∧ fs w !! p ≠ Some Dir
  | _ => fs w' = fs w
  end.
Proof.
  destruct w as [f e d x t]. unfold os_Create, fault. simpl.
  destruct p as [|c r]; [destruct x as [|[|] x]; simpl; done|].
  generalize (removelast (c :: r)). generalize (c :: r). intros q parent.
  destruct x as [|[|] x]; simpl; try done.
  all: destruct (is_dir f parent); simpl; try done.
  all: destruct (f !! q) as [[|]|] eqn:E; simpl; done.
Qed.

Lemma os_ReadFile_spec (p : path) (w : World) :
  let '(r, w') := os_ReadFile p w in
  entropy w' = entropy w ∧ drawn w' = drawn w ∧ fs w' = fs w.
Proof.
  destruct w as [f e d x t]. unfold os_ReadFile, fault. simpl.
  destruct x as [|[|] x]; simpl; try done.
  all: destruct (f !! p) as [[|]|]; simpl; done.
Qed.

Lemma CreateTemp_try_spec (fuel : nat) (dir : path) (pre suf : string) : ∀ w : World,
  let '(r, w') := CreateTemp_try fuel dir pre suf w in
  advances w w' ∧
  match r with
  | Ok p => ∃ n : nat, (drawn w <= n < drawn w')%nat ∧
                p = dir ++ [pre +:+ entropy w n +:+ suf] ∧
                fs w !! p = None ∧ fs w' = <[p := File []]> (fs w)
  | _ => fs w' = fs w
  end.
Proof.
  induction fuel as [|k IH]; intros [f e d x t]; simpl; unfold fault; simpl.
  - destruct (f !! (dir ++ [pre +:+ e d +:+ suf])) eqn:E; simpl.
    + split; [split; simpl; [done|lia]|done].
    + destruct x as [|[|] x]; simpl.
      all: try (destruct (is_dir f dir); simpl).
      all: split; [split; simpl; [done|lia]|]; try done.
      all: exists d; simpl; repeat split; auto; lia.
  - destruct (f !! (dir ++ [pre +:+ e d +:+ suf])) eqn:E; simpl.
    + specialize (IH (mkWorld f e (S d) x t)).
      destruct (CreateTemp_try k dir pre suf _) as [r w'].
      destruct IH as [[He Hd] Hr]. simpl in *.
      split; [split; simpl; [done|lia]|].
      destruct r as [p| |]; [|done..].
      destruct Hr as (m & Hm & Hp & Hnone & Hfs). exists m.
      repeat split; auto; lia.
    + destruct x as [|[|] x]; simpl.
      all: try (destruct (is_dir f dir); simpl).
      all: split; [split; simpl; [done|lia]|]; try done.
      all: exists d; simpl; repeat split; auto; lia.
Qed.

Lemma os_Remove_file (p : path) (data : bytes) (w : World) :
  fs w !! p = Some (File data) →
  fs (os_Remove p w) = delete p (fs w) ∧ advances w (os_Remove p w).
Proof. intros H. unfold os_Remove. rewrite H. done. Qed.

Lemma os_Remove_advances (p : path) (w : World) : advances w (os_Remove p w).
Proof. unfold os_Remove. repeat case_match; done. Qed.

Lemma createTempFile_spec (cfg : Config) (data : bytes) (pattern : string) (w : World) :
  let '(r, w') := createTempFile cfg data pattern w in
  advances w w' ∧
  match r with
  | Ok p => ∃ (f1 : gmap path node) (n : nat),
      settled (TempDir (PDF cfg)) (fs w) f1 ∧ dirs_ready f1 (TempDir (PDF cfg)) ∧
      (drawn w <= n < drawn w')%nat ∧
      p = TempDir (PDF cfg) ++
            [(prefixAndSuffix pattern).1 +:+ entropy w n +:+ (prefixAndSuffix pattern).2] ∧
      f1 !! p = None ∧ fs w' = <[p := File data]> f1
  | _ => settled (TempDir (PDF cfg)) (fs w) (fs w')
  end.
Proof.
  unfold createTempFile, try, os_CreateTemp.
  pose proof (os_MkdirAll_spec (TempDir (PDF cfg)) w) as Hmk.
  destruct (os_MkdirAll (TempDir (PDF cfg)) w) as [[[]|e0|v0] w0].
  2,3: destruct Hmk as (He & Hd & Hf); (split; [split; [done|lia]|]); by left.
  destruct Hmk as (He0 & Hd0 & Hm). apply mkdir_settles in Hm as [Hset Hready].
  destruct (has_sep pattern).
  { simpl. split; [split; [congruence|lia] | done]. }
  destruct (prefixAndSuffix pattern) as [pre suf]. cbn [fst snd].
  generalize (Z.to_nat 9999). intros fuel.
  pose proof (CreateTemp_try_spec fuel (TempDir (PDF cfg)) pre suf w0) as Hct.
  destruct (CreateTemp_try fuel _ pre suf w0) as [[p|e1|v1] w1].
  2,3: destruct Hct as [[He Hd] Hf]; (split; [split; [congruence|lia]|]); by rewrite Hf.
  destruct Hct as [[He1 Hd1] (n & Hn & Hp & Hnone & Hf1)].
  pose proof (io_Copy_spec p data w1) as Hcp.
  pose proof (never_panics_io_Copy p data w1) as Hnp.
  destruct (io_Copy p data w1) as [[[]|e2|v2] w2]; destruct Hcp as (He2 & Hd2 & Hf2).
  - split; [split; [congruence|lia]|].
    exists (fs w0), n. rewrite Hf2, Hf1, insert_insert_eq.
    repeat split; auto; try lia. congruence.
  - assert (fs w2 !! p = Some (File [])) as Hlook.
    { rewrite Hf2, Hf1. apply lookup_insert_eq. }
    destruct (os_Remove_file p [] w2 Hlook) as [Hrm [He3 Hd3]].
    split; [split; [congruence|lia]|].
    rewrite Hrm, Hf2, Hf1, delete_insert_id by done. done.
  - by destruct (Hnp v2).
Qed.

#[local] Instance file_at_preorder (out : path) : PreOrder (file_at out).
Proof.
  split.
  - intros f. split; auto.
  - intros f g h [H1 H1'] [H2 H2']. split.
    + intros q Hq. rewrite H2, H1; auto.
    + auto.
Qed.

#[local] Instance under_preorder (d : path) : PreOrder (under d).
Proof.
  split.
  - intros f q Hq. done.
  - intros f g h H1 H2 q Hq. rewrite H2, H1; auto.
Qed.

Section Effects.

Context (R : relation (gmap path node)) `{!PreOrder R}.

Lemma effect_ret {A} (a : A) : effect R (ret a).
Proof. intros w. split; [reflexivity | apply advances_refl]. Qed.

Lemma effect_raise {A} (e : error) : effect R (@raise A e).
Proof. intros w. split; [reflexivity | apply advances_refl]. Qed.

Lemma effect_make_slice {T} (size n : Z) : effect R (@make_slice T size n).
Proof.
  intros w. unfold make_slice. case_bool_decide; (split; [reflexivity | apply advances_refl]).
Qed.

Lemma effect_bind {A B} (m : M A) (k : A → M B) :
  effect R m → (∀ a, effect R (k a)) → effect R (bind m k).
Proof.
  intros Hm Hk w. unfold bind. destruct (Hm w) as [H1 H2].
  destruct (m w) as [[a|e|v] w1]; simpl in *; [|done..].
  destruct (Hk a w1) as [H3 H4]. split; [by etrans | by eapply advances_trans].
Qed.

Lemma effect_try {A B} (m : M A) (msg : string) (k : A → M B) :
  effect R m → (∀ a, effect R (k a)) → effect R (try m msg k).
Proof.
  intros Hm Hk w. unfold try. destruct (Hm w) as [H1 H2].
  destruct (m w) as [[a|e|v] w1]; simpl in *; [|done..].
  destruct (Hk a w1) as [H3 H4]. split; [by etrans | by eapply advances_trans].
Qed.

Lemma effect_exec_emit {A} (e : Event) (m : M A) : effect R m → effect R (exec (emit e) m).
Proof. intros Hm w. unfold exec. apply (Hm (emit e w)). Qed.

Lemma effect_os_ReadFile (p : path) : effect R (os_ReadFile p).
Proof.
  intros w. pose proof (os_ReadFile_spec p w) as H.
  destruct (os_ReadFile p w) as [r w']. destruct H as (He & Hd & Hf). simpl.
  rewrite Hf. split; [reflexivity | split; [done | lia]].
Qed.

Lemma effect_read_all (ps : list path) : effect R (read_all ps).
Proof.
  induction ps as [|p r IH]; simpl; [apply effect_ret|].
  apply effect_bind; [apply effect_os_ReadFile|]. intros d.
  apply effect_bind; [done|]. intros ds. apply effect_ret.
Qed.

Lemma effect_read_split (files : list path) : ∀ acc, effect R (read_split files acc).
Proof.
  induction files as [|p r IH]; intros acc; simpl; [apply effect_ret|].
  apply effect_try; [apply effect_os_ReadFile|]. intros d. apply IH.
Qed.

Lemma effect_filepath_Glob (pattern : path) : effect R (filepath_Glob pattern).
Proof.
  intros w. unfold filepath_Glob.
  destruct (globWithLimit (fs w) (rev pattern) 0); (split; [reflexivity | apply advances_refl]).
Qed.

End Effects.

Lemma effect_io_Copy_at (out : path) (data : bytes) : effect (file_at out) (io_Copy out data).
Proof.
  intros w. pose proof (io_Copy_spec out data w) as H.
  destruct (io_Copy out data w) as [[[]|e|v] w']; destruct H as (He & Hd & Hf); simpl.
  all: split; [|split; [done|lia]]; rewrite Hf.
  2,3: reflexivity.
  split; [intros q Hq; by rewrite lookup_insert_ne | rewrite lookup_insert_eq; done].
Qed.

Lemma effect_os_Create_at (out : path) : effect (file_at out) (os_Create out).
Proof.
  intros w. pose proof (os_Create_spec out w) as H.
  destruct (os_Create out w) as [[[]|e|v] w']; destruct H as (He & Hd & Hf); simpl.
  all: split; [|split; [done|lia]].
  2,3: rewrite Hf; reflexivity.
  destruct Hf as [Hf Hnd]. rewrite Hf.
  split; [intros q Hq; by rewrite lookup_insert_ne | rewrite lookup_insert_eq; done].
Qed.

Lemma effect_io_Copy_under (d q : path) (data : bytes) :
  d `prefix_of` q → effect (under d) (io_Copy q data).
Proof.
  intros Hpre w. pose proof (io_Copy_spec q data w) as H.
  destruct (io_Copy q data w) as [[[]|e|v] w']; destruct H as (He & Hd & Hf); simpl.
  all: split; [|split; [done|lia]]; rewrite Hf.
  2,3: reflexivity.
  intros q' Hq'. apply lookup_insert_ne. by intros <-.
Qed.

Lemma effect_os_Create_under (d q : path) :
  d `prefix_of` q → effect (under d) (os_Create q).
Proof.
  intros Hpre w. pose proof (os_Create_spec q w) as H.
  destruct (os_Create q w) as [[[]|e|v] w']; destruct H as (He & Hd & Hf); simpl.
  all: split; [|split; [done|lia]].
  2,3: rewrite Hf; reflexivity.
  destruct Hf as [Hf _]. rewrite Hf.
  intros q' Hq'. apply lookup_insert_ne. by intros <-.
Qed.

Lemma effect_write_spans (outDir : path) (fileName : string) (spans : list (Z * Z * bytes)) :
  effect (under outDir) (write_spans outDir fileName spans).
Proof.
  induction spans as [|[[from thru] doc] r IH]; simpl; [apply effect_ret; apply _|].
  apply effect_bind; [apply _ | apply effect_os_Create_under; by apply prefix_app_r |].
  intros _. apply effect_bind; [apply _ | apply effect_io_Copy_under; by apply prefix_app_r |].
  intros _. apply IH.
Qed.

Section ApiEffects.

Context {lib : PdfLib}.

Lemma effect_api_MergeCreateFile (ins : list path) (out : path) :
  effect (file_at out) (api_MergeCreateFile ins out).
Proof.
  unfold api_MergeCreateFile.
  apply effect_bind; [apply _ | apply effect_os_Create_at |]. intros _.
  apply effect_bind; [apply _ | apply effect_read_all; apply _ |]. intros docs.
  destruct (pdf_Merge docs); [apply effect_io_Copy_at | apply effect_raise; apply _].
Qed.

Lemma effect_api_OptimizeFile (inFile out : path) :
  effect (file_at out) (api_OptimizeFile inFile out).
Proof.
  unfold api_OptimizeFile.
  apply effect_bind; [apply _ | apply effect_os_ReadFile; apply _ |]. intros data.
  apply effect_bind; [apply _ | apply effect_os_Create_at |]. intros _.
  destruct (pdf_Optimize data); [apply effect_io_Copy_at | apply effect_raise; apply _].
Qed.

Lemma effect_api_AddWatermarksFile (inFile out : path) (wm : Watermark) :
  effect (file_at out) (api_AddWatermarksFile inFile out wm).
Proof.
  unfold api_AddWatermarksFile.
  apply effect_bind; [apply _ | apply effect_os_ReadFile; apply _ |]. intros data.
  apply effect_bind; [apply _ | apply effect_os_Create_at |]. intros _.
  destruct (pdf_AddWatermarks wm data); [apply effect_io_Copy_at | apply effect_raise; apply _].
Qed.

Lemma effect_api_SplitFile (inFile outDir : path) (span : Z) :
  effect (under outDir) (api_SplitFile inFile outDir span).
Proof.
  unfold api_SplitFile.
  apply effect_bind; [apply _ | apply effect_os_ReadFile; apply _ |]. intros data.
  destruct (pdf_Split data span); [apply effect_write_spans | apply effect_raise; apply _].
Qed.

Lemma effect_ReadContext (R : relation (gmap path node)) `{!PreOrder R} (data : bytes) :
  effect R (ReadContext data).
Proof.
  unfold ReadContext. destruct (pdf_ReadContext data);
    [by apply effect_ret | by apply effect_raise].
Qed.

Lemma effect_ParseTextWatermarkDetails (R : relation (gmap path node)) `{!PreOrder R}
    (text : string) :
  effect R (ParseTextWatermarkDetails text).
Proof.
  unfold ParseTextWatermarkDetails. destruct (pdf_ParseTextWatermarkDetails text);
    [by apply effect_ret | by apply effect_raise].
Qed.

End ApiEffects.

Lemma mkdir_from_prefix (rest : path) : ∀ (f f' : gmap path node) (pre : path),
  mkdir_from f pre rest = Some f' →
  ∀ q, q `prefix_of` pre → f' !! q = f !! q.
Proof.
  induction rest as [|c r IH]; intros f f' pre Hm q Hq; simpl in Hm.
  - by inversion Hm.
  - destruct (f !! (pre ++ [c])) as [[d|]|] eqn:E; [done| |].
    + apply (IH _ _ _ Hm). by apply prefix_app_r.
    + rewrite (IH _ _ _ Hm q) by (by apply prefix_app_r).
      apply lookup_insert_ne. intros <-. by apply prefix_snoc_not in Hq.
Qed.

Lemma mkdir_child (T : path) (x : string) (f f2 : gmap path node) :
  dirs_ready f T → mkdir_from f [] (T ++ [x]) = Some f2 → under (T ++ [x]) f f2.
Proof.
  intros Hr Hm q Hq.
  destruct (decide (q `prefix_of` T ++ [x])) as [Hp|Hp].
  - apply prefix_snoc_cases in Hp as [Hp| ->]; [|by destruct Hq].
    destruct (decide (q = [])) as [->|Hne].
    + by apply (mkdir_from_prefix _ _ _ _ Hm).
    + rewrite (Hr q Hp Hne). apply (mkdir_from_keeps _ _ _ _ Hm). by apply Hr.
  - by apply (mkdir_from_other _ _ _ _ Hm).
Qed.

Lemma RemoveAll_lookup (d q : path) (f : gmap path node) :
  filter (λ kv : path * node, ¬ d `prefix_of` kv.1) f !! q
    = if decide (d `prefix_of` q) then None else f !! q.
Proof.
  destruct (decide (d `prefix_of` q)) as [Hp|Hp].
  - apply map_lookup_filter_None_2. right. intros x _ HP. simpl in HP. done.
  - destruct (f !! q) eqn:E.
    + by apply map_lookup_filter_Some_2.
    + apply map_lookup_filter_None_2. by left.
Qed.

Lemma keeps_of_effect {A} (m : M A) (w : World) : effect eq m → keeps m w.
Proof. intros H. destruct (H w) as [H1 H2]. split; done. Qed.

Lemma keeps_exec_emit {A} (e : Event) (m : M A) (w : World) :
  keeps m (emit e w) → keeps (exec (emit e) m) w.
Proof. intros [H1 [H2 H3]]. unfold exec. split; [done|]. split; done. Qed.

Lemma keeps_uuid {A} (k : string → M A) (w : World) :
  keeps (k (entropy w (drawn w))) (snd (draw w)) → keeps (bind uuid_New k) w.
Proof.
  intros [H1 [H2 H3]]. unfold bind, uuid_New. simpl in *.
  split; [done|]. split; [done|]. lia.
Qed.

Lemma keeps_scoped_out {A} (out : path) (rest : M A) (w : World) :
  effect (file_at out) rest → fs w !! out = None → keeps (defer (os_Remove out) rest) w.
Proof.
  intros Hrest Hnone. unfold keeps, defer.
  destruct (Hrest w) as [[Hother Hnd] Hadv].
  destruct (rest w) as [r w']. simpl in *.
  split; [|eapply advances_trans; [done | apply os_Remove_advances]].
  unfold os_Remove. destruct (fs w' !! out) as [[d|]|] eqn:E; simpl.
  - apply map_eq. intros q. destruct (decide (q = out)) as [->|Hq].
    + by rewrite lookup_delete_eq.
    + rewrite lookup_delete_ne by done. by apply Hother.
  - exfalso. apply Hnd; [by rewrite Hnone | done].
  - apply map_eq. intros q. destruct (decide (q = out)) as [->|Hq].
    + by rewrite E.
    + by apply Hother.
Qed.

Lemma keeps_scoped_dir {A} (T : path) (x msg : string) (rest : M A) (w : World) :
  dirs_ready (fs w) T →
  (∀ q, T ++ [x] `prefix_of` q → fs w !! q = None) →
  effect (under (T ++ [x])) rest →
  keeps (try (os_MkdirAll (T ++ [x])) msg (λ _, defer (os_RemoveAll (T ++ [x])) rest)) w.
Proof.
  intros Hr Hfree Hrest. unfold keeps, try, defer.
  pose proof (os_MkdirAll_spec (T ++ [x]) w) as Hmk.
  destruct (os_MkdirAll (T ++ [x]) w) as [[[]|e|v] w1]; destruct Hmk as (He & Hd & Hm).
  2,3: simpl; (split; [done|]); split; [done|lia].
  destruct (Hrest w1) as [Hu [He2 Hd2]].
  destruct (rest w1) as [r w2]. simpl in *.
  split; [|split; simpl; [congruence|lia]].
  apply map_eq. intros q. rewrite RemoveAll_lookup. case_decide as Hp.
  - symmetry. by apply Hfree.
  - rewrite (Hu q Hp). by apply (mkdir_child T x (fs w) (fs w1)).
Qed.

Lemma fresh_scratch_emit (T : path) (e : Event) (w : World) :
  fresh_scratch T w → fresh_scratch T (emit e w).
Proof. done. Qed.

Lemma releases_exec_emit (T : path) {A} (e : Event) (m : M A) :
  releases T m → releases T (exec (emit e) m).
Proof. intros Hm w Hw. apply (Hm (emit e w)). done. Qed.

Lemma releases_defer_emit (T : path) {A} (e : Event) (m : M A) :
  releases T m → releases T (defer (emit e) m).
Proof.
  intros Hm w Hw. unfold defer. destruct (Hm w Hw) as [H1 [H2 H3]].
  destruct (m w) as [r w']. simpl in *. split; [done|]. split; done.
Qed.

Lemma releases_raise (T : path) {A} (e : error) : releases T (@raise A e).
Proof. intros w Hw. split; [apply settled_refl | apply advances_refl]. Qed.

Lemma scoped_temp (cfg : Config) {A} (data : bytes) (pattern msg : string)
    (rest : path → M A) (w : World) :
  (∀ p w1 f1 n,
     settled (TempDir (PDF cfg)) (fs w) f1 → dirs_ready f1 (TempDir (PDF cfg)) →
     f1 !! p = None →
     p = TempDir (PDF cfg) ++
           [(prefixAndSuffix pattern).1 +:+ entropy w n +:+ (prefixAndSuffix pattern).2] →
     (drawn w <= n < drawn w1)%nat → entropy w1 = entropy w →
     fs w1 = <[p := File data]> f1 →
     settled (TempDir (PDF cfg)) (fs w1) (fs (snd (rest p w1))) ∧
     advances w1 (snd (rest p w1))) →
  let m := try (createTempFile cfg data pattern) msg (λ p, defer (os_Remove p) (rest p)) in
  settled (TempDir (PDF cfg)) (fs w) (fs (snd (m w))) ∧ advances w (snd (m w)).
Proof.
  intros Hrest. simpl. unfold try, defer.
  pose proof (createTempFile_spec cfg data pattern w) as Hct.
  destruct (createTempFile cfg data pattern w) as [[p|e|v] w1]; destruct Hct as [[He Hd] Hct].
  2,3: simpl; (split; [done|]); split; done.
  destruct Hct as (f1 & n & Hset & Hready & Hn & Hp & Hnone & Hfs).
  destruct (Hrest p w1 f1 n Hset Hready Hnone Hp Hn He Hfs) as [Hs2 [He2 Hd2]].
  destruct (rest p w1) as [r w2]. simpl in *.
  assert (dirs_ready (fs w1) (TempDir (PDF cfg))) as Hr1.
  { rewrite Hfs, Hp. by apply dirs_ready_insert. }
  apply (settled_ready _ _ _ Hr1) in Hs2.
  assert (fs w2 !! p = Some (File data)) as Hlook.
  { rewrite Hs2, Hfs. apply lookup_insert_eq. }
  destruct (os_Remove_file p data w2 Hlook) as [Hrm [He3 Hd3]].
  rewrite Hrm, Hs2, Hfs, delete_insert_id by done.
  split; [done|]. split; [congruence|lia].
Qed.

Lemma keeps_settled (T : path) {A} (m : M A) (w : World) :
  keeps m w → settled T (fs w) (fs (snd (m w))) ∧ advances w (snd (m w)).
Proof. intros [H1 H2]. rewrite H1. split; [apply settled_refl | done]. Qed.

Lemma fresh_after_temp (T : path) (w w1 : World) (f1 : gmap path node)
    (p : path) (data : bytes) (name pre suf : string) (rest : path) (n : nat) :
  fresh_scratch T w → settled T (fs w) f1 →
  fs w1 = <[p := File data]> f1 → p = T ++ [name] →
  entropy w1 = entropy w → (drawn w <= n)%nat →
  name :: [] ≠ (pre +:+ entropy w1 n +:+ suf) :: rest →
  fs w1 !! (T ++ (pre +:+ entropy w1 n +:+ suf) :: rest) = None.
Proof.
  intros Hfresh Hset Hfs -> He Hn Hne.
  rewrite Hfs, lookup_insert_ne.
  - rewrite (settled_same_contents _ _ _ Hset) by apply below_child.
    rewrite He. apply (Hfresh n pre suf rest). done.
  - intros Heq. apply app_inv_head in Heq. done.
Qed.

Lemma append_empty_r (s : string) : s +:+ "" = s.
Proof.
  induction s as [|c s IH]; [done|].
  change (String c (s +:+ "") = String c s). by f_equal.
Qed.

Lemma merge_input_prefix (i : Z) :
  ∃ r, (prefixAndSuffix ("merge-input-" +:+ Itoa i +:+ "-*.pdf")).1 = "merge-input-" +:+ r.
Proof.
  unfold prefixAndSuffix. cbv [String.append]. simpl.
  destruct (split_last_star _) as [[p q]|]; simpl; eexists; reflexivity.
Qed.

Section Released.

Context {lib : PdfLib}.
Variable cfg : Config.

Abbreviation T := (TempDir (PDF cfg)).

Lemma releases_ConvertToImage (req : ConvertToImageRequest) :
  releases T (ConvertToImage cfg req).
Proof.
  unfold ConvertToImage. cbv zeta.
  do 2 (apply releases_exec_emit || apply releases_defer_emit).
  do 3 apply releases_exec_emit.
  intros w Hw. apply scoped_temp. intros p w1 f1 n Hset Hready Hnone Hp Hn He Hfs.
  apply keeps_settled, keeps_of_effect.
  apply effect_exec_emit, effect_ret; apply _.
Qed.

Lemma releases_ExtractText (req : ExtractTextRequest) :
  releases T (ExtractText cfg req).
Proof.
  unfold ExtractText. cbv zeta.
  do 2 (apply releases_exec_emit || apply releases_defer_emit).
  do 2 apply releases_exec_emit.
  intros w Hw. apply scoped_temp. intros p w1 f1 n Hset Hready Hnone Hp Hn He Hfs.
  apply keeps_settled, keeps_of_effect.
  apply effect_try; [apply _ | apply effect_ReadContext; apply _ |]. intros ctx2.
  apply effect_bind; [apply _ | apply effect_make_slice; apply _ |]. intros pages.
  apply effect_exec_emit, effect_ret; apply _.
Qed.

Lemma releases_CompressPDF (req : CompressRequest) :
  releases T (CompressPDF cfg req).
Proof.
  unfold CompressPDF. cbv zeta.
  do 2 (apply releases_exec_emit || apply releases_defer_emit).
  do 2 apply releases_exec_emit.
  intros w Hw. apply scoped_temp. intros p w1 f1 n Hset Hready Hnone Hp Hn He Hfs.
  apply keeps_settled, keeps_uuid, keeps_scoped_out.
  - apply effect_try; [apply _ | apply effect_api_OptimizeFile |]. intros _.
    apply effect_try; [apply _ | apply effect_os_ReadFile; apply _ |]. intros d.
    apply effect_exec_emit, effect_ret; apply _.
  - simpl. eapply (fresh_after_temp T w w1 f1 p _ _ "compress-output-" ".pdf" []);
      eauto; try lia; simpl; intros [=].
Qed.

Lemma releases_AddWatermark (req : WatermarkRequest) :
  releases T (AddWatermark cfg req).
Proof.
  unfold AddWatermark. cbv zeta.
  do 2 (apply releases_exec_emit || apply releases_defer_emit).
  apply releases_exec_emit.
  intros w Hw. apply scoped_temp. intros p w1 f1 n Hset Hready Hnone Hp Hn He Hfs.
  apply keeps_settled, keeps_uuid, keeps_scoped_out.
  - apply effect_try; [apply _ | apply effect_ParseTextWatermarkDetails; apply _ |].
    intros wm.
    apply effect_try; [apply _ | apply effect_api_AddWatermarksFile |]. intros _.
    apply effect_try; [apply _ | apply effect_os_ReadFile; apply _ |]. intros d.
    apply effect_exec_emit, effect_ret; apply _.
  - simpl. eapply (fresh_after_temp T w w1 f1 p _ _ "watermark-output-" ".pdf" []);
      eauto; try lia; simpl; intros [=].
Qed.

Lemma releases_SplitPDF (req : SplitRequest) :
  releases T (SplitPDF cfg req).
Proof.
  unfold SplitPDF. cbv zeta.
  do 2 (apply releases_exec_emit || apply releases_defer_emit).
  apply releases_exec_emit.
  intros w Hw. apply scoped_temp. intros p w1 f1 n Hset Hready Hnone Hp Hn He Hfs.
  apply keeps_settled, keeps_uuid, keeps_scoped_dir.
  - simpl. rewrite Hfs, Hp. by apply dirs_ready_insert.
  - simpl. intros q [k ->]. rewrite <- app_assoc. simpl.
    rewrite <- (append_empty_r (entropy w1 (drawn w1))).
    eapply (fresh_after_temp T w w1 f1 p _ _ "split-output-" "" k);
      eauto; try lia; simpl; intros [=].
  - apply effect_try; [apply _ | apply effect_api_SplitFile |]. intros _.
    apply effect_try; [apply _ | apply effect_filepath_Glob; apply _ |]. intros files.
    apply effect_bind; [apply _ | apply effect_read_split; apply _ |]. intros splitPDFs.
    apply effect_exec_emit, effect_ret; apply _.
Qed.

Lemma merge_inputs_settled {A} (pdfs : list bytes) :
  ∀ (i : Z) (k : list path → M A) (w : World),
    (∀ l w1, out_free T w1 → keeps (k l) w1) →
    out_free T w →
    settled T (fs w) (fs (snd (merge_inputs cfg i pdfs k w))) ∧
    advances w (snd (merge_inputs cfg i pdfs k w)).
Proof.
  induction pdfs as [|d r IH]; intros i k w Hk Hfree; simpl.
  - by apply keeps_settled, Hk.
  - apply scoped_temp. intros p w1 f1 n Hset Hready Hnone Hp Hn He Hfs.
    apply IH; [intros l w2 Hw2; by apply Hk|].
    intros m Hm. destruct (merge_input_prefix i) as [r0 Hr0]. rewrite Hr0 in Hp.
    rewrite Hfs, lookup_insert_ne.
    + rewrite (settled_same_contents _ _ _ Hset) by apply below_child.
      rewrite He. apply Hfree. lia.
    + rewrite Hp. intros Heq. apply app_inv_head in Heq. revert Heq.
      cbv [String.append]. intros [=].
Qed.

Lemma releases_MergePDFs (req : MergeRequest) :
  releases T (MergePDFs cfg req).
Proof.
  unfold MergePDFs. cbv zeta.
  do 2 (apply releases_exec_emit || apply releases_defer_emit).
  do 2 apply releases_exec_emit.
  case_bool_decide; [apply releases_raise|].
  intros w Hw. apply merge_inputs_settled.
  - intros l w1 Hfree. apply keeps_uuid, keeps_scoped_out.
    + apply effect_try; [apply _ | apply effect_api_MergeCreateFile |]. intros _.
      apply effect_try; [apply _ | apply effect_os_ReadFile; apply _ |]. intros d.
      apply effect_exec_emit, effect_ret; apply _.
    + simpl. by apply Hfree.
  - intros n Hn. apply (Hw n "merge-output-" ".pdf" []). done.
Qed.

End Released.

Lemma releases_restored (T : path) {A} (m : M A) (w : World) :
  releases T m → fresh_scratch T w → restored T w (snd (m w)).
Proof.
  intros Hm Hw. destruct (Hm w Hw) as [Hs _].
  split; [by apply settled_same_contents | done].
Qed.

(** C5: provided the random name parts still to be drawn are fresh, each
    of the six operations returns with the temp directory holding exactly
    what it held before, on the normal return and on every error return
    (the fault schedule of [w] is arbitrary); at most the directories
    leading to the temp directory are new. *)
Theorem scratch_is_released `{lib : PdfLib} (cfg : Config) (w : World) :
  fresh_scratch (TempDir (PDF cfg)) w →
  (∀ req, restored (TempDir (PDF cfg)) w (snd (MergePDFs cfg req w))) ∧
  (∀ req, restored (TempDir (PDF cfg)) w (snd (SplitPDF cfg req w))) ∧
  (∀ req, restored (TempDir (PDF cfg)) w (snd (ExtractText cfg req w))) ∧
  (∀ req, restored (TempDir (PDF cfg)) w (snd (CompressPDF cfg req w))) ∧
  (∀ req, restored (TempDir (PDF cfg)) w (snd (AddWatermark cfg req w))) ∧
  (∀ req, restored (TempDir (PDF cfg)) w (snd (ConvertToImage cfg req w))).
Proof.
  intros Hw.
  split; [|split; [|split; [|split; [|split]]]]; intros req;
    apply releases_restored; try done.
  - apply releases_MergePDFs.
  - apply releases_SplitPDF.
  - apply releases_ExtractText.
  - apply releases_CompressPDF.
  - apply releases_AddWatermark.
  - apply releases_ConvertToImage.
Qed.

Lemma home_fs_fresh (fl : list bool) :
  fresh_scratch (TempDir (PDF default_config)) (world_of home_fs fl).
Proof.
  intros n pre suf rest Hn. unfold home_fs. simpl.
  rewrite lookup_singleton_ne; [done|]. intros [=].
Qed.

Lemma scratch_is_released_witness :
  fresh_scratch (TempDir (PDF default_config))
                (world_of home_fs [false; false; false; false; false; true]) ∧
  restored (TempDir (PDF default_config))
           (world_of home_fs [false; false; false; false; false; true])
           (snd (MergePDFs default_config
                   {| PDFs := [B "%PDFabc"; B "%PDFde"]; OutputName := "" |}
                   (world_of home_fs [false; false; false; false; false; true]))).
Proof.
  split; [apply home_fs_fresh|].
  exact (proj1 (scratch_is_released (lib := mini) default_config
                  (world_of home_fs [false; false; false; false; false; true])
                  (home_fs_fresh _))
               {| PDFs := [B "%PDFabc"; B "%PDFde"]; OutputName := "" |}).
Defined.

(** ** Merging two documents *)

Lemma fst_defer {A} (c : World → World) (m : M A) (w : World) :
  fst (defer c m w) = fst (m w).
Proof. unfold defer. by destruct (m w). Qed.

Lemma try_ok {A B} (m : M A) (msg : string) (k : A → M B) (w w' : World) (a : A) :
  m w = (Ok a, w') → try m msg k w = k a w'.
Proof. intros H. unfold try. by rewrite H. Qed.

Lemma bind_ok {A B} (m : M A) (k : A → M B) (w w' : World) (a : A) :
  m w = (Ok a, w') → bind m k w = k a w'.
Proof. intros H. unfold bind. by rewrite H. Qed.

Lemma fault_none (w : World) : faults w = [] → fault w = (false, w).
Proof. intros H. unfold fault. by rewrite H. Qed.

Lemma is_dir_ready (f : gmap path node) (T : path) : dirs_ready f T → is_dir f T = true.
Proof.
  intros Hr. destruct T as [|c r]; [done|].
  unfold is_dir. by rewrite (Hr (c :: r)).
Qed.

Lemma os_MkdirAll_ok (p : path) (w : World) (f1 : gmap path node) :
  faults w = [] → mkdir_from (fs w) [] p = Some f1 →
  os_MkdirAll p w = (Ok tt, emit (FsMkdirAll p) (set_fs f1 w)).
Proof. intros Hf Hm. unfold os_MkdirAll. by rewrite (fault_none w Hf), Hm. Qed.

Lemma CreateTemp_try_first (fuel : nat) (dir : path) (pre suf : string) (w : World) :
  faults w = [] → is_dir (fs w) dir = true →
  fs w !! (dir ++ [pre +:+ entropy w (drawn w) +:+ suf]) = None →
  ∃ w', CreateTemp_try fuel dir pre suf w
          = (Ok (dir ++ [pre +:+ entropy w (drawn w) +:+ suf]), w') ∧
        fs w' = <[dir ++ [pre +:+ entropy w (drawn w) +:+ suf] := File []]> (fs w) ∧
        faults w' = [] ∧ entropy w' = entropy w ∧ drawn w' = S (drawn w).
Proof.
  intros Hf Hd Hnone. destruct w as [f e d x t]. simpl in *. subst x.
  destruct fuel; simpl; rewrite Hnone; unfold fault; simpl; rewrite Hd;
    eexists; split; try reflexivity; done.
Qed.

Lemma io_Copy_ok (p : path) (data : bytes) (w : World) :
  faults w = [] → io_Copy p data w = (Ok tt, set_fs (<[p := File data]> (fs w)) w).
Proof. intros Hf. unfold io_Copy. by rewrite (fault_none w Hf). Qed.

Lemma os_ReadFile_ok (p : path) (data : bytes) (w : World) :
  faults w = [] → fs w !! p = Some (File data) → os_ReadFile p w = (Ok data, w).
Proof. intros Hf Hl. unfold os_ReadFile. by rewrite (fault_none w Hf), Hl. Qed.

Lemma os_Create_ok (dir : path) (name : string) (w : World) :
  faults w = [] → is_dir (fs w) dir = true → fs w !! (dir ++ [name]) = None →
  os_Create (dir ++ [name]) w
    = (Ok tt, emit (FsCreate (dir ++ [name]))
                (set_fs (<[dir ++ [name] := File []]> (fs w)) w)).
Proof.
  intros Hf Hd Hnone. unfold os_Create. rewrite (fault_none w Hf).
  destruct (dir ++ [name]) as [|c r] eqn:E; [by destruct dir|].
  rewrite <- E in Hnone |- *. rewrite removelast_last, Hd, Hnone. done.
Qed.

Lemma createTempFile_ok (cfg : Config) (data : bytes) (pattern pre suf : string)
    (w : World) (f1 : gmap path node) :
  prefixAndSuffix pattern = (pre, suf) → has_sep pattern = false →
  faults w = [] → mkdir_from (fs w) [] (TempDir (PDF cfg)) = Some f1 →
  f1 !! (TempDir (PDF cfg) ++ [pre +:+ entropy w (drawn w) +:+ suf]) = None →
  ∃ w', createTempFile cfg data pattern w
          = (Ok (TempDir (PDF cfg) ++ [pre +:+ entropy w (drawn w) +:+ suf]), w') ∧
        fs w' = <[TempDir (PDF cfg) ++ [pre +:+ entropy w (drawn w) +:+ suf] := File data]> f1 ∧
        faults w' = [] ∧ entropy w' = entropy w ∧ drawn w' = S (drawn w).
Proof.
  intros Hps Hsep Hf Hm Hnone. unfold createTempFile.
  rewrite (try_ok _ _ _ _ _ _ (os_MkdirAll_ok _ _ _ Hf Hm)).
  unfold os_CreateTemp. rewrite Hsep, Hps. generalize (Z.to_nat 9999). intros fuel.
  destruct (CreateTemp_try_first fuel (TempDir (PDF cfg)) pre suf
              (emit (FsMkdirAll (TempDir (PDF cfg))) (set_fs f1 w)))
    as (w1 & E1 & Hfs1 & Hf1 & He1 & Hd1); simpl; auto.
  { apply is_dir_ready. by apply (mkdir_settles _ (fs w)). }
  simpl in *. rewrite (try_ok _ _ _ _ _ _ E1).
  rewrite (io_Copy_ok _ _ _ Hf1). eexists. split; [reflexivity|]. simpl.
  rewrite Hfs1, insert_insert_eq. done.
Qed.

Lemma api_MergeCreateFile_ok `{lib : PdfLib} (dir : path) (name : string)
    (p0 p1 : path) (A B out : bytes) (w : World) :
  faults w = [] → is_dir (fs w) dir = true → fs w !! (dir ++ [name]) = None →
  p0 ≠ dir ++ [name] → p1 ≠ dir ++ [name] →
  fs w !! p0 = Some (File A) → fs w !! p1 = Some (File B) →
  pdf_Merge [A; B] = Some out →
  ∃ w', api_MergeCreateFile [p0; p1] (dir ++ [name]) w = (Ok tt, w') ∧
        faults w' = [] ∧ fs w' !! (dir ++ [name]) = Some (File out).
Proof.
  intros Hf Hd Hnone Hp0 Hp1 HA HB Hmerge. unfold api_MergeCreateFile.
  rewrite (bind_ok _ _ _ _ _ (os_Create_ok dir name w Hf Hd Hnone)).
  set (w1 := emit _ _).
  assert (read_all [p0; p1] w1 = (Ok [A; B], w1)) as Hread.
  { simpl.
    rewrite (bind_ok _ _ _ _ _ (os_ReadFile_ok p0 A w1 Hf ltac:(simpl; by rewrite lookup_insert_ne))).
    unfold bind.
    rewrite (os_ReadFile_ok p1 B w1 Hf ltac:(simpl; by rewrite lookup_insert_ne)).
    done. }
  rewrite (bind_ok _ _ _ _ _ Hread), Hmerge.
  rewrite (io_Copy_ok _ _ w1 Hf). eexists. split; [reflexivity|]. simpl.
  split; [done|]. apply lookup_insert_eq.
Qed.

(** C1: when nothing fails in the operating system and the names drawn
    are fresh, [MergePDFs] on [[A; B]] returns what pdfcpu's merge makes of
    the contents [A] and [B] in this order; with pdfcpu's merge
    concatenating the pages of its inputs, the result has the pages of
    [A] followed by the pages of [B], and so as many pages as both
    together. *)
Theorem MergePDFs_concatenates `{lib : PdfLib} {Page : Type}
    (pages : bytes → option (list Page)) (cfg : Config)
    (A B : bytes) (pa pb : list Page) (o : string) (w : World) :
  (∀ ds pss, Forall2 (λ d ps, pages d = Some ps) ds pss →
             ∃ out, pdf_Merge ds = Some out ∧ pages out = Some (concat pss)) →
  pages A = Some pa → pages B = Some pb →
  faults w = [] →
  is_Some (mkdir_from (fs w) [] (TempDir (PDF cfg))) →
  fresh_scratch (TempDir (PDF cfg)) w →
  ∃ out, fst (MergePDFs cfg {| PDFs := [A; B]; OutputName := o |} w) = Ok out ∧
         pages out = Some (pa ++ pb) ∧
         length (pa ++ pb) = (length pa + length pb)%nat.
Proof.
  intros Hlib HA HB Hf [f1 Hm] Hfresh.
  destruct (Hlib [A; B] [pa; pb]) as (out & Hmerge & Hpages).
  { repeat constructor; done. }
  simpl in Hpages. rewrite app_nil_r in Hpages.
  exists out. split; [|split; [done | by rewrite length_app]].
  destruct (mkdir_settles _ _ _ Hm) as [Hset Hready].
  unfold MergePDFs. unfold exec. rewrite fst_defer.
  rewrite bool_decide_eq_false_2 by (simpl; lia).
  set (w0 := emit _ (emit _ (emit _ w))).
  cbn [merge_inputs PDFs].
  (* first input *)
  destruct (createTempFile_ok cfg A ("merge-input-" +:+ Itoa 0 +:+ "-*.pdf")
              "merge-input-0-" ".pdf" w0 f1)
    as (w1 & E1 & Hfs1 & Hf1 & He1 & Hd1); [by vm_compute | by vm_compute | done | done | |].
  { rewrite (settled_same_contents _ _ _ Hset) by apply below_child.
    apply (Hfresh (drawn w) "merge-input-0-" ".pdf" []). done. }
  rewrite (try_ok _ _ _ _ _ _ E1), fst_defer.
  simpl in Hfs1, He1, Hd1.
  assert (dirs_ready (fs w1) (TempDir (PDF cfg))) as Hready1.
  { rewrite Hfs1. by apply dirs_ready_insert. }
  (* second input *)
  destruct (createTempFile_ok cfg B ("merge-input-" +:+ Itoa (0 + 1) +:+ "-*.pdf")
              "merge-input-1-" ".pdf" w1 (fs w1))
    as (w2 & E2 & Hfs2 & Hf2 & He2 & Hd2); [by vm_compute | by vm_compute | done | | |].
  { apply mkdir_from_id. apply Hready1. }
  { rewrite Hfs1, lookup_insert_ne.
    - rewrite (settled_same_contents _ _ _ Hset) by apply below_child.
      rewrite He1. apply (Hfresh (drawn w1) "merge-input-1-" ".pdf" []). lia.
    - intros Heq. apply app_inv_head in Heq. revert Heq.
      cbv [String.append]. intros [=]. }
  rewrite (try_ok _ _ _ _ _ _ E2), fst_defer.
  assert (dirs_ready (fs w2) (TempDir (PDF cfg))) as Hready2.
  { rewrite Hfs2. by apply dirs_ready_insert. }
  (* output name *)
  unfold bind at 1. unfold uuid_New, draw. cbn iota beta. rewrite fst_defer.
  set (w3 := mkWorld _ _ _ _ _).
  destruct (api_MergeCreateFile_ok (TempDir (PDF cfg))
              ("merge-output-" +:+ entropy w2 (drawn w2) +:+ ".pdf")
              (TempDir (PDF cfg) ++ ["merge-input-0-" +:+ entropy w0 (drawn w0) +:+ ".pdf"])
              (TempDir (PDF cfg) ++ ["merge-input-1-" +:+ entropy w1 (drawn w1) +:+ ".pdf"])
              A B out w3)
    as (w4 & E4 & Hf4 & Hout); try done.
  { by apply is_dir_ready. }
  { simpl. rewrite Hfs2, Hfs1, !lookup_insert_ne.
    - rewrite (settled_same_contents _ _ _ Hset) by apply below_child.
      rewrite He2, He1. apply (Hfresh (drawn w2) "merge-output-" ".pdf" []). lia.
    - intros Heq. apply app_inv_head in Heq. revert Heq.
      cbv [String.append]. intros [=].
    - intros Heq. apply app_inv_head in Heq. revert Heq.
      cbv [String.append]. intros [=]. }
  { intros Heq. apply app_inv_head in Heq. revert Heq.
    cbv [String.append]. intros [=]. }
  { intros Heq. apply app_inv_head in Heq. revert Heq.
    cbv [String.append]. intros [=]. }
  { simpl. rewrite Hfs2, lookup_insert_ne, Hfs1, lookup_insert_eq; [done|].
    intros Heq. apply app_inv_head in Heq. revert Heq.
    cbv [String.append]. intros [=]. }
  { simpl. rewrite Hfs2, lookup_insert_eq. done. }
  rewrite (try_ok _ _ _ _ _ _ E4).
  rewrite (try_ok _ _ _ _ _ _ (os_ReadFile_ok _ out w4 Hf4 Hout)).
  reflexivity.
Qed.

Lemma mini_pages_doc (ps : bytes) : mini_pages (mini_doc ps) = Some ps.
Proof. unfold mini_pages, mini_doc. by rewrite bool_decide_eq_true_2. Qed.

Lemma mini_Merge_spec (ds : list bytes) (pss : list bytes) :
  Forall2 (λ d ps, mini_pages d = Some ps) ds pss →
  ∃ out, pdf_Merge (PdfLib := mini) ds = Some out ∧ mini_pages out = Some (concat pss).
Proof.
  intros H. exists (mini_doc (concat pss)). split; [|apply mini_pages_doc].
  simpl. unfold mini_Merge.
  assert (mini_Merge_pages ds = Some (concat pss)) as ->; [|done].
  induction H as [|d ps ds pss Hd _ IH]; simpl; [done|]. by rewrite Hd, IH.
Qed.

Lemma MergePDFs_concatenates_witness :
  ∃ out, fst (MergePDFs default_config
                {| PDFs := [B "%PDFabc"; B "%PDFde"]; OutputName := "" |}
                (world_of home_fs [])) = Ok out ∧
         mini_pages out = Some (B "abc" ++ B "de") ∧
         length (B "abc" ++ B "de") = (length (B "abc") + length (B "de"))%nat.
Proof.
  exact (MergePDFs_concatenates (lib := mini) mini_pages default_config
           (B "%PDFabc") (B "%PDFde") (B "abc") (B "de") "" (world_of home_fs [])
           mini_Merge_spec eq_refl eq_refl eq_refl
           (ex_intro _ _ eq_refl) (home_fs_fresh [])).
Defined.

(** ** Split: the order of the output *)

(** C3 (the code falls short of it): the split files are read back in the
    order in which [filepath.Glob] lists them, which is the lexical order
    of their names [<input>_<page>.pdf].  On a ten-page document, whose
    pages are [a] to [j], pdfcpu's split yields the pages in order 1 to 10,
    and [SplitPDF] returns ten blobs with page 10 in second place. *)
Theorem SplitPDF_ten_pages_order :
  pdf_Split (PdfLib := mini) (B "%PDFabcdefghij") 1
    = Some [(1, 1, B "%PDFa"); (2, 2, B "%PDFb"); (3, 3, B "%PDFc"); (4, 4, B "%PDFd");
            (5, 5, B "%PDFe"); (6, 6, B "%PDFf"); (7, 7, B "%PDFg"); (8, 8, B "%PDFh");
            (9, 9, B "%PDFi"); (10, 10, B "%PDFj")] ∧
  fst (SplitPDF default_config
         {| sp_PDFData := B "%PDFabcdefghij"; PageRange := "all" |} (world_of ∅ []))
    = Ok [B "%PDFa"; B "%PDFj"; B "%PDFb"; B "%PDFc"; B "%PDFd"; B "%PDFe";
          B "%PDFf"; B "%PDFg"; B "%PDFh"; B "%PDFi"].
Proof. split; vm_compute; reflexivity. Qed.

(** ** Validation at the boundary *)

Lemma ValidateRequest_None (cfg : Config) (blob : bytes) :
  ValidateRequest cfg blob = None → take 4 blob = pdf_magic.
Proof.
  unfold ValidateRequest. repeat case_bool_decide; try done.
  intros _. destruct (decide (take 4 blob = pdf_magic)); [done|]. exfalso. tauto.
Qed.

(** The convert handler validates before it calls the service: a blob
    without the signature is answered with 400 and the world is left as
    it was. *)
Lemma h_ConvertToImage_validates (cfg : Config) (c : Request) (data : bytes) (w : World) :
  FormFile c "pdf" = Some data → faults w = [] → take 4 data ≠ pdf_magic →
  ∃ msg, h_ConvertToImage cfg c w
           = ({| status := 400; body := JSON [("error"%string, JStr msg)] |}, w).
Proof.
  intros Hfile Hf Hsig. unfold h_ConvertToImage, with_pdf. rewrite Hfile.
  unfold readUploadedFile. rewrite (fault_none w Hf).
  destruct (ValidateRequest cfg data) as [err|] eqn:E.
  - by eexists.
  - by apply ValidateRequest_None in E.
Qed.

(** C4 (the code falls short of it): only the convert handler calls
    [ValidateRequest].  A GIF sent to the split route, or two GIFs sent to
    the merge route, reach the service: temp files (and for split the
    output directory) are created and removed again, and the answer is 500
    rather than 400. *)
Theorem handlers_skip_validation :
  ValidateRequest default_config (B "GIF89a") = Some (Errorf "invalid PDF format") ∧
  (∃ h, router default_config "/api/v1/pdf/split" = Some h ∧
     let '(resp, w') := h {| multipart := Some [("pdf"%string, [B "GIF89a"])]; query := [] |}
                          (world_of ∅ []) in
     resp = {| status := 500; body := JSON [("error"%string, JStr "Split failed")] |} ∧
     trace w' =
       [SpanStart "PDFService.SplitPDF";
        LogInfo "Splitting PDF" [("page_range"%string, VStr "all")];
        FsMkdirAll ["tmp"; "pdf-tool"]%string;
        FsCreate ["tmp"; "pdf-tool"; "split-input-0.pdf"]%string;
        FsMkdirAll ["tmp"; "pdf-tool"; "split-output-1"]%string;
        FsRemoveAll ["tmp"; "pdf-tool"; "split-output-1"]%string;
        FsRemove ["tmp"; "pdf-tool"; "split-input-0.pdf"]%string;
        SpanEnd "PDFService.SplitPDF";
        LogError "Failed to split PDF"
          [("error"%string, VErr (Wrap "failed to split PDF" (Errno "pdfcpu: split")))]]) ∧
  (∃ h, router default_config "/api/v1/pdf/merge" = Some h ∧
     let '(resp, w') := h {| multipart := Some [("pdfs"%string, [B "GIF89a"; B "GIF89a"])];
                             query := [] |}
                          (world_of ∅ []) in
     resp = {| status := 500; body := JSON [("error"%string, JStr "Merge failed")] |} ∧
     trace w' =
       [SpanStart "PDFService.MergePDFs";
        SpanAttr "pdf_count" (VInt 2);
        LogInfo "Merging PDFs" [("count"%string, VInt 2)];
        FsMkdirAll ["tmp"; "pdf-tool"]%string;
        FsCreate ["tmp"; "pdf-tool"; "merge-input-0-0.pdf"]%string;
        FsMkdirAll ["tmp"; "pdf-tool"]%string;
        FsCreate ["tmp"; "pdf-tool"; "merge-input-1-1.pdf"]%string;
        FsCreate ["tmp"; "pdf-tool"; "merge-output-2.pdf"]%string;
        FsRemove ["tmp"; "pdf-tool"; "merge-output-2.pdf"]%string;
        FsRemove ["tmp"; "pdf-tool"; "merge-input-1-1.pdf"]%string;
        FsRemove ["tmp"; "pdf-tool"; "merge-input-0-0.pdf"]%string;
        SpanEnd "PDFService.MergePDFs";
        LogError "Failed to merge PDFs"
          [("error"%string, VErr (Wrap "failed to merge PDFs" (Errno "pdfcpu: merge")))]]).
Proof.
  split; [by vm_compute|]. split.
  - exists (h_SplitPDF default_config). split; [reflexivity|]. vm_compute. done.
  - exists (h_MergePDFs default_config). split; [reflexivity|]. vm_compute. done.
Qed.

(** ** Integer query parameters *)

Lemma digits_of_uint_acc (d : Decimal.uint) : ∀ acc : positive,
  digits (NilEmpty.string_of_uint d) (Z.pos acc) = Some (Z.pos (Pos.of_uint_acc d acc)).
Proof.
  induction d; intros acc; simpl; try done.
  all: unfold digit; simpl; rewrite <- IHd; f_equal; lia.
Qed.

Lemma digits_of_uint (d : Decimal.uint) :
  digits (NilEmpty.string_of_uint d) 0 = Some (Z.of_N (Pos.of_uint d)).
Proof.
  induction d; simpl; try done.
  all: unfold digit; simpl; apply digits_of_uint_acc.
Qed.

Lemma to_uint_not_Nil (p : positive) : Pos.to_uint p ≠ Decimal.Nil.
Proof.
  intros E. pose proof (Unsigned.of_to p) as H. rewrite E in H. done.
Qed.

Lemma Atoi_Itoa (z : Z) : - 2 ^ 63 <= z < 2 ^ 63 → Atoi (Itoa z) = Some z.
Proof.
  intros Hz. unfold Itoa. destruct z as [|p|p]; simpl; [done| |].
  - pose proof (digits_of_uint (Pos.to_uint p)) as Hd.
    rewrite Unsigned.of_to in Hd. pose proof (to_uint_not_Nil p) as Hn.
    unfold Atoi.
    destruct (Pos.to_uint p); [done|..]; simpl in *; rewrite Hd; simpl;
      by rewrite bool_decide_eq_true_2.
  - pose proof (digits_of_uint (Pos.to_uint p)) as Hd.
    rewrite Unsigned.of_to in Hd. pose proof (to_uint_not_Nil p) as Hn.
    unfold Atoi.
    destruct (Pos.to_uint p); [done|..]; simpl in *; rewrite Hd; simpl;
      by rewrite bool_decide_eq_true_2.
Qed.

Lemma Atoi_range (s : string) (z : Z) : Atoi s = Some z → - 2 ^ 63 <= z < 2 ^ 63.
Proof.
  unfold Atoi. intros H.
  repeat case_match; simplify_eq; try done.
  all: match goal with
       | Hb : bool_decide _ = true |- _ => by apply bool_decide_eq_true in Hb
       end.
Qed.

(** X1: [parseIntParam] yields the default when the key is absent from the
    query and when its value is not a decimal integer that fits 64 bits;
    it yields [z] when the value is the decimal form of [z]; and what it
    yields is always the default or a 64-bit integer. *)
Theorem parseIntParam_spec (c : Request) (key : string) (defaultValue : Z) :
  - 2 ^ 63 <= defaultValue < 2 ^ 63 →
  (lookup_key key (query c) = None → parseIntParam c key defaultValue = defaultValue) ∧
  (∀ v, lookup_key key (query c) = Some v → Atoi v = None →
        parseIntParam c key defaultValue = defaultValue) ∧
  (∀ z, - 2 ^ 63 <= z < 2 ^ 63 → lookup_key key (query c) = Some (Itoa z) →
        parseIntParam c key defaultValue = z) ∧
  - 2 ^ 63 <= parseIntParam c key defaultValue < 2 ^ 63.
Proof.
  intros Hd. unfold parseIntParam, DefaultQuery. repeat split.
  - intros ->. simpl. by rewrite Atoi_Itoa.
  - intros v -> Hv. simpl. by rewrite Hv.
  - intros z Hz ->. simpl. by rewrite Atoi_Itoa.
  - destruct (Atoi _) eqn:E; [apply (Atoi_range _ _ E) | lia].
  - destruct (Atoi _) eqn:E; [apply (Atoi_range _ _ E) | lia].
Qed.

Lemma parseIntParam_spec_witness :
  - 2 ^ 63 <= 150 < 2 ^ 63 ∧
  parseIntParam {| multipart := None; query := [("dpi"%string, "300"%string)] |} "dpi" 150 = 300 ∧
  parseIntParam {| multipart := None; query := [("dpi"%string, "3e2"%string)] |} "dpi" 150 = 150 ∧
  parseIntParam {| multipart := None; query := [] |} "dpi" 150 = 150.
Proof.
  assert (- 2 ^ 63 <= 150 < 2 ^ 63) as H150 by lia.
  split; [exact H150|]. split; [|split].
  - apply (proj1 (proj2 (proj2 (parseIntParam_spec
             {| multipart := None; query := [("dpi"%string, "300"%string)] |} "dpi" 150 H150)))
             300); [lia | reflexivity].
  - apply (proj1 (proj2 (parseIntParam_spec
             {| multipart := None; query := [("dpi"%string, "3e2"%string)] |} "dpi" 150 H150))
             "3e2"%string); reflexivity.
  - apply (proj1 (parseIntParam_spec {| multipart := None; query := [] |} "dpi" 150 H150)).
    reflexivity.
Defined.

(** ** Configuration *)

(** X2: [validate] accepts exactly the configurations with a port in
    1..65535, a positive size limit, a positive page limit and one of the
    four log levels; the checks run in this order and the first one that
    fails decides the message.  The defaults of [setDefaults] are valid. *)
Theorem validate_spec (cfg : Config) :
  (validate cfg = None ↔
     1 <= Port cfg <= 65535 ∧ MaxFileSize (PDF cfg) > 0 ∧ MaxPages (PDF cfg) > 0 ∧
     LogLevel cfg ∈ ["debug"; "info"; "warn"; "error"]%string) ∧
  (validate cfg = Some (Errorf ("invalid port: " +:+ Itoa (Port cfg))) ↔
     ¬ 1 <= Port cfg <= 65535) ∧
  (validate cfg = Some (Errorf "max_file_size must be positive") ↔
     1 <= Port cfg <= 65535 ∧ MaxFileSize (PDF cfg) <= 0) ∧
  (validate cfg = Some (Errorf "max_pages must be positive") ↔
     1 <= Port cfg <= 65535 ∧ MaxFileSize (PDF cfg) > 0 ∧ MaxPages (PDF cfg) <= 0) ∧
  (validate cfg = Some (Errorf ("invalid log level: " +:+ LogLevel cfg)) ↔
     1 <= Port cfg <= 65535 ∧ MaxFileSize (PDF cfg) > 0 ∧ MaxPages (PDF cfg) > 0 ∧
     LogLevel cfg ∉ ["debug"; "info"; "warn"; "error"]%string) ∧
  validate default_config = None.
Proof.
  split; [|split; [|split; [|split; [|split; [|by vm_compute]]]]].
  all: unfold validate, validLogLevels.
  all: repeat split; repeat case_bool_decide; simpl in *;
    try discriminate; try tauto; try lia;
    try (intros [=]); try (intros; exfalso; tauto); try (intros; exfalso; lia).
Qed.

(** ** Log fields *)

Lemma parseFields_from_pairs (kv : list (LogVal * LogVal)) :
  ∀ (tail : list LogVal) (fields : gmap string LogVal),
    parseFields_from (pair_args kv ++ tail) fields
      = parseFields_from tail (foldl (λ m p, <[p.1 := p.2]> m) fields (string_keyed kv)).
Proof.
  induction kv as [|[k v] kv IH]; intros tail fields; simpl; [done|].
  rewrite IH. by destruct k.
Qed.

Lemma find_app_first {A} (f : A → bool) (l1 l2 : list A) :
  List.find f (l1 ++ l2)
    = match List.find f l1 with Some x => Some x | None => List.find f l2 end.
Proof. induction l1 as [|a l1 IH]; simpl; [done|]. by destruct (f a). Qed.

Lemma foldl_insert_lookup (kv : list (string * LogVal)) : ∀ (fields : gmap string LogVal) key,
  foldl (λ m p, <[p.1 := p.2]> m) fields kv !! key
    = match lookup_key key (reverse kv) with
      | Some v => Some v
      | None => fields !! key
      end.
Proof.
  induction kv as [|[k v] kv IH]; intros fields key; simpl; [done|].
  rewrite IH, reverse_cons. unfold lookup_key.
  rewrite find_app_first. simpl.
  destruct (List.find _ (reverse kv)) as [[k' v']|]; simpl; [done|].
  destruct (String.eqb_spec k key) as [->|Hne]; simpl.
  - by rewrite lookup_insert_eq.
  - by rewrite lookup_insert_ne.
Qed.

Lemma args_are_pairs (args : list LogVal) :
  ∃ kv dangling, args = pair_args kv ++ option_list dangling.
Proof.
  assert (∀ n (l : list LogVal), (length l < n)%nat →
            ∃ kv dangling, l = pair_args kv ++ option_list dangling) as H.
  { induction n as [|n IH]; intros l Hl; [lia|].
    destruct l as [|k [|v l]].
    - by exists [], None.
    - by exists [], (Some k).
    - destruct (IH l) as (kv & d & ->); [simpl in Hl; lia|].
      by exists ((k, v) :: kv), d. }
  apply (H (S (length args))). lia.
Qed.

(** X3: [parseFields] reads its arguments as pairs.  Every argument list
    is a sequence of pairs followed by at most one element without a
    partner, and the fields hold, for each key, the value of the last
    pair with that string as key: a pair whose key is not a string is
    dropped together with its value, wherever it stands, the pairs after
    it still count, and the element without a partner changes nothing. *)
Theorem parseFields_pairs :
  (∀ args : list LogVal, ∃ kv dangling, args = pair_args kv ++ option_list dangling) ∧
  (∀ (kv : list (LogVal * LogVal)) (dangling : option LogVal) (key : string),
     parseFields (pair_args kv ++ option_list dangling) !! key
       = lookup_key key (reverse (string_keyed kv))).
Proof.
  split; [apply args_are_pairs|]. intros kv dangling key.
  unfold parseFields. rewrite parseFields_from_pairs.
  assert (∀ fields, parseFields_from (option_list dangling) fields = fields) as ->
    by (by destruct dangling).
  rewrite foldl_insert_lookup, lookup_empty. by destruct (lookup_key _ _).
Qed.

(** ** Temp files *)

Lemma createTempFile_error (cfg : Config) (data : bytes) (pattern : string) (w : World)
    (e : error) :
  fst (createTempFile cfg data pattern w) = Fail e →
  ∃ cause, e = Wrap "failed to create temp directory" cause ∨
           e = Wrap "failed to create temp file" cause ∨
           e = Wrap "failed to write temp file" cause.
Proof.
  unfold createTempFile, try.
  destruct (os_MkdirAll _ w) as [[[]|e0|v0] w0]; simpl; [|intros [= <-]; eauto|done].
  destruct (os_CreateTemp _ pattern w0) as [[p|e1|v1] w1]; simpl; [|intros [= <-]; eauto|done].
  destruct (io_Copy p data w1) as [[[]|e2|v2] w2]; simpl; [done|intros [= <-]; eauto|done].
Qed.

(** X4: [createTempFile] never overwrites.  When it succeeds, the path it
    returns is a new entry directly in the temp directory, named by the
    pattern with its [*] replaced, and holds exactly the data, and every
    other entry below the temp directory is as before.  When it fails, the
    error wraps the failing step (directory, creation or write) and the
    temp directory holds what it held before: a file whose write failed
    is removed again. *)
Theorem createTempFile_post (cfg : Config) (data : bytes) (pattern : string) (w : World) :
  match createTempFile cfg data pattern w with
  | (Ok p, w') =>
      (∃ token, p = TempDir (PDF cfg) ++
                      [(prefixAndSuffix pattern).1 +:+ token +:+ (prefixAndSuffix pattern).2]) ∧
      fs w !! p = None ∧
      fs w' !! p = Some (File data) ∧
      (∀ q, below (TempDir (PDF cfg)) q → q ≠ p → fs w' !! q = fs w !! q)
  | (Fail e, w') =>
      same_contents (TempDir (PDF cfg)) (fs w) (fs w') ∧
      ∃ cause, e = Wrap "failed to create temp directory" cause ∨
               e = Wrap "failed to create temp file" cause ∨
               e = Wrap "failed to write temp file" cause
  | (Panic _, _) => False
  end.
Proof.
  pose proof (createTempFile_spec cfg data pattern w) as Hs.
  pose proof (createTempFile_error cfg data pattern w) as He.
  pose proof (never_panics_createTempFile cfg data pattern w) as Hnp.
  destruct (createTempFile cfg data pattern w) as [[p|e|v] w']; destruct Hs as [_ Hs].
  - destruct Hs as (f1 & n & Hset & Hready & Hn & Hp & Hnone & Hfs).
    pose proof (settled_same_contents _ _ _ Hset) as Hsame.
    assert (below (TempDir (PDF cfg)) p) as Hbelow by (rewrite Hp; apply below_child).
    split; [by eexists|]. split; [by rewrite <- (Hsame p Hbelow)|].
    split; [rewrite Hfs; apply lookup_insert_eq|].
    intros q Hq Hne. rewrite Hfs, lookup_insert_ne by done. by apply Hsame.
  - split; [by apply settled_same_contents | by apply He].
  - by destruct (Hnp v).
Qed.

(** X5: two temp files made one after the other never collide, whatever
    the patterns and whatever the random source yields: the second path
    differs from the first, and after the second call both files hold
    their data. *)
Theorem createTempFile_twice (cfg : Config) (d1 d2 : bytes) (pat1 pat2 : string)
    (w w1 w2 : World) (p1 p2 : path) :
  createTempFile cfg d1 pat1 w = (Ok p1, w1) →
  createTempFile cfg d2 pat2 w1 = (Ok p2, w2) →
  p1 ≠ p2 ∧ fs w2 !! p1 = Some (File d1) ∧ fs w2 !! p2 = Some (File d2).
Proof.
  intros E1 E2.
  pose proof (createTempFile_spec cfg d1 pat1 w) as H1. rewrite E1 in H1.
  pose proof (createTempFile_spec cfg d2 pat2 w1) as H2. rewrite E2 in H2.
  destruct H1 as [_ (f1 & n1 & Hset1 & Hready1 & Hn1 & Hp1 & Hnone1 & Hfs1)].
  destruct H2 as [_ (f2 & n2 & Hset2 & Hready2 & Hn2 & Hp2 & Hnone2 & Hfs2)].
  assert (dirs_ready (fs w1) (TempDir (PDF cfg))) as Hr.
  { rewrite Hfs1, Hp1. by apply dirs_ready_insert. }
  apply (settled_ready _ _ _ Hr) in Hset2. subst f2.
  assert (p1 ≠ p2) as Hne.
  { intros <-. rewrite Hfs1, lookup_insert_eq in Hnone2. done. }
  split; [done|]. rewrite Hfs2. split.
  - rewrite lookup_insert_ne by done. rewrite Hfs1. apply lookup_insert_eq.
  - apply lookup_insert_eq.
Qed.

Lemma createTempFile_twice_witness :
  ∃ p1 p2 w1 w2,
    createTempFile default_config (B "%PDFa") "input-*.pdf" (world_of ∅ []) = (Ok p1, w1) ∧
    createTempFile default_config (B "%PDFb") "input-*.pdf" w1 = (Ok p2, w2) ∧
    p1 ≠ p2 ∧ fs w2 !! p1 = Some (File (B "%PDFa")) ∧ fs w2 !! p2 = Some (File (B "%PDFb")).
Proof.
  destruct (createTempFile default_config (B "%PDFa") "input-*.pdf" (world_of ∅ []))
    as [[p1|e1|v1] w1] eqn:E1; [|by vm_compute in E1..].
  destruct (createTempFile default_config (B "%PDFb") "input-*.pdf" w1)
    as [[p2|e2|v2] w2] eqn:E2.
  - exists p1, p2, w1, w2. split; [done|]. split; [done|].
    exact (createTempFile_twice default_config _ _ _ _ _ _ _ _ _ E1 E2).
  - exfalso. vm_compute in E1. injection E1 as <- <-. by vm_compute in E2.
  - exfalso. vm_compute in E1. injection E1 as <- <-. by vm_compute in E2.
Defined.

(** ** The handlers leave the temp directory as they found it *)

Lemma fresh_scratch_later (T : path) (w w1 : World) :
  fresh_scratch T w → fs w1 = fs w → advances w w1 → fresh_scratch T w1.
Proof.
  intros Hw Hfs [He Hd] n pre suf rest Hn. rewrite Hfs, He. apply Hw. lia.
Qed.

Lemma effect_readUploadedFile (file : bytes) : effect eq (readUploadedFile file).
Proof.
  intros [f e d x t]. unfold readUploadedFile, fault. simpl.
  destruct x as [|[|] x]; simpl; (split; [done | split; simpl; [done | lia]]).
Qed.

Lemma effect_read_uploads (files : list bytes) : effect eq (read_uploads files).
Proof.
  induction files as [|file r IH]; simpl; [apply effect_ret; apply _|].
  apply effect_bind; [apply _ | apply effect_readUploadedFile |]. intros d.
  apply effect_bind; [apply _ | done |]. intros ds. apply effect_ret; apply _.
Qed.

Lemma releases_of_effect (T : path) {A} (m : M A) : effect eq m → releases T m.
Proof. intros Hm w _. by apply keeps_settled, keeps_of_effect. Qed.

Section HandlersReleased.

Context {lib : PdfLib}.
Variable cfg : Config.

Abbreviation T := (TempDir (PDF cfg)).

Lemma releases_ExtractMetadata (pdfData : bytes) : releases T (ExtractMetadata pdfData).
Proof.
  unfold ExtractMetadata. cbv zeta.
  do 2 (apply releases_exec_emit || apply releases_defer_emit).
  apply releases_exec_emit, releases_of_effect.
  apply effect_try; [apply _ | apply effect_ReadContext; apply _ |]. intros ctx2.
  apply effect_exec_emit, effect_ret; apply _.
Qed.

Lemma serve_settled {A} (call : M A) (msg public : string) (k : A → Body) (w : World) :
  releases T call → fresh_scratch T w →
  settled T (fs w) (fs (snd (serve call msg public k w))).
Proof.
  intros Hcall Hw. unfold serve. destruct (Hcall w Hw) as [Hs _].
  destruct (call w) as [[a|e|v] w1]; simpl in *; done.
Qed.

Lemma with_pdf_settled (c : Request) (k : bytes → World → Response * World) (w : World) :
  (∀ pdfData w1, fresh_scratch T w1 → settled T (fs w1) (fs (snd (k pdfData w1)))) →
  fresh_scratch T w →
  settled T (fs w) (fs (snd (with_pdf c k w))).
Proof.
  intros Hk Hw. unfold with_pdf.
  destruct (FormFile c "pdf") as [file|]; [|apply settled_refl].
  destruct (effect_readUploadedFile file w) as [Hfs Hadv].
  destruct (readUploadedFile file w) as [[pdfData|e|v] w1]; simpl in *.
  - rewrite Hfs. apply Hk. by apply (fresh_scratch_later T w).
  - rewrite <- Hfs. apply settled_refl.
  - rewrite <- Hfs. apply settled_refl.
Qed.

Lemma h_MergePDFs_settled (c : Request) (w : World) :
  fresh_scratch T w → settled T (fs w) (fs (snd (h_MergePDFs cfg c w))).
Proof.
  intros Hw. unfold h_MergePDFs.
  destruct (form_files c "pdfs") as [files|]; [|apply settled_refl].
  case_bool_decide; [apply settled_refl|].
  destruct (effect_read_uploads files w) as [Hfs Hadv].
  destruct (read_uploads files w) as [[pdfs|e|v] w1]; simpl in *.
  - rewrite Hfs. apply serve_settled; [apply releases_MergePDFs|].
    by apply (fresh_scratch_later T w).
  - rewrite <- Hfs. apply settled_refl.
  - rewrite <- Hfs. apply settled_refl.
Qed.

Lemma h_ConvertToImage_settled (c : Request) (w : World) :
  fresh_scratch T w → settled T (fs w) (fs (snd (h_ConvertToImage cfg c w))).
Proof.
  intros Hw. unfold h_ConvertToImage. apply with_pdf_settled; [|done].
  intros pdfData w1 Hw1. destruct (ValidateRequest cfg pdfData); [apply settled_refl|].
  apply serve_settled; [apply releases_ConvertToImage | done].
Qed.

End HandlersReleased.

(** X6: whatever route of the API is hit and whatever the request, the
    handler returns with the temp directory holding what it held before
    (at most the directories leading to it are new), provided the random
    name parts still to be drawn are fresh.  This covers the paths on which
    the upload is missing or unreadable and those on which the service
    fails. *)
Theorem router_releases `{lib : PdfLib} (cfg : Config) (target : string) (h : Handler)
    (c : Request) (w : World) :
  router cfg target = Some h →
  fresh_scratch (TempDir (PDF cfg)) w →
  restored (TempDir (PDF cfg)) w (snd (h c w)).
Proof.
  intros Hroute Hw.
  assert (settled (TempDir (PDF cfg)) (fs w) (fs (snd (h c w)))) as Hs;
    [|split; [by apply settled_same_contents | done]].
  unfold router in Hroute.
  repeat (destruct (String.eqb target _);
          [injection Hroute as <-;
           first [ by apply h_ConvertToImage_settled
                 | by apply h_MergePDFs_settled
                 | apply settled_refl
                 | apply with_pdf_settled; [|done]; intros pdfData w1 Hw1;
                   apply serve_settled; [|done];
                   first [ apply releases_SplitPDF | apply releases_ExtractText
                         | apply releases_ExtractMetadata | apply releases_CompressPDF
                         | apply releases_AddWatermark ] ]
          |]).
  done.
Qed.

Lemma router_releases_witness :
  fresh_scratch (TempDir (PDF default_config)) (world_of home_fs []) ∧
  status (fst (h_SplitPDF default_config
                 {| multipart := Some [("pdf"%string, [B "%PDFab"])]; query := [] |}
                 (world_of home_fs []))) = 200 ∧
  restored (TempDir (PDF default_config)) (world_of home_fs [])
    (snd (h_SplitPDF default_config
            {| multipart := Some [("pdf"%string, [B "%PDFab"])]; query := [] |}
            (world_of home_fs []))).
Proof.
  split; [apply home_fs_fresh|]. split; [by vm_compute|].
  exact (router_releases (lib := mini) default_config "/api/v1/pdf/split"
           (h_SplitPDF default_config)
           {| multipart := Some [("pdf"%string, [B "%PDFab"])]; query := [] |}
           (world_of home_fs []) eq_refl (home_fs_fresh _)).
Defined.

(** ** What the operations return when the machine does not fail *)

Section Runs.

Context {lib : PdfLib}.
Variable cfg : Config.

Abbreviation T := (TempDir (PDF cfg)).

(** The first step of the single-file operations: without faults and with
    fresh names, the temp file is created under the first token drawn. *)
Lemma temp_input_ok (data : bytes) (pattern pre suf : string) (w : World) :
  prefixAndSuffix pattern = (pre, suf) → has_sep pattern = false →
  faults w = [] → is_Some (mkdir_from (fs w) [] T) → fresh_scratch T w →
  ∃ w1 f1,
    createTempFile cfg data pattern w = (Ok (T ++ [pre +:+ entropy w (drawn w) +:+ suf]), w1) ∧
    settled T (fs w) f1 ∧ dirs_ready f1 T ∧
    fs w1 = <[T ++ [pre +:+ entropy w (drawn w) +:+ suf] := File data]> f1 ∧
    faults w1 = [] ∧ entropy w1 = entropy w ∧ drawn w1 = S (drawn w).
Proof.
  intros Hps Hsep Hf [f1 Hm] Hfresh.
  destruct (mkdir_settles _ _ _ Hm) as [Hset Hready].
  destruct (createTempFile_ok cfg data pattern pre suf w f1 Hps Hsep Hf Hm)
    as (w1 & E1 & Hfs1 & Hf1 & He1 & Hd1).
  { rewrite (settled_same_contents _ _ _ Hset) by apply below_child.
    apply (Hfresh (drawn w) pre suf []). done. }
  exists w1, f1. done.
Qed.

Lemma output_free (w w1 : World) (f1 : gmap path node) (data : bytes)
    (name pre : string) :
  fresh_scratch T w → settled T (fs w) f1 →
  fs w1 = <[T ++ [name] := File data]> f1 →
  entropy w1 = entropy w → (drawn w <= drawn w1)%nat →
  name ≠ pre +:+ entropy w1 (drawn w1) +:+ ".pdf" →
  fs w1 !! (T ++ [pre +:+ entropy w1 (drawn w1) +:+ ".pdf"]) = None.
Proof.
  intros Hfresh Hset Hfs He Hd Hne.
  apply (fresh_after_temp T w w1 f1 (T ++ [name]) data name pre ".pdf" []); auto.
  congruence.
Qed.

Lemma api_OptimizeFile_run (dir : path) (name : string) (inFile : path) (data : bytes)
    (w : World) :
  faults w = [] → is_dir (fs w) dir = true → fs w !! (dir ++ [name]) = None →
  fs w !! inFile = Some (File data) →
  ∃ w', faults w' = [] ∧
    match pdf_Optimize data with
    | Some out => api_OptimizeFile inFile (dir ++ [name]) w = (Ok tt, w') ∧
                  fs w' !! (dir ++ [name]) = Some (File out)
    | None => api_OptimizeFile inFile (dir ++ [name]) w = (Fail (Errno "pdfcpu: optimize"), w')
    end.
Proof.
  intros Hf Hd Hnone Hin. unfold api_OptimizeFile.
  rewrite (bind_ok _ _ _ _ _ (os_ReadFile_ok inFile data w Hf Hin)).
  rewrite (bind_ok _ _ _ _ _ (os_Create_ok dir name w Hf Hd Hnone)).
  set (w1 := emit _ _). destruct (pdf_Optimize data) as [out|].
  - rewrite (io_Copy_ok _ _ w1 Hf). eexists. split; [|split; [reflexivity|]]; simpl; [done|].
    apply lookup_insert_eq.
  - exists w1. done.
Qed.

Lemma api_AddWatermarksFile_run (dir : path) (name : string) (inFile : path) (data : bytes)
    (wm : Watermark) (w : World) :
  faults w = [] → is_dir (fs w) dir = true → fs w !! (dir ++ [name]) = None →
  fs w !! inFile = Some (File data) →
  ∃ w', faults w' = [] ∧
    match pdf_AddWatermarks wm data with
    | Some out => api_AddWatermarksFile inFile (dir ++ [name]) wm w = (Ok tt, w') ∧
                  fs w' !! (dir ++ [name]) = Some (File out)
    | None => api_AddWatermarksFile inFile (dir ++ [name]) wm w
                = (Fail (Errno "pdfcpu: watermark"), w')
    end.
Proof.
  intros Hf Hd Hnone Hin. unfold api_AddWatermarksFile.
  rewrite (bind_ok _ _ _ _ _ (os_ReadFile_ok inFile data w Hf Hin)).
  rewrite (bind_ok _ _ _ _ _ (os_Create_ok dir name w Hf Hd Hnone)).
  set (w1 := emit _ _). destruct (pdf_AddWatermarks wm data) as [out|].
  - rewrite (io_Copy_ok _ _ w1 Hf). eexists. split; [|split; [reflexivity|]]; simpl; [done|].
    apply lookup_insert_eq.
  - exists w1. done.
Qed.

End Runs.

(** X7: on a machine that does not fail and with fresh names,
    [CompressPDF] returns exactly what pdfcpu's optimizer makes of the
    request's bytes: the copy through the temp file and the read back of
    the output file lose nothing.  When the optimizer rejects the document
    the error is [failed to compress PDF] around the library's error. *)
Theorem CompressPDF_result `{lib : PdfLib} (cfg : Config) (req : CompressRequest) (w : World) :
  faults w = [] →
  is_Some (mkdir_from (fs w) [] (TempDir (PDF cfg))) →
  fresh_scratch (TempDir (PDF cfg)) w →
  fst (CompressPDF cfg req w) =
    match pdf_Optimize (cp_PDFData req) with
    | Some out => Ok out
    | None => Fail (Wrap "failed to compress PDF" (Errno "pdfcpu: optimize"))
    end.
Proof.
  intros Hf Hm Hfresh. unfold CompressPDF. unfold exec. rewrite fst_defer.
  set (w0 := emit _ (emit _ (emit _ w))).
  destruct (temp_input_ok cfg (cp_PDFData req) "compress-input-*.pdf"
              "compress-input-" ".pdf" w0)
    as (w1 & f1 & E1 & Hset & Hready & Hfs1 & Hf1 & He1 & Hd1); [by vm_compute | done..|].
  rewrite (try_ok _ _ _ _ _ _ E1), fst_defer.
  unfold bind at 1. unfold uuid_New, draw. cbn iota beta. rewrite fst_defer.
  set (w2 := mkWorld _ _ _ _ _).
  destruct (api_OptimizeFile_run (TempDir (PDF cfg))
              ("compress-output-" +:+ entropy w1 (drawn w1) +:+ ".pdf")
              (TempDir (PDF cfg) ++ ["compress-input-" +:+ entropy w0 (drawn w0) +:+ ".pdf"])
              (cp_PDFData req) w2) as (w3 & Hf3 & Hrun); try done.
  { apply is_dir_ready. simpl. rewrite Hfs1. by apply dirs_ready_insert. }
  { simpl. eapply (output_free cfg w0 w1); eauto; try (simpl in *; lia).
    all: cbv [String.append]; intros [=]. }
  { simpl. rewrite Hfs1. apply lookup_insert_eq. }
  destruct (pdf_Optimize (cp_PDFData req)) as [out|].
  - destruct Hrun as [E3 Hout]. rewrite (try_ok _ _ _ _ _ _ E3).
    rewrite (try_ok _ _ _ _ _ _ (os_ReadFile_ok _ out w3 Hf3 Hout)). reflexivity.
  - unfold try at 1. rewrite Hrun. reflexivity.
Qed.

Lemma CompressPDF_result_witness :
  fst (CompressPDF default_config
         {| cp_PDFData := B "%PDFabc"; cp_CompressionLevel := 2 |} (world_of home_fs []))
    = Ok (B "%PDFabc").
Proof.
  exact (CompressPDF_result (lib := mini) default_config
           {| cp_PDFData := B "%PDFabc"; cp_CompressionLevel := 2 |} (world_of home_fs [])
           eq_refl (ex_intro _ _ eq_refl) (home_fs_fresh [])).
Defined.

(** X8: on a machine that does not fail and with fresh names,
    [AddWatermark] returns what pdfcpu makes of the request's bytes and of
    the watermark parsed from the text alone.  A text that pdfcpu cannot
    parse gives [failed to parse watermark], a document it rejects gives
    [failed to add watermark]. *)
Theorem AddWatermark_result `{lib : PdfLib} (cfg : Config) (req : WatermarkRequest) (w : World) :
  faults w = [] →
  is_Some (mkdir_from (fs w) [] (TempDir (PDF cfg))) →
  fresh_scratch (TempDir (PDF cfg)) w →
  fst (AddWatermark cfg req w) =
    match pdf_ParseTextWatermarkDetails (WatermarkText req) with
    | None => Fail (Wrap "failed to parse watermark" (Errno "pdfcpu: watermark details"))
    | Some wm =>
        match pdf_AddWatermarks wm (wm_PDFData req) with
        | Some out => Ok out
        | None => Fail (Wrap "failed to add watermark" (Errno "pdfcpu: watermark"))
        end
    end.
Proof.
  intros Hf Hm Hfresh. unfold AddWatermark. unfold exec. rewrite fst_defer.
  set (w0 := emit _ (emit _ w)).
  destruct (temp_input_ok cfg (wm_PDFData req) "watermark-input-*.pdf"
              "watermark-input-" ".pdf" w0)
    as (w1 & f1 & E1 & Hset & Hready & Hfs1 & Hf1 & He1 & Hd1); [by vm_compute | done..|].
  rewrite (try_ok _ _ _ _ _ _ E1), fst_defer.
  unfold bind at 1. unfold uuid_New, draw. cbn iota beta. rewrite fst_defer.
  set (w2 := mkWorld _ _ _ _ _).
  unfold try at 1, ParseTextWatermarkDetails.
  destruct (pdf_ParseTextWatermarkDetails (WatermarkText req)) as [wm|]; [|reflexivity].
  unfold ret.
  destruct (api_AddWatermarksFile_run (TempDir (PDF cfg))
              ("watermark-output-" +:+ entropy w1 (drawn w1) +:+ ".pdf")
              (TempDir (PDF cfg) ++ ["watermark-input-" +:+ entropy w0 (drawn w0) +:+ ".pdf"])
              (wm_PDFData req) wm w2) as (w3 & Hf3 & Hrun); try done.
  { apply is_dir_ready. simpl. rewrite Hfs1. by apply dirs_ready_insert. }
  { simpl. eapply (output_free cfg w0 w1); eauto; try (simpl in *; lia).
    all: cbv [String.append]; intros [=]. }
  { simpl. rewrite Hfs1. apply lookup_insert_eq. }
  destruct (pdf_AddWatermarks wm (wm_PDFData req)) as [out|].
  - destruct Hrun as [E3 Hout]. rewrite (try_ok _ _ _ _ _ _ E3).
    rewrite (try_ok _ _ _ _ _ _ (os_ReadFile_ok _ out w3 Hf3 Hout)). reflexivity.
  - unfold try at 1. rewrite Hrun. reflexivity.
Qed.

Lemma AddWatermark_result_witness :
  fst (AddWatermark default_config
         {| wm_PDFData := B "%PDFabc"; WatermarkText := "DRAFT"; Opacity := (3, 10);
            Rotation := 45; FontSize := 48 |} (world_of home_fs []))
    = Ok (B "%PDFabc").
Proof.
  exact (AddWatermark_result (lib := mini) default_config
           {| wm_PDFData := B "%PDFabc"; WatermarkText := "DRAFT"; Opacity := (3, 10);
              Rotation := 45; FontSize := 48 |} (world_of home_fs [])
           eq_refl (ex_intro _ _ eq_refl) (home_fs_fresh [])).
Defined.

Lemma api_MergeCreateFile_fail `{lib : PdfLib} (dir : path) (name : string)
    (p0 p1 : path) (A B : bytes) (w : World) :
  faults w = [] → is_dir (fs w) dir = true → fs w !! (dir ++ [name]) = None →
  p0 ≠ dir ++ [name] → p1 ≠ dir ++ [name] →
  fs w !! p0 = Some (File A) → fs w !! p1 = Some (File B) →
  pdf_Merge [A; B] = None →
  ∃ w', api_MergeCreateFile [p0; p1] (dir ++ [name]) w = (Fail (Errno "pdfcpu: merge"), w').
Proof.
  intros Hf Hd Hnone Hp0 Hp1 HA HB Hmerge. unfold api_MergeCreateFile.
  rewrite (bind_ok _ _ _ _ _ (os_Create_ok dir name w Hf Hd Hnone)).
  set (w1 := emit _ _).
  assert (read_all [p0; p1] w1 = (Ok [A; B], w1)) as Hread.
  { simpl.
    rewrite (bind_ok _ _ _ _ _ (os_ReadFile_ok p0 A w1 Hf ltac:(simpl; by rewrite lookup_insert_ne))).
    unfold bind.
    rewrite (os_ReadFile_ok p1 B w1 Hf ltac:(simpl; by rewrite lookup_insert_ne)).
    done. }
  rewrite (bind_ok _ _ _ _ _ Hread), Hmerge. by eexists.
Qed.

Lemma MergePDFs_two_run `{lib : PdfLib} (cfg : Config) (A B : bytes) (o : string) (w : World) :
  faults w = [] →
  is_Some (mkdir_from (fs w) [] (TempDir (PDF cfg))) →
  fresh_scratch (TempDir (PDF cfg)) w →
  fst (MergePDFs cfg {| PDFs := [A; B]; OutputName := o |} w) =
    match pdf_Merge [A; B] with
    | Some out => Ok out
    | None => Fail (Wrap "failed to merge PDFs" (Errno "pdfcpu: merge"))
    end.
Proof.
  intros Hf Hm Hfresh. unfold MergePDFs. unfold exec. rewrite fst_defer.
  rewrite bool_decide_eq_false_2 by (simpl; lia).
  set (w0 := emit _ (emit _ (emit _ w))).
  cbn [merge_inputs PDFs].
  destruct (temp_input_ok cfg A ("merge-input-" +:+ Itoa 0 +:+ "-*.pdf")
              "merge-input-0-" ".pdf" w0)
    as (w1 & f1 & E1 & Hset & Hready & Hfs1 & Hf1 & He1 & Hd1); [by vm_compute | done..|].
  rewrite (try_ok _ _ _ _ _ _ E1), fst_defer.
  simpl in Hfs1, He1, Hd1.
  assert (dirs_ready (fs w1) (TempDir (PDF cfg))) as Hready1.
  { rewrite Hfs1. by apply dirs_ready_insert. }
  destruct (createTempFile_ok cfg B ("merge-input-" +:+ Itoa (0 + 1) +:+ "-*.pdf")
              "merge-input-1-" ".pdf" w1 (fs w1))
    as (w2 & E2 & Hfs2 & Hf2 & He2 & Hd2); [by vm_compute | by vm_compute | done | | |].
  { apply mkdir_from_id. apply Hready1. }
  { rewrite Hfs1, lookup_insert_ne.
    - rewrite (settled_same_contents _ _ _ Hset) by apply below_child.
      rewrite He1. apply (Hfresh (drawn w1) "merge-input-1-" ".pdf" []). lia.
    - intros Heq. apply app_inv_head in Heq. revert Heq.
      cbv [String.append]. intros [=]. }
  rewrite (try_ok _ _ _ _ _ _ E2), fst_defer.
  assert (dirs_ready (fs w2) (TempDir (PDF cfg))) as Hready2.
  { rewrite Hfs2. by apply dirs_ready_insert. }
  unfold bind at 1. unfold uuid_New, draw. cbn iota beta. rewrite fst_defer.
  set (w3 := mkWorld _ _ _ _ _).
  assert (is_dir (fs w3) (TempDir (PDF cfg)) = true) as Hdir by (by apply is_dir_ready).
  assert (fs w3 !! (TempDir (PDF cfg) ++
                      ["merge-output-" +:+ entropy w2 (drawn w2) +:+ ".pdf"]) = None) as Hout.
  { simpl. rewrite Hfs2, Hfs1, !lookup_insert_ne.
    - rewrite (settled_same_contents _ _ _ Hset) by apply below_child.
      rewrite He2, He1. apply (Hfresh (drawn w2) "merge-output-" ".pdf" []). lia.
    - intros Heq. apply app_inv_head in Heq. revert Heq.
      cbv [String.append]. intros [=].
    - intros Heq. apply app_inv_head in Heq. revert Heq.
      cbv [String.append]. intros [=]. }
  assert (fs w3 !! (TempDir (PDF cfg) ++
                      ["merge-input-0-" +:+ entropy w0 (drawn w0) +:+ ".pdf"])
            = Some (File A)) as HA.
  { simpl. rewrite Hfs2, lookup_insert_ne, Hfs1, lookup_insert_eq; [done|].
    intros Heq. apply app_inv_head in Heq. revert Heq.
    cbv [String.append]. intros [=]. }
  assert (fs w3 !! (TempDir (PDF cfg) ++
                      ["merge-input-1-" +:+ entropy w1 (drawn w1) +:+ ".pdf"])
            = Some (File B)) as HB.
  { simpl. rewrite Hfs2, lookup_insert_eq. done. }
  assert (TempDir (PDF cfg) ++ ["merge-input-0-" +:+ entropy w0 (drawn w0) +:+ ".pdf"]
            ≠ TempDir (PDF cfg) ++ ["merge-output-" +:+ entropy w2 (drawn w2) +:+ ".pdf"])
    as Hne0.
  { intros Heq. apply app_inv_head in Heq. revert Heq. cbv [String.append]. intros [=]. }
  assert (TempDir (PDF cfg) ++ ["merge-input-1-" +:+ entropy w1 (drawn w1) +:+ ".pdf"]
            ≠ TempDir (PDF cfg) ++ ["merge-output-" +:+ entropy w2 (drawn w2) +:+ ".pdf"])
    as Hne1.
  { intros Heq. apply app_inv_head in Heq. revert Heq. cbv [String.append]. intros [=]. }
  destruct (pdf_Merge [A; B]) as [out|] eqn:Hmerge.
  - destruct (api_MergeCreateFile_ok _ _ _ _ A B out w3 Hf2 Hdir Hout Hne0 Hne1 HA HB Hmerge)
      as (w4 & E4 & Hf4 & Hres).
    rewrite (try_ok _ _ _ _ _ _ E4).
    rewrite (try_ok _ _ _ _ _ _ (os_ReadFile_ok _ out w4 Hf4 Hres)). reflexivity.
  - destruct (api_MergeCreateFile_fail _ _ _ _ A B w3 Hf2 Hdir Hout Hne0 Hne1 HA HB Hmerge)
      as (w4 & E4).
    unfold try at 1. rewrite E4. reflexivity.
Qed.

Lemma read_uploads_ok (files : list bytes) (w : World) :
  faults w = [] → read_uploads files w = (Ok files, w).
Proof.
  intros Hf. induction files as [|file r IH]; simpl; [done|].
  unfold bind, readUploadedFile. rewrite (fault_none w Hf), IH. done.
Qed.

(** X9: the merge endpoint end to end, for a form with two files [A] and
    [B] on a machine that does not fail and with fresh names: the answer
    is 200 with the bytes that pdfcpu's merge makes of [A] and [B] in the
    order of upload, as [application/pdf]; when pdfcpu rejects them the
    answer is 500 [Merge failed], never a 400. *)
Theorem h_MergePDFs_two `{lib : PdfLib} (cfg : Config) (c : Request) (A B : bytes) (w : World) :
  form_files c "pdfs" = Some [A; B] →
  faults w = [] →
  is_Some (mkdir_from (fs w) [] (TempDir (PDF cfg))) →
  fresh_scratch (TempDir (PDF cfg)) w →
  fst (h_MergePDFs cfg c w) =
    match pdf_Merge [A; B] with
    | Some out => {| status := 200; body := Data "application/pdf" out |}
    | None => {| status := 500; body := JSON [("error"%string, JStr "Merge failed")] |}
    end.
Proof.
  intros Hform Hf Hm Hfresh. unfold h_MergePDFs. rewrite Hform.
  rewrite bool_decide_eq_false_2 by (simpl; lia).
  rewrite (read_uploads_ok _ w Hf). unfold serve.
  pose proof (MergePDFs_two_run cfg A B "" w Hf Hm Hfresh) as Hrun.
  destruct (MergePDFs cfg _ w) as [r w1]. simpl in Hrun. subst r.
  by destruct (pdf_Merge [A; B]).
Qed.

Lemma h_MergePDFs_two_witness :
  fst (h_MergePDFs default_config
         {| multipart := Some [("pdfs"%string, [B "%PDFabc"; B "%PDFde"])]; query := [] |}
         (world_of home_fs []))
    = {| status := 200; body := Data "application/pdf" (B "%PDFabcde") |}.
Proof.
  exact (h_MergePDFs_two (lib := mini) default_config
           {| multipart := Some [("pdfs"%string, [B "%PDFabc"; B "%PDFde"])]; query := [] |}
           (B "%PDFabc") (B "%PDFde") (world_of home_fs [])
           eq_refl eq_refl (ex_intro _ _ eq_refl) (home_fs_fresh [])).
Defined.



(** X11: the OCR flag of a text extraction reaches the span attribute and
    the log and nothing else: two requests with the same document return
    the same result and leave the same file system and oracles whether
    OCR is asked for or not, and the handler answers alike whatever the
    [ocr] query says. *)
Theorem ExtractText_ignores_UseOCR `{lib : PdfLib} (cfg : Config)
    (data : bytes) (o1 o2 : bool) (w : World) :
  (fst (ExtractText cfg {| et_PDFData := data; UseOCR := o1 |} w)
     = fst (ExtractText cfg {| et_PDFData := data; UseOCR := o2 |} w) ∧
   same_machine (snd (ExtractText cfg {| et_PDFData := data; UseOCR := o1 |} w))
                (snd (ExtractText cfg {| et_PDFData := data; UseOCR := o2 |} w))) ∧
  (∀ form q1 q2,
     fst (h_ExtractText cfg {| multipart := form; query := q1 |} w)
       = fst (h_ExtractText cfg {| multipart := form; query := q2 |} w)).
Proof.
  assert (∀ d a b, related (ExtractText cfg {| et_PDFData := d; UseOCR := a |})
                           (ExtractText cfg {| et_PDFData := d; UseOCR := b |})) as Hrel.
  { intros d a b. unfold ExtractText, ReadContext. simpl.
    apply related_exec; [apply related_emit|].
    apply related_defer; [apply related_emit|].
    do 2 (apply related_exec; [apply related_emit|]).
    apply related_try; [apply related_createTempFile|]. intros p.
    apply related_defer; [apply related_os_Remove|].
    apply related_try.
    - destruct (pdf_ReadContext d); [apply related_ret | apply related_raise].
    - intros ctx. apply related_bind; [apply related_make_slice|]. intros pages.
      apply related_exec; [apply related_emit | apply related_ret]. }
  split; [apply Hrel, same_machine_refl|].
  intros form q1 q2. unfold h_ExtractText, with_pdf, FormFile, form_files. simpl.
  destruct form as [form|]; [|done].
  destruct (default [] (lookup_key "pdf" form)) as [|file ?]; [done|].
  destruct (readUploadedFile file w) as [[pdfData|e|v] w1]; [|done..].
  unfold serve.
  destruct (Hrel pdfData
              (String.eqb (DefaultQuery {| multipart := Some form; query := q1 |} "ocr" "false") "true")
              (String.eqb (DefaultQuery {| multipart := Some form; query := q2 |} "ocr" "false") "true")
              w1 w1 (same_machine_refl w1)) as [Hr _].
  destruct (ExtractText cfg _ w1) as [res1 v1]. destruct (ExtractText cfg _ w1) as [res2 v2].
  simpl in Hr. subst res2. destruct res1; reflexivity.
Qed.

(** ** The trace of an operation *)

Section Emits.

Variable P : Event → Prop.

Lemma emits_ret {A} (a : A) : emits P (ret a).
Proof. intros w. exists []. by rewrite app_nil_r. Qed.

Lemma emits_raise {A} (e : error) : emits P (@raise A e).
Proof. intros w. exists []. by rewrite app_nil_r. Qed.

Lemma emits_make_slice {T} (size n : Z) : emits P (@make_slice T size n).
Proof.
  intros w. unfold make_slice. exists []. rewrite app_nil_r. by case_bool_decide.
Qed.

Lemma emits_bind {A B} (m : M A) (k : A → M B) :
  emits P m → (∀ a, emits P (k a)) → emits P (bind m k).
Proof.
  intros Hm Hk w. unfold bind. destruct (Hm w) as (t1 & E1 & F1).
  destruct (m w) as [[a|e|v] w1]; simpl in *; [|by exists t1..].
  destruct (Hk a w1) as (t2 & E2 & F2). exists (t1 ++ t2).
  rewrite E2, E1, app_assoc. split; [done | by apply Forall_app].
Qed.

Lemma emits_try {A B} (m : M A) (msg : string) (k : A → M B) :
  emits P m → (∀ a, emits P (k a)) → emits P (try m msg k).
Proof.
  intros Hm Hk w. unfold try. destruct (Hm w) as (t1 & E1 & F1).
  destruct (m w) as [[a|e|v] w1]; simpl in *; [|by exists t1..].
  destruct (Hk a w1) as (t2 & E2 & F2). exists (t1 ++ t2).
  rewrite E2, E1, app_assoc. split; [done | by apply Forall_app].
Qed.

Lemma emits_defer {A} (c : World → World) (m : M A) :
  emits_step P c → emits P m → emits P (defer c m).
Proof.
  intros Hc Hm w. unfold defer. destruct (Hm w) as (t1 & E1 & F1).
  destruct (m w) as [r w1]. simpl in *.
  destruct (Hc w1) as (t2 & E2 & F2). exists (t1 ++ t2).
  rewrite E2, E1, app_assoc. split; [done | by apply Forall_app].
Qed.

Lemma emits_exec {A} (s : World → World) (m : M A) :
  emits_step P s → emits P m → emits P (exec s m).
Proof.
  intros Hs Hm w. unfold exec. destruct (Hs w) as (t1 & E1 & F1).
  destruct (Hm (s w)) as (t2 & E2 & F2). exists (t1 ++ t2).
  rewrite E2, E1, app_assoc. split; [done | by apply Forall_app].
Qed.

Lemma emits_emit (e : Event) : P e → emits_step P (emit e).
Proof. intros He w. exists [e]. split; [done | by constructor]. Qed.

Lemma emits_os_Remove (p : path) : P (FsRemove p) → emits_step P (os_Remove p).
Proof.
  intros He w. unfold os_Remove.
  repeat case_match; (by exists [FsRemove p]; split; [|constructor])
                     || (exists []; by rewrite app_nil_r).
Qed.

Lemma emits_os_RemoveAll (p : path) : P (FsRemoveAll p) → emits_step P (os_RemoveAll p).
Proof. intros He w. exists [FsRemoveAll p]. split; [done | by constructor]. Qed.

Lemma emits_os_MkdirAll (p : path) : P (FsMkdirAll p) → emits P (os_MkdirAll p).
Proof.
  intros He [f e d x t]. unfold os_MkdirAll, fault. simpl.
  destruct x as [|[|] x]; simpl; try (exists []; by rewrite app_nil_r).
  all: destruct (mkdir_from f [] p); simpl;
    [by exists [FsMkdirAll p]; split; [|constructor] | exists []; by rewrite app_nil_r].
Qed.

Lemma emits_io_Copy (p : path) (data : bytes) : emits P (io_Copy p data).
Proof.
  intros [f e d x t]. unfold io_Copy, fault. simpl.
  destruct x as [|[|] x]; simpl; exists []; by rewrite app_nil_r.
Qed.

Lemma emits_os_ReadFile (p : path) : emits P (os_ReadFile p).
Proof.
  intros [f e d x t]. unfold os_ReadFile, fault. simpl.
  destruct x as [|[|] x]; simpl; try (exists []; by rewrite app_nil_r).
  all: destruct (f !! p) as [[|]|]; simpl; exists []; by rewrite app_nil_r.
Qed.

Lemma emits_os_Create (p : path) : P (FsCreate p) → emits P (os_Create p).
Proof.
  intros He [f e d x t]. unfold os_Create, fault. simpl.
  destruct p as [|c r]; [destruct x as [|[|] x]; simpl; exists []; by rewrite app_nil_r|].
  revert He. generalize (removelast (c :: r)). generalize (c :: r). intros q parent He.
  destruct x as [|[|] x]; simpl; try (exists []; by rewrite app_nil_r).
  all: destruct (is_dir f parent); simpl; try (exists []; by rewrite app_nil_r).
  all: destruct (f !! q) as [[|]|]; simpl;
    (by exists [FsCreate q]; split; [|constructor]) || (exists []; by rewrite app_nil_r).
Qed.

Lemma emits_filepath_Glob (pattern : path) : emits P (filepath_Glob pattern).
Proof.
  intros w. exists []. rewrite app_nil_r. unfold filepath_Glob.
  by destruct (globWithLimit (fs w) (rev pattern) 0).
Qed.

Lemma emits_uuid_New : emits P uuid_New.
Proof. intros w. exists []. by rewrite app_nil_r. Qed.

Lemma emits_read_all (ps : list path) : emits P (read_all ps).
Proof.
  induction ps as [|p r IH]; simpl; [apply emits_ret|].
  apply emits_bind; [apply emits_os_ReadFile|]. intros d.
  apply emits_bind; [done|]. intros ds. apply emits_ret.
Qed.

Lemma emits_read_split (files : list path) : ∀ acc, emits P (read_split files acc).
Proof.
  induction files as [|p r IH]; intros acc; simpl; [apply emits_ret|].
  apply emits_try; [apply emits_os_ReadFile|]. intros d. apply IH.
Qed.

Lemma emits_write_spans (outDir : path) (fileName : string) (spans : list (Z * Z * bytes)) :
  (∀ name, P (FsCreate (outDir ++ [name]))) →
  emits P (write_spans outDir fileName spans).
Proof.
  intros He. induction spans as [|[[from thru] doc] r IH]; simpl; [apply emits_ret|].
  apply emits_bind; [by apply emits_os_Create|]. intros _.
  apply emits_bind; [apply emits_io_Copy|]. intros _. apply IH.
Qed.

Lemma CreateTemp_try_trace (fuel : nat) (dir : path) (pre suf : string) :
  (∀ name, P (FsCreate (dir ++ [name]))) →
  ∀ w, (∃ t, trace (snd (CreateTemp_try fuel dir pre suf w)) = trace w ++ t ∧ Forall P t) ∧
       (∀ p, fst (CreateTemp_try fuel dir pre suf w) = Ok p → ∃ name, p = dir ++ [name]).
Proof.
  intros He. induction fuel as [|k IH]; intros [f e d x t]; simpl; unfold fault; simpl.
  - destruct (f !! _) eqn:E; simpl.
    + split; [exists []; by rewrite app_nil_r | done].
    + destruct x as [|[|] x]; simpl.
      all: try (destruct (is_dir f dir); simpl).
      all: split; try (exists []; by rewrite app_nil_r); try done.
      all: try (eexists [_]; split; [reflexivity | by constructor]).
      all: intros p [= <-]; by eexists.
  - destruct (f !! _) eqn:E; simpl.
    + apply (IH (mkWorld f e (S d) x t)).
    + destruct x as [|[|] x]; simpl.
      all: try (destruct (is_dir f dir); simpl).
      all: split; try (exists []; by rewrite app_nil_r); try done.
      all: try (eexists [_]; split; [reflexivity | by constructor]).
      all: intros p [= <-]; by eexists.
Qed.

Lemma emits_temp (cfg : Config) {A} (data : bytes) (pattern msg : string) (k : path → M A) :
  P (FsMkdirAll (TempDir (PDF cfg))) →
  (∀ name, P (FsCreate (TempDir (PDF cfg) ++ [name]))) →
  (∀ name, P (FsRemove (TempDir (PDF cfg) ++ [name]))) →
  (∀ name, emits P (k (TempDir (PDF cfg) ++ [name]))) →
  emits P (try (createTempFile cfg data pattern) msg k).
Proof.
  intros Hmk Hcr Hrm Hk w. unfold try, createTempFile at 1. unfold try.
  destruct (emits_os_MkdirAll _ Hmk w) as (t0 & E0 & F0).
  destruct (os_MkdirAll _ w) as [[[]|e0|v0] w0]; simpl in *; [|by exists t0..].
  unfold os_CreateTemp. destruct (has_sep pattern); [by exists t0|].
  destruct (prefixAndSuffix pattern) as [pre suf].
  generalize (Z.to_nat 9999). intros fuel.
  destruct (CreateTemp_try_trace fuel (TempDir (PDF cfg)) pre suf Hcr w0)
    as [(t1 & E1 & F1) Hp].
  destruct (CreateTemp_try fuel _ pre suf w0) as [[p|e1|v1] w1]; simpl in *.
  2,3: exists (t0 ++ t1); rewrite E1, E0, app_assoc; (split; [done | by apply Forall_app]).
  destruct (Hp p eq_refl) as [name ->].
  destruct (emits_io_Copy (TempDir (PDF cfg) ++ [name]) data w1) as (t2 & E2 & F2).
  destruct (io_Copy _ data w1) as [[[]|e2|v2] w2]; simpl in *.
  - destruct (Hk name w2) as (t3 & E3 & F3). exists (t0 ++ t1 ++ t2 ++ t3).
    rewrite E3, E2, E1, E0, <- !app_assoc. split; [done|]. by repeat apply Forall_app_2.
  - destruct (emits_os_Remove _ (Hrm name) w2) as (t3 & E3 & F3).
    exists (t0 ++ t1 ++ t2 ++ t3).
    rewrite E3, E2, E1, E0, <- !app_assoc. split; [done|]. by repeat apply Forall_app_2.
  - exists (t0 ++ t1 ++ t2).
    rewrite E2, E1, E0, <- !app_assoc. split; [done|]. by repeat apply Forall_app_2.
Qed.

End Emits.

Ltac in_temp :=
  split; [simpl; try done; repeat apply prefix_app_r; reflexivity | done].

Section Traces.

Context {lib : PdfLib}.
Variable cfg : Config.

Abbreviation T := (TempDir (PDF cfg)).
Abbreviation P0 := (λ e : Event, in_scratch (TempDir (PDF cfg)) e ∧ not_span e).

Lemma one_span_intro {A} (name : string) (body : M A) (w : World) :
  emits P0 body →
  one_span T name w
    (snd (exec (emit (SpanStart name)) (defer (emit (SpanEnd name)) body) w)).
Proof.
  intros Hbody. unfold exec, defer.
  destruct (Hbody (emit (SpanStart name) w)) as (t & E & F).
  destruct (body _) as [r w1]. simpl in *. exists t. split; [|done].
  simpl. rewrite E, <- !app_assoc. done.
Qed.

Lemma emits_temp_scope {A} (data : bytes) (pattern msg : string) (k : path → M A) :
  (∀ name, emits P0 (k (T ++ [name]))) →
  emits P0 (try (createTempFile cfg data pattern) msg
              (λ tempFile, defer (os_Remove tempFile) (k tempFile))).
Proof.
  intros Hk. apply emits_temp; try (intros name); try in_temp.
  apply emits_defer; [apply emits_os_Remove; in_temp | apply Hk].
Qed.

Lemma emits_output {A} (name : string) (rest : M A) :
  emits P0 rest → emits P0 (defer (os_Remove (T ++ [name])) rest).
Proof. intros Hr. apply emits_defer; [apply emits_os_Remove; in_temp | done]. Qed.

Lemma emits_api_MergeCreateFile (ins : list path) (name : string) :
  emits P0 (api_MergeCreateFile ins (T ++ [name])).
Proof.
  unfold api_MergeCreateFile.
  apply emits_bind; [apply emits_os_Create; in_temp|]. intros _.
  apply emits_bind; [apply emits_read_all|]. intros docs.
  destruct (pdf_Merge docs); [apply emits_io_Copy | apply emits_raise].
Qed.

Lemma emits_api_OptimizeFile (inFile : path) (name : string) :
  emits P0 (api_OptimizeFile inFile (T ++ [name])).
Proof.
  unfold api_OptimizeFile.
  apply emits_bind; [apply emits_os_ReadFile|]. intros data.
  apply emits_bind; [apply emits_os_Create; in_temp|]. intros _.
  destruct (pdf_Optimize data); [apply emits_io_Copy | apply emits_raise].
Qed.

Lemma emits_api_AddWatermarksFile (inFile : path) (name : string) (wm : Watermark) :
  emits P0 (api_AddWatermarksFile inFile (T ++ [name]) wm).
Proof.
  unfold api_AddWatermarksFile.
  apply emits_bind; [apply emits_os_ReadFile|]. intros data.
  apply emits_bind; [apply emits_os_Create; in_temp|]. intros _.
  destruct (pdf_AddWatermarks wm data); [apply emits_io_Copy | apply emits_raise].
Qed.

Lemma emits_api_SplitFile (inFile : path) (name : string) (span : Z) :
  emits P0 (api_SplitFile inFile (T ++ [name]) span).
Proof.
  unfold api_SplitFile.
  apply emits_bind; [apply emits_os_ReadFile|]. intros data.
  destruct (pdf_Split data span); [|apply emits_raise].
  apply emits_write_spans. intros n. in_temp.
Qed.

Lemma emits_log {A} (msg : string) (kv : list (string * LogVal)) (m : M A) :
  emits P0 m → emits P0 (exec (emit (LogInfo msg kv)) m).
Proof. intros Hm. apply emits_exec; [apply emits_emit; done | done]. Qed.

Lemma emits_attr {A} (key : string) (v : LogVal) (m : M A) :
  emits P0 m → emits P0 (exec (emit (SpanAttr key v)) m).
Proof. intros Hm. apply emits_exec; [apply emits_emit; done | done]. Qed.

Lemma emits_merge_inputs {A} (pdfs : list bytes) : ∀ (i : Z) (k : list path → M A),
  (∀ l, emits P0 (k l)) → emits P0 (merge_inputs cfg i pdfs k).
Proof.
  induction pdfs as [|d r IH]; intros i k Hk; simpl; [apply Hk|].
  apply emits_temp_scope. intros name. apply IH. intros l. apply Hk.
Qed.

Lemma one_span_ConvertToImage (req : ConvertToImageRequest) (w : World) :
  one_span T "PDFService.ConvertToImage" w (snd (ConvertToImage cfg req w)).
Proof.
  apply one_span_intro. cbv zeta.
  do 2 apply emits_attr. apply emits_log.
  apply emits_temp_scope. intros name. apply emits_log, emits_ret.
Qed.

Lemma one_span_MergePDFs (req : MergeRequest) (w : World) :
  one_span T "PDFService.MergePDFs" w (snd (MergePDFs cfg req w)).
Proof.
  apply one_span_intro. apply emits_attr, emits_log.
  case_bool_decide; [apply emits_raise|].
  apply emits_merge_inputs. intros l.
  apply emits_bind; [apply emits_uuid_New|]. intros u. cbv zeta.
  apply emits_output.
  apply emits_try; [apply emits_api_MergeCreateFile|]. intros _.
  apply emits_try; [apply emits_os_ReadFile|]. intros d.
  apply emits_log, emits_ret.
Qed.

Lemma one_span_SplitPDF (req : SplitRequest) (w : World) :
  one_span T "PDFService.SplitPDF" w (snd (SplitPDF cfg req w)).
Proof.
  apply one_span_intro. apply emits_log.
  apply emits_temp_scope. intros name.
  apply emits_bind; [apply emits_uuid_New|]. intros u. cbv zeta.
  apply emits_try; [apply emits_os_MkdirAll; in_temp|]. intros _.
  apply emits_defer; [apply emits_os_RemoveAll; in_temp|].
  apply emits_try; [apply emits_api_SplitFile|]. intros _.
  apply emits_try; [apply emits_filepath_Glob|]. intros files.
  apply emits_bind; [apply emits_read_split|]. intros splitPDFs.
  apply emits_log, emits_ret.
Qed.

Lemma one_span_ExtractText (req : ExtractTextRequest) (w : World) :
  one_span T "PDFService.ExtractText" w (snd (ExtractText cfg req w)).
Proof.
  apply one_span_intro. apply emits_attr, emits_log.
  apply emits_temp_scope. intros name.
  apply emits_try.
  - unfold ReadContext. destruct (pdf_ReadContext _); [apply emits_ret | apply emits_raise].
  - intros ctx2. cbv zeta. apply emits_bind; [apply emits_make_slice|]. intros pages.
    apply emits_log, emits_ret.
Qed.

Lemma one_span_ExtractMetadata (pdfData : bytes) (w : World) :
  one_span T "PDFService.ExtractMetadata" w (snd (ExtractMetadata pdfData w)).
Proof.
  apply one_span_intro. apply emits_log.
  apply emits_try.
  - unfold ReadContext. destruct (pdf_ReadContext _); [apply emits_ret | apply emits_raise].
  - intros ctx2. cbv zeta. apply emits_log, emits_ret.
Qed.

Lemma one_span_CompressPDF (req : CompressRequest) (w : World) :
  one_span T "PDFService.CompressPDF" w (snd (CompressPDF cfg req w)).
Proof.
  apply one_span_intro. apply emits_attr, emits_log.
  apply emits_temp_scope. intros name.
  apply emits_bind; [apply emits_uuid_New|]. intros u. cbv zeta.
  apply emits_output.
  apply emits_try; [apply emits_api_OptimizeFile|]. intros _.
  apply emits_try; [apply emits_os_ReadFile|]. intros d.
  apply emits_log, emits_ret.
Qed.

Lemma one_span_AddWatermark (req : WatermarkRequest) (w : World) :
  one_span T "PDFService.AddWatermark" w (snd (AddWatermark cfg req w)).
Proof.
  apply one_span_intro. apply emits_log.
  apply emits_temp_scope. intros name.
  apply emits_bind; [apply emits_uuid_New|]. intros u. cbv zeta.
  apply emits_output.
  apply emits_try.
  { unfold ParseTextWatermarkDetails.
    destruct (pdf_ParseTextWatermarkDetails _); [apply emits_ret | apply emits_raise]. }
  intros wm.
  apply emits_try; [apply emits_api_AddWatermarksFile|]. intros _.
  apply emits_try; [apply emits_os_ReadFile|]. intros d.
  apply emits_log, emits_ret.
Qed.

End Traces.

(** X12: on every return path, each of the seven operations of the
    service appends to the trace exactly one span, opened first and closed
    last under the operation's name, and whatever lies between is no span
    event and no file-system call outside the temp directory: every
    directory or file that an operation makes or removes is the temp
    directory itself or lies below it. *)
Theorem service_trace_shape `{lib : PdfLib} (cfg : Config) (w : World) :
  (∀ req, one_span (TempDir (PDF cfg)) "PDFService.ConvertToImage" w
            (snd (ConvertToImage cfg req w))) ∧
  (∀ req, one_span (TempDir (PDF cfg)) "PDFService.MergePDFs" w
            (snd (MergePDFs cfg req w))) ∧
  (∀ req, one_span (TempDir (PDF cfg)) "PDFService.SplitPDF" w
            (snd (SplitPDF cfg req w))) ∧
  (∀ req, one_span (TempDir (PDF cfg)) "PDFService.ExtractText" w
            (snd (ExtractText cfg req w))) ∧
  (∀ pdfData, one_span (TempDir (PDF cfg)) "PDFService.ExtractMetadata" w
            (snd (ExtractMetadata pdfData w))) ∧
  (∀ req, one_span (TempDir (PDF cfg)) "PDFService.CompressPDF" w
            (snd (CompressPDF cfg req w))) ∧
  (∀ req, one_span (TempDir (PDF cfg)) "PDFService.AddWatermark" w
            (snd (AddWatermark cfg req w))).
Proof.
  split; [|split; [|split; [|split; [|split; [|split]]]]]; intros req.
  - apply one_span_ConvertToImage.
  - apply one_span_MergePDFs.
  - apply one_span_SplitPDF.
  - apply one_span_ExtractText.
  - apply one_span_ExtractMetadata.
  - apply one_span_CompressPDF.
  - apply one_span_AddWatermark.
Qed.

(** ** What the handlers answer *)

Section Answers.

Context {lib : PdfLib}.
Variable cfg : Config.

Lemma never_panics_uuid_New : never_panics uuid_New.
Proof. by intros w v. Qed.

Lemma never_panics_readUploadedFile (file : bytes) : never_panics (readUploadedFile file).
Proof. intros w v. unfold readUploadedFile. by destruct (fault w) as [[|] w1]. Qed.

Lemma never_panics_read_uploads (files : list bytes) : never_panics (read_uploads files).
Proof.
  induction files as [|file r IH]; simpl; [apply never_panics_ret|].
  apply never_panics_bind; [apply never_panics_readUploadedFile|]. intros d.
  apply never_panics_bind; [done|]. intros ds. apply never_panics_ret.
Qed.

Lemma never_panics_read_all (ps : list path) : never_panics (read_all ps).
Proof.
  induction ps as [|p r IH]; simpl; [apply never_panics_ret|].
  apply never_panics_bind; [apply never_panics_os_ReadFile|]. intros d.
  apply never_panics_bind; [done|]. intros ds. apply never_panics_ret.
Qed.

Lemma never_panics_read_split (files : list path) :
  ∀ acc, never_panics (read_split files acc).
Proof.
  induction files as [|p r IH]; intros acc; simpl; [apply never_panics_ret|].
  apply never_panics_try; [apply never_panics_os_ReadFile|]. intros d. apply IH.
Qed.

Lemma never_panics_write_spans (outDir : path) (fileName : string)
    (spans : list (Z * Z * bytes)) :
  never_panics (write_spans outDir fileName spans).
Proof.
  induction spans as [|[[from thru] doc] r IH]; simpl; [apply never_panics_ret|].
  apply never_panics_bind; [apply never_panics_os_Create|]. intros _.
  apply never_panics_bind; [apply never_panics_io_Copy|]. intros _. apply IH.
Qed.

Lemma never_panics_filepath_Glob (pattern : path) : never_panics (filepath_Glob pattern).
Proof.
  intros w v. unfold filepath_Glob. by destruct (globWithLimit (fs w) (rev pattern) 0).
Qed.

Lemma never_panics_ReadContext (data : bytes) : never_panics (ReadContext data).
Proof.
  unfold ReadContext.
  destruct (pdf_ReadContext data); [apply never_panics_ret | apply never_panics_raise].
Qed.

Lemma never_panics_merge_inputs {A} (pdfs : list bytes) : ∀ (i : Z) (k : list path → M A),
  (∀ l, never_panics (k l)) → never_panics (merge_inputs cfg i pdfs k).
Proof.
  induction pdfs as [|d r IH]; intros i k Hk; simpl; [apply Hk|].
  apply never_panics_try; [apply never_panics_createTempFile|]. intros p.
  apply never_panics_defer, IH. intros l. apply Hk.
Qed.

Lemma never_panics_ConvertToImage (req : ConvertToImageRequest) :
  never_panics (ConvertToImage cfg req).
Proof.
  unfold ConvertToImage. cbv zeta.
  apply never_panics_exec, never_panics_defer. do 3 apply never_panics_exec.
  apply never_panics_try; [apply never_panics_createTempFile|]. intros p.
  apply never_panics_defer, never_panics_exec, never_panics_ret.
Qed.

Lemma never_panics_MergePDFs (req : MergeRequest) : never_panics (MergePDFs cfg req).
Proof.
  unfold MergePDFs.
  apply never_panics_exec, never_panics_defer. do 2 apply never_panics_exec.
  case_bool_decide; [apply never_panics_raise|].
  apply never_panics_merge_inputs. intros tempFiles.
  apply never_panics_bind; [apply never_panics_uuid_New|]. intros u. cbv zeta.
  apply never_panics_defer, never_panics_try.
  - unfold api_MergeCreateFile.
    apply never_panics_bind; [apply never_panics_os_Create|]. intros _.
    apply never_panics_bind; [apply never_panics_read_all|]. intros docs.
    destruct (pdf_Merge docs); [apply never_panics_io_Copy | apply never_panics_raise].
  - intros _. apply never_panics_try; [apply never_panics_os_ReadFile|]. intros d.
    apply never_panics_exec, never_panics_ret.
Qed.

Lemma never_panics_SplitPDF (req : SplitRequest) : never_panics (SplitPDF cfg req).
Proof.
  unfold SplitPDF.
  apply never_panics_exec, never_panics_defer, never_panics_exec.
  apply never_panics_try; [apply never_panics_createTempFile|]. intros p.
  apply never_panics_defer.
  apply never_panics_bind; [apply never_panics_uuid_New|]. intros u. cbv zeta.
  apply never_panics_try; [apply never_panics_os_MkdirAll|]. intros _.
  apply never_panics_defer, never_panics_try.
  - unfold api_SplitFile.
    apply never_panics_bind; [apply never_panics_os_ReadFile|]. intros data.
    destruct (pdf_Split data 1); [apply never_panics_write_spans | apply never_panics_raise].
  - intros _. apply never_panics_try; [apply never_panics_filepath_Glob|]. intros files.
    apply never_panics_bind; [apply never_panics_read_split|]. intros splitPDFs.
    apply never_panics_exec, never_panics_ret.
Qed.

Lemma never_panics_ExtractMetadata (pdfData : bytes) :
  never_panics (ExtractMetadata pdfData).
Proof.
  unfold ExtractMetadata. cbv zeta.
  apply never_panics_exec, never_panics_defer, never_panics_exec.
  apply never_panics_try; [apply never_panics_ReadContext|]. intros ctx2.
  apply never_panics_exec, never_panics_ret.
Qed.

Lemma never_panics_CompressPDF (req : CompressRequest) : never_panics (CompressPDF cfg req).
Proof.
  unfold CompressPDF.
  apply never_panics_exec, never_panics_defer. do 2 apply never_panics_exec.
  apply never_panics_try; [apply never_panics_createTempFile|]. intros p.
  apply never_panics_defer.
  apply never_panics_bind; [apply never_panics_uuid_New|]. intros u. cbv zeta.
  apply never_panics_defer, never_panics_try.
  - unfold api_OptimizeFile.
    apply never_panics_bind; [apply never_panics_os_ReadFile|]. intros data.
    apply never_panics_bind; [apply never_panics_os_Create|]. intros _.
    destruct (pdf_Optimize data); [apply never_panics_io_Copy | apply never_panics_raise].
  - intros _. apply never_panics_try; [apply never_panics_os_ReadFile|]. intros d.
    apply never_panics_exec, never_panics_ret.
Qed.

Lemma never_panics_AddWatermark (req : WatermarkRequest) :
  never_panics (AddWatermark cfg req).
Proof.
  unfold AddWatermark.
  apply never_panics_exec, never_panics_defer, never_panics_exec.
  apply never_panics_try; [apply never_panics_createTempFile|]. intros p.
  apply never_panics_defer.
  apply never_panics_bind; [apply never_panics_uuid_New|]. intros u. cbv zeta.
  apply never_panics_defer, never_panics_try.
  - unfold ParseTextWatermarkDetails.
    destruct (pdf_ParseTextWatermarkDetails _); [apply never_panics_ret | apply never_panics_raise].
  - intros wm. apply never_panics_try.
    + unfold api_AddWatermarksFile.
      apply never_panics_bind; [apply never_panics_os_ReadFile|]. intros data.
      apply never_panics_bind; [apply never_panics_os_Create|]. intros _.
      destruct (pdf_AddWatermarks wm data); [apply never_panics_io_Copy | apply never_panics_raise].
    + intros _. apply never_panics_try; [apply never_panics_os_ReadFile|]. intros d.
      apply never_panics_exec, never_panics_ret.
Qed.

(** The one panic of the service: [ExtractText] panics only in [make],
    on a document that pdfcpu reads with a page count out of range. *)
Lemma ExtractText_panics (req : ExtractTextRequest) (w : World) (v : string) :
  fst (ExtractText cfg req w) = Panic v →
  ∃ ctx, pdf_ReadContext (et_PDFData req) = Some ctx ∧
         ¬ (0 <= PageCount ctx ∧ 24 * PageCount ctx <= 2 ^ 48).
Proof.
  unfold ExtractText, exec. rewrite fst_defer. unfold try at 1.
  match goal with |- context [createTempFile cfg ?d ?pat ?w0] =>
    pose proof (never_panics_createTempFile cfg d pat w0) as Hnp;
    destruct (createTempFile cfg d pat w0) as [[p|e|u] w1]
  end; simpl in Hnp; [|done|by destruct (Hnp u)].
  rewrite fst_defer. unfold try, ReadContext.
  destruct (pdf_ReadContext (et_PDFData req)) as [ctx|]; [|done].
  unfold ret at 1, bind, make_slice. cbn iota beta. intros Hp.
  exists ctx. split; [done|]. intros Hc.
  rewrite bool_decide_eq_true_2 in Hp by exact Hc. done.
Qed.

Lemma serve_answer {A} (call : M A) (msg public : string) (k : A → Body) (w : World) :
  never_panics call → public ∈ public_errors →
  well_answered (fst (serve call msg public k w)).
Proof.
  intros Hnp Hp. unfold serve, well_answered. specialize (Hnp w).
  destruct (call w) as [[a|e|v] w1]; simpl in *.
  - split; [by repeat constructor | done].
  - split; [by repeat constructor|]. intros _. by eexists.
  - by destruct (Hnp v).
Qed.

Lemma with_pdf_answer (c : Request) (k : bytes → World → Response * World) (w : World) :
  (∀ d w1, well_answered (fst (k d w1))) → well_answered (fst (with_pdf c k w)).
Proof.
  intros Hk. unfold with_pdf. destruct (FormFile c "pdf") as [file|]; simpl.
  - pose proof (never_panics_readUploadedFile file w) as Hnp.
    destruct (readUploadedFile file w) as [[d|e|v] w1]; simpl in *; [apply Hk| |].
    + split; [by repeat constructor|]. intros _.
      eexists. split; [reflexivity | by repeat constructor].
    + by destruct (Hnp v).
  - split; [by repeat constructor | done].
Qed.

(** The text extraction handler answers like the others, or without a
    body when its service call panicked. *)
Lemma h_ExtractText_answer (c : Request) (w : World) :
  well_answered (fst (h_ExtractText cfg c w)) ∨
  fst (h_ExtractText cfg c w) = {| status := 500; body := NoBody |} ∧
  ∃ file ctx, FormFile c "pdf" = Some file ∧ pdf_ReadContext file = Some ctx ∧
              ¬ (0 <= PageCount ctx ∧ 24 * PageCount ctx <= 2 ^ 48).
Proof.
  unfold h_ExtractText, with_pdf. destruct (FormFile c "pdf") as [file|]; simpl.
  2:{ left. split; [by repeat constructor | done]. }
  pose proof (never_panics_readUploadedFile file w) as Hnp.
  assert (∀ d w1, readUploadedFile file w = (Ok d, w1) → d = file) as Hd.
  { intros d w1. unfold readUploadedFile. destruct (fault w) as [[|] w']; congruence. }
  destruct (readUploadedFile file w) as [[d|e|v] w1]; simpl in *.
  - rewrite (Hd d w1 eq_refl). unfold serve.
    match goal with |- context [ExtractText cfg ?req w1] =>
      pose proof (ExtractText_panics req w1) as Hp;
      destruct (ExtractText cfg req w1) as [[a|e|v] w2]
    end; simpl in *.
    + left. split; [by repeat constructor | done].
    + left. split; [by repeat constructor|]. intros _.
      eexists. split; [reflexivity | by repeat constructor].
    + right. split; [done|]. destruct (Hp v eq_refl) as (ctx & Hctx & Hc). by exists file, ctx.
  - left. split; [by repeat constructor|]. intros _.
    eexists. split; [reflexivity | by repeat constructor].
  - by destruct (Hnp v).
Qed.

End Answers.

(** X13: every answer of a route has status 200, 400, 500 or 501, and a
    500 never carries the underlying error.  Its body is [{"error": m}]
    with [m] one of seven fixed messages, whatever failed inside (the
    cause goes to the log only), with one exception: the text extraction
    route answers 500 without a body when the service call panicked and
    [gin.Recovery] took over, which happens only for a document that
    pdfcpu parses with a page count that [make] rejects. *)
Theorem answers_hide_causes `{lib : PdfLib} (cfg : Config) (target : string) (h : Handler)
    (c : Request) (w : World) :
  router cfg target = Some h →
  status (fst (h c w)) ∈ [200; 400; 500; 501] ∧
  (status (fst (h c w)) = 500 →
   (∃ m, body (fst (h c w)) = JSON [("error"%string, JStr m)] ∧
         m ∈ ["Failed to read file"; "Conversion failed"; "Merge failed"; "Split failed";
              "Extraction failed"; "Compression failed"; "Watermark failed"]%string) ∨
   (body (fst (h c w)) = NoBody ∧ target = "/api/v1/pdf/extract/text"%string ∧
    ∃ file ctx, FormFile c "pdf" = Some file ∧ pdf_ReadContext file = Some ctx ∧
                ¬ (0 <= PageCount ctx ∧ 24 * PageCount ctx <= 2 ^ 48))).
Proof.
  intros Hroute.
  destruct (String.eqb_spec target "/api/v1/pdf/extract/text") as [->|Hne].
  { injection Hroute as <-.
    destruct (h_ExtractText_answer cfg c w) as [[Hst Hb]|[E Hpanic]].
    - split; [done|]. intros H500. left. by apply Hb.
    - rewrite E. simpl. split; [by repeat constructor|]. intros _. by right. }
  assert (well_answered (fst (h c w))) as [Hst Hb];
    [|split; [done|]; intros H500; left; by apply Hb].
  unfold router in Hroute.
  repeat (match type of Hroute with
          | context [String.eqb target ?x] => destruct (String.eqb_spec target x) as [->|?]
          end;
          [injection Hroute as <-;
           first [ by destruct Hne
                 | apply with_pdf_answer; intros d w1;
                   first [ apply serve_answer;
                           [first [ apply never_panics_SplitPDF
                                  | apply never_panics_ExtractMetadata
                                  | apply never_panics_CompressPDF
                                  | apply never_panics_AddWatermark ]
                           | by repeat constructor]
                         | destruct (ValidateRequest cfg d);
                           [split; [by repeat constructor | done]
                           | apply serve_answer;
                             [apply never_panics_ConvertToImage | by repeat constructor] ] ]
                 | unfold h_MergePDFs;
                   destruct (form_files c "pdfs") as [files|];
                     [|split; [by repeat constructor | done]];
                   case_bool_decide; [split; [by repeat constructor | done]|];
                   pose proof (never_panics_read_uploads files w) as Hnp;
                   destruct (read_uploads files w) as [[pdfs|e|v] w1]; simpl in Hnp;
                   [apply serve_answer; [apply never_panics_MergePDFs | by repeat constructor]
                   | split; [by repeat constructor|]; intros _; eexists;
                     split; [reflexivity | by repeat constructor]
                   | by destruct (Hnp v) ]
                 | split; [by repeat constructor | done] ]
          |]).
  done.
Qed.

Lemma answers_hide_causes_witness :
  status (fst (h_ExtractText default_config
                 {| multipart := Some [("pdf"%string, [B "GIF89a"])]; query := [] |}
                 (world_of ∅ []))) = 500 ∧
  body (fst (h_ExtractText default_config
               {| multipart := Some [("pdf"%string, [B "GIF89a"])]; query := [] |}
               (world_of ∅ []))) = JSON [("error"%string, JStr "Extraction failed")].
Proof.
  pose proof (answers_hide_causes (lib := mini) default_config "/api/v1/pdf/extract/text"
                (h_ExtractText default_config)
                {| multipart := Some [("pdf"%string, [B "GIF89a"])]; query := [] |}
                (world_of ∅ []) eq_refl) as [_ H].
  split; [reflexivity|].
  destruct (H eq_refl) as [(m & Hm & _)|(Hb & _)]; [|discriminate Hb].
  rewrite Hm. f_equal. f_equal. f_equal. vm_compute in Hm. by injection Hm as <-.
Defined.

(** X14: a 400 is the answer exactly when the request breaks the
    handler's input contract.  For the five single-file handlers without
    validation that is a form without a file [pdf]; a document that the
    service cannot process, or an upload that cannot be read, never gives
    400.  For the merge handler it is a request without a multipart form
    or with fewer than two files [pdfs].  For the convert handler it is a
    missing file or a readable upload that fails [ValidateRequest]. *)
Theorem client_errors `{lib : PdfLib} (cfg : Config) (c : Request) (w : World) :
  (status (fst (h_SplitPDF cfg c w)) = 400 ↔ FormFile c "pdf" = None) ∧
  (status (fst (h_ExtractText cfg c w)) = 400 ↔ FormFile c "pdf" = None) ∧
  (status (fst (h_ExtractMetadata c w)) = 400 ↔ FormFile c "pdf" = None) ∧
  (status (fst (h_CompressPDF cfg c w)) = 400 ↔ FormFile c "pdf" = None) ∧
  (status (fst (h_AddWatermark cfg c w)) = 400 ↔ FormFile c "pdf" = None) ∧
  (status (fst (h_MergePDFs cfg c w)) = 400 ↔
     match form_files c "pdfs" with
     | None => True
     | Some files => (length files < 2)%nat
     end) ∧
  (status (fst (h_ConvertToImage cfg c w)) = 400 ↔
     match FormFile c "pdf" with
     | None => True
     | Some file => (fault w).1 = false ∧ ValidateRequest cfg file ≠ None
     end).
Proof.
  assert (∀ (A : Type) (call : bytes → M A) msg public (k : A → Body),
            status (fst (with_pdf c (λ d, serve (call d) msg public k) w)) = 400
            ↔ FormFile c "pdf" = None) as Hsingle.
  { intros A call msg public k. unfold with_pdf, serve.
    destruct (FormFile c "pdf") as [file|]; simpl; [|done].
    destruct (readUploadedFile file w) as [[d|e|v] w1]; simpl; [|done..].
    by destruct (call d w1) as [[a|e|v] w2]. }
  split; [apply Hsingle|]. split; [apply Hsingle|]. split; [apply Hsingle|].
  split; [apply Hsingle|]. split; [apply Hsingle|]. split.
  - unfold h_MergePDFs, serve. destruct (form_files c "pdfs") as [files|]; simpl; [|done].
    case_bool_decide; simpl; [split; [intros _; lia | done]|].
    destruct (read_uploads files w) as [[pdfs|e|v] w1]; simpl; [|split; [done | lia]..].
    destruct (MergePDFs cfg _ w1) as [[a|e|v] w2]; simpl; (split; [done | lia]).
  - unfold h_ConvertToImage, with_pdf, serve, readUploadedFile.
    destruct (FormFile c "pdf") as [file|]; simpl; [|done].
    destruct (fault w) as [[|] w1]; simpl; [split; [done | by intros [? _]]|].
    destruct (ValidateRequest cfg file) as [err|]; simpl; [done|].
    destruct (ConvertToImage cfg _ w1) as [[a|e|v] w2]; simpl; (split; [done | by intros [_ ?]]).
Qed.

(** X15: the convert handler is a gate.  A readable upload that fails
    [ValidateRequest] is answered 400 with the validation message, and the
    service is not entered: nothing is appended to the trace, and the file
    system and the random source are untouched. *)
Theorem h_ConvertToImage_gate (cfg : Config) (c : Request) (file : bytes) (err : error)
    (w : World) :
  FormFile c "pdf" = Some file → (fault w).1 = false →
  ValidateRequest cfg file = Some err →
  fst (h_ConvertToImage cfg c w)
    = {| status := 400; body := JSON [("error"%string, JStr (Error err))] |} ∧
  trace (snd (h_ConvertToImage cfg c w)) = trace w ∧
  fs (snd (h_ConvertToImage cfg c w)) = fs w ∧
  drawn (snd (h_ConvertToImage cfg c w)) = drawn w.
Proof.
  intros Hfile Hfault Herr. unfold h_ConvertToImage, with_pdf, readUploadedFile.
  rewrite Hfile. destruct w as [f e d x t]. unfold fault in *. simpl in *.
  destruct x as [|[|] x]; simpl in *; try done; by rewrite Herr.
Qed.

Lemma h_ConvertToImage_gate_witness :
  fst (h_ConvertToImage default_config
         {| multipart := Some [("pdf"%string, [B "GIF89a"])]; query := [] |} (world_of ∅ []))
    = {| status := 400; body := JSON [("error"%string, JStr "invalid PDF format")] |} ∧
  trace (snd (h_ConvertToImage default_config
                {| multipart := Some [("pdf"%string, [B "GIF89a"])]; query := [] |}
                (world_of ∅ []))) = [] ∧
  fs (snd (h_ConvertToImage default_config
             {| multipart := Some [("pdf"%string, [B "GIF89a"])]; query := [] |}
             (world_of ∅ []))) = ∅ ∧
  drawn (snd (h_ConvertToImage default_config
                {| multipart := Some [("pdf"%string, [B "GIF89a"])]; query := [] |}
                (world_of ∅ []))) = 0%nat.
Proof.
  exact (h_ConvertToImage_gate default_config
           {| multipart := Some [("pdf"%string, [B "GIF89a"])]; query := [] |}
           (B "GIF89a") (Errorf "invalid PDF format") (world_of ∅ [])
           eq_refl eq_refl eq_refl).
Defined.

(** ** Split: every span comes back once *)

Lemma append_cons (c : ascii) (a b : string) : String c a +:+ b = String c (a +:+ b).
Proof. reflexivity. Qed.

Lemma append_assoc (a b c : string) : (a +:+ b) +:+ c = a +:+ (b +:+ c).
Proof. induction a as [|x a IH]; [done|]. rewrite !append_cons. by f_equal. Qed.

Lemma length_append (a b : string) :
  String.length (a +:+ b) = (String.length a + String.length b)%nat.
Proof. induction a as [|x a IH]; [done|]. rewrite append_cons. simpl. by f_equal. Qed.

Lemma child_name_child (dir : path) (n : string) : child_name dir (dir ++ [n]) = Some n.
Proof.
  unfold child_name. rewrite take_app_length, drop_app_length.
  by rewrite bool_decide_eq_true_2.
Qed.

Lemma child_name_Some (dir p : path) (n : string) :
  child_name dir p = Some n → p = dir ++ [n].
Proof.
  unfold child_name. case_bool_decide as Ht; [|done].
  destruct (drop (length dir) p) as [|x [|y r]] eqn:Hd; try done.
  intros [= <-]. rewrite <- (take_drop (length dir) p), Ht, Hd. done.
Qed.

Lemma children_empty (dir : path) (f : gmap path node) :
  (∀ n, f !! (dir ++ [n]) = None) → children dir f = [].
Proof.
  intros Hnone. unfold children.
  assert (Forall (λ kv : path * node, child_name dir kv.1 = None) (map_to_list f)) as Hall.
  { apply Forall_forall. intros [q v] Hin. simpl.
    destruct (child_name dir q) as [n|] eqn:E; [|done].
    apply child_name_Some in E. subst q.
    apply elem_of_map_to_list in Hin. by rewrite Hnone in Hin. }
  induction Hall as [|kv l Hkv _ IH]; simpl; [done|]. by rewrite Hkv.
Qed.

Lemma children_insert (dir : path) (n : string) (v : node) (f : gmap path node) :
  f !! (dir ++ [n]) = None →
  children dir (<[dir ++ [n] := v]> f) ≡ₚ n :: children dir f.
Proof.
  intros Hnone. unfold children.
  rewrite (map_to_list_insert f _ v Hnone). simpl. by rewrite child_name_child.
Qed.

Lemma is_dir_child (f : gmap path node) (dir : path) (n : string) :
  f !! (dir ++ [n]) = Some Dir → is_dir f (dir ++ [n]) = true.
Proof. intros H. unfold is_dir. rewrite H. by destruct (dir ++ [n]). Qed.

Lemma write_spans_run (outDir : path) (fileName : string) (spans : list (Z * Z * bytes)) :
  ∀ w : World,
    faults w = [] → is_dir (fs w) outDir = true →
    NoDup ((λ s, spanFileName fileName s.1.1 s.1.2) <$> spans) →
    (∀ s, s ∈ spans → fs w !! (outDir ++ [spanFileName fileName s.1.1 s.1.2]) = None) →
    ∃ w', write_spans outDir fileName spans w = (Ok tt, w') ∧
          faults w' = [] ∧ is_dir (fs w') outDir = true ∧
          children outDir (fs w')
            ≡ₚ ((λ s, spanFileName fileName s.1.1 s.1.2) <$> spans) ++ children outDir (fs w) ∧
          (∀ s, s ∈ spans →
             fs w' !! (outDir ++ [spanFileName fileName s.1.1 s.1.2]) = Some (File s.2)) ∧
          (∀ n, n ∉ ((λ s, spanFileName fileName s.1.1 s.1.2) <$> spans) →
             fs w' !! (outDir ++ [n]) = fs w !! (outDir ++ [n])).
Proof.
  induction spans as [|[[from thru] doc] r IH]; intros w Hf Hd Hnd Hfree; simpl.
  - exists w. repeat split; try done. intros s Hs. by apply elem_of_nil in Hs.
  - apply NoDup_cons in Hnd as [Hnotin Hnd]. simpl in Hnotin.
    set (n := spanFileName fileName from thru) in *.
    assert (fs w !! (outDir ++ [n]) = None) as Hn.
    { apply (Hfree (from, thru, doc)). by left. }
    rewrite (bind_ok _ _ _ _ _ (os_Create_ok outDir n w Hf Hd Hn)).
    set (w1 := emit _ _).
    rewrite (bind_ok _ _ _ _ _ (io_Copy_ok (outDir ++ [n]) doc w1 Hf)).
    set (w2 := set_fs _ w1).
    assert (fs w2 = <[outDir ++ [n] := File doc]> (fs w)) as Hfs2.
    { subst w2 w1. simpl. apply insert_insert_eq. }
    destruct (IH w2) as (w' & E & Hf' & Hd' & Hch & Hdocs & Hother); try done.
    { rewrite Hfs2. unfold is_dir in *. destruct outDir as [|c o]; [done|].
      rewrite lookup_insert_ne; [done|].
      intros Heq. apply (f_equal length) in Heq. rewrite length_app in Heq. simpl in Heq. lia. }
    { intros s Hs. rewrite Hfs2, lookup_insert_ne.
      - apply Hfree. by right.
      - intros Heq. apply app_inv_head in Heq. injection Heq as Heq.
        apply Hnotin. rewrite Heq. apply list_elem_of_fmap. by exists s. }
    exists w'. split; [done|]. split; [done|]. split; [done|]. split; [|split].
    + rewrite Hch, Hfs2, (children_insert _ _ _ _ Hn). by rewrite Permutation_middle.
    + intros s Hs. apply elem_of_cons in Hs as [->|Hs]; [|by apply Hdocs].
      simpl. fold n. rewrite (Hother n Hnotin), Hfs2. apply lookup_insert_eq.
    + intros m Hm. apply not_elem_of_cons in Hm as [Hne Hm].
      rewrite (Hother m Hm), Hfs2. apply lookup_insert_ne.
      intros Heq. apply app_inv_head in Heq. by injection Heq.
Qed.

Lemma read_split_run (files : list path) (docs : list bytes) (w : World) :
  faults w = [] →
  Forall2 (λ p d, fs w !! p = Some (File d)) files docs →
  ∀ acc, read_split files acc w = (Ok (acc ++ docs), w).
Proof.
  intros Hf H. induction H as [|p d files docs Hp _ IH]; intros acc; simpl.
  - by rewrite app_nil_r.
  - rewrite (try_ok _ _ _ _ _ _ (os_ReadFile_ok p d w Hf Hp)).
    rewrite IH, <- app_assoc. done.
Qed.

Lemma span_doc_elem (fileName : string) (spans : list (Z * Z * bytes)) (s : Z * Z * bytes) :
  NoDup ((λ s, spanFileName fileName s.1.1 s.1.2) <$> spans) → s ∈ spans →
  span_doc fileName spans (spanFileName fileName s.1.1 s.1.2) = s.2.
Proof.
  intros Hnd Hs. unfold span_doc, lookup_key.
  induction spans as [|t r IH]; [by apply elem_of_nil in Hs|].
  apply NoDup_cons in Hnd as [Hnotin Hnd]. simpl.
  destruct (String.eqb_spec (spanFileName fileName t.1.1 t.1.2)
                            (spanFileName fileName s.1.1 s.1.2)) as [Heq|Hne].
  - apply elem_of_cons in Hs as [->|Hs]; [done|].
    exfalso. apply Hnotin. rewrite Heq. apply list_elem_of_fmap. by exists s.
  - apply elem_of_cons in Hs as [->|Hs]; [done|]. by apply IH.
Qed.

Lemma ascii_compare_lt_trans (a b c : ascii) :
  Ascii.compare a b = Lt → Ascii.compare b c = Lt → Ascii.compare a c = Lt.
Proof.
  unfold Ascii.compare. rewrite !N.compare_lt_iff. lia.
Qed.

Lemma string_compare_lt_trans (s1 : string) : ∀ s2 s3 : string,
  String.compare s1 s2 = Lt → String.compare s2 s3 = Lt → String.compare s1 s3 = Lt.
Proof.
  induction s1 as [|a s1 IH]; intros [|b s2] [|c s3]; simpl; try done.
  destruct (Ascii.compare a b) eqn:Eab; try done.
  - apply Ascii.compare_eq_iff in Eab as ->.
    destruct (Ascii.compare b c); try done. apply IH.
  - intros _. destruct (Ascii.compare b c) eqn:Ebc; try done.
    + apply Ascii.compare_eq_iff in Ebc as <-. by rewrite Eab.
    + by rewrite (ascii_compare_lt_trans a b c).
Qed.

#[local] Instance str_le_trans : Transitive str_le.
Proof.
  intros s1 s2 s3. unfold str_le, String.leb.
  destruct (String.compare s1 s2) eqn:E12; try done; intros _.
  - by apply String.compare_eq_iff in E12 as ->.
  - destruct (String.compare s2 s3) eqn:E23; try done; intros _.
    + apply String.compare_eq_iff in E23 as <-. by rewrite E12.
    + by rewrite (string_compare_lt_trans s1 s2 s3).
Qed.

#[local] Instance str_le_antisym : AntiSymm eq str_le.
Proof. intros s1 s2. apply String.leb_antisym. Qed.

#[local] Instance str_le_total : Total str_le.
Proof. intros s1 s2. apply String.leb_total. Qed.

Lemma merge_sort_perm (l1 l2 : list string) :
  l1 ≡ₚ l2 → merge_sort str_le l1 = merge_sort str_le l2.
Proof.
  intros H. apply (Sorted_unique str_le); try apply Sorted_merge_sort; try apply _.
  by rewrite !merge_sort_Permutation.
Qed.

Lemma mkdir_from_new (rest : path) : ∀ (f : gmap path node) (pre : path) (x : string),
  (∀ q, q `prefix_of` pre ++ rest → q ≠ [] → f !! q = Some Dir) →
  f !! (pre ++ rest ++ [x]) = None →
  mkdir_from f pre (rest ++ [x]) = Some (<[pre ++ rest ++ [x] := Dir]> f).
Proof.
  induction rest as [|c r IH]; intros f pre x Hready Hnone; simpl in *.
  - by rewrite Hnone.
  - assert (pre ++ c :: r = (pre ++ [c]) ++ r) as Heq by (by rewrite <- app_assoc).
    rewrite (Hready (pre ++ [c])).
    + rewrite (IH f (pre ++ [c]) x); rewrite <- ?app_assoc; done.
    + rewrite Heq. by apply prefix_app_r.
    + by destruct pre.
Qed.

(** ** The fuel of the pattern functions is enough

    Each loop of [Match] consumes at least one byte of what it walks, so
    the bounds in the definitions are never reached: any larger bound
    gives the same result. *)

Lemma string_drop_length (n : nat) : ∀ s : string,
  String.length (string_drop n s) = (String.length s - n)%nat.
Proof. induction n as [|n IH]; intros [|c s]; simpl; try done. Qed.

Lemma DecodeRuneInString_width (s : string) :
  s ≠ EmptyString → (1 <= (DecodeRuneInString s).2)%nat.
Proof.
  intros Hs. unfold DecodeRuneInString. destruct s as [|c0 r]; [done|].
  repeat case_match; simpl; lia.
Qed.

Lemma getEsc_shorter (chunk rest : string) (r : Z) :
  getEsc chunk = Some (r, rest) → (String.length rest < String.length chunk)%nat.
Proof.
  unfold getEsc. destruct chunk as [|c t]; [done|].
  destruct (Ascii.eqb c "-" || Ascii.eqb c "]"); [done|].
  set (chunk := if Ascii.eqb c "\" then t else String c t).
  assert (String.length chunk <= String.length (String c t))%nat as Hlen
    by (subst chunk; destruct (Ascii.eqb c "\"); simpl; lia).
  clearbody chunk. destruct chunk as [|c' t']; [done|].
  pose proof (DecodeRuneInString_width (String c' t') ltac:(done)) as Hw.
  destruct (DecodeRuneInString (String c' t')) as [r' n]. simpl in Hw.
  destruct (bool_decide (r' = RuneError) && bool_decide (n = 1%nat)); [done|].
  pose proof (string_drop_length n (String c' t')) as Hd.
  destruct (string_drop n (String c' t')) as [|c'' t'']; [done|].
  intros [= <- <-]. rewrite Hd. simpl in *. lia.
Qed.

Lemma classRanges_fuel (fuel1 : nat) :
  ∀ (fuel2 : nat) (r : Z) (chunk : string) (nrange : nat) (matched : bool),
    (String.length chunk < fuel1)%nat → (String.length chunk < fuel2)%nat →
    classRanges fuel1 r chunk nrange matched = classRanges fuel2 r chunk nrange matched.
Proof.
  induction fuel1 as [|fuel1 IH]; intros [|fuel2] r chunk nrange matched H1 H2; try lia.
  cbn [classRanges].
  destruct (match chunk with
            | EmptyString => None
            | String c rest =>
                if Ascii.eqb c "]" && negb (Nat.eqb nrange 0) then Some rest else None
            end); [done|].
  destruct (getEsc chunk) as [[lo chunk1]|] eqn:E1; [|done].
  apply getEsc_shorter in E1.
  destruct chunk1 as [|c rest]; [apply IH; simpl in *; lia|].
  destruct (Ascii.eqb c "-"); [|apply IH; simpl in *; lia].
  destruct (getEsc rest) as [[hi chunk2]|] eqn:E2; [|done].
  apply getEsc_shorter in E2. apply IH; simpl in *; lia.
Qed.

Lemma classRanges_shorter (fuel : nat) :
  ∀ (r : Z) (chunk rest : string) (nrange : nat) (matched m : bool),
    classRanges fuel r chunk nrange matched = Some (m, rest) →
    (String.length rest < String.length chunk)%nat.
Proof.
  induction fuel as [|fuel IH]; intros r chunk rest nrange matched m; [done|].
  cbn [classRanges].
  destruct chunk as [|c0 t0].
  { by destruct (getEsc EmptyString) as [[? ?]|] eqn:E0. }
  destruct (Ascii.eqb c0 "]" && negb (Nat.eqb nrange 0)).
  { intros [= <- <-]. simpl. lia. }
  destruct (getEsc (String c0 t0)) as [[lo chunk1]|] eqn:E1; [|done].
  apply getEsc_shorter in E1.
  destruct chunk1 as [|c rest1].
  { intros H. apply IH in H. simpl in *. lia. }
  destruct (Ascii.eqb c "-").
  - destruct (getEsc rest1) as [[hi chunk2]|] eqn:E2; [|done].
    apply getEsc_shorter in E2. intros H. apply IH in H. simpl in *. lia.
  - intros H. apply IH in H. simpl in *. lia.
Qed.

Lemma matchChunk_from_fuel (fuel1 : nat) :
  ∀ (fuel2 : nat) (chunk s : string) (failed : bool),
    (String.length chunk <= fuel1)%nat → (String.length chunk <= fuel2)%nat →
    matchChunk_from fuel1 chunk s failed = matchChunk_from fuel2 chunk s failed.
Proof.
  induction fuel1 as [|fuel1 IH]; intros fuel2 chunk s failed H1 H2.
  { destruct chunk; [by destruct fuel2 | simpl in H1; lia]. }
  destruct chunk as [|c rest]; [by destruct fuel2|].
  destruct fuel2 as [|fuel2]; [simpl in H2; lia|]. simpl in H1, H2.
  cbn [matchChunk_from].
  destruct (Ascii.eqb c "[").
  { destruct (if failed || bool_decide (s = EmptyString) then _ else _) as [r s1].
    destruct (match rest with
              | EmptyString => (false, rest)
              | String c0 t => if Ascii.eqb c0 "^" then (true, t) else (false, rest)
              end) as [negated rest1] eqn:En.
    assert (String.length rest1 <= String.length rest)%nat as Hn.
    { destruct rest as [|c0 t]; [by injection En as <- <-|].
      destruct (Ascii.eqb c0 "^"); injection En as <- <-; simpl; lia. }
    destruct (classRanges _ r rest1 0 false) as [[matched rest2]|] eqn:Ec; [|done].
    apply classRanges_shorter in Ec. apply IH; lia. }
  destruct (Ascii.eqb c "?").
  { destruct (failed || bool_decide (s = EmptyString)); [apply IH; lia|].
    destruct s as [|d s']; [apply IH; lia|].
    destruct (DecodeRuneInString (String d s')). apply IH; lia. }
  destruct (Ascii.eqb c "\").
  { destruct rest as [|c' rest']; [done|]. simpl in H1, H2.
    destruct (failed || bool_decide (s = EmptyString)); [apply IH; lia|].
    destruct s as [|d s']; apply IH; lia. }
  destruct (failed || bool_decide (s = EmptyString)); [apply IH; lia|].
  destruct s as [|d s']; apply IH; lia.
Qed.

Lemma skipStars_length (pattern : string) :
  (String.length (skipStars pattern).2 <= String.length pattern)%nat ∧
  ((skipStars pattern).1 = true →
   String.length (skipStars pattern).2 < String.length pattern)%nat.
Proof.
  induction pattern as [|c r [IH1 IH2]]; [done|]. simpl.
  destruct (Ascii.eqb c "*"); simpl; split; try done; lia.
Qed.

Lemma scanSegment_length (pattern : string) : ∀ inrange : bool,
  (String.length (scanSegment pattern inrange).1
   + String.length (scanSegment pattern inrange).2 = String.length pattern)%nat.
Proof.
  assert (∀ n (p : string), (String.length p < n)%nat → ∀ inrange,
            (String.length (scanSegment p inrange).1
             + String.length (scanSegment p inrange).2 = String.length p)%nat) as H.
  { induction n as [|n IH]; intros p Hp inrange; [lia|].
    destruct p as [|c r]; [done|]. simpl in Hp. cbn [scanSegment].
    assert (∀ b, (String.length (let '(a, b0) := scanSegment r b in (String c a, b0)).1
                  + String.length (let '(a, b0) := scanSegment r b in (String c a, b0)).2
                  = String.length (String c r))%nat) as Hkeep.
    { intros b. specialize (IH r ltac:(lia) b).
      destruct (scanSegment r b) as [a b0]. simpl in *. lia. }
    destruct (Ascii.eqb c "\").
    { destruct r as [|d r']; [done|]. simpl in Hp.
      specialize (IH r' ltac:(lia) inrange).
      destruct (scanSegment r' inrange) as [a b0]. simpl in *. lia. }
    destruct (Ascii.eqb c "["); [apply Hkeep|].
    destruct (Ascii.eqb c "]"); [apply Hkeep|].
    destruct (Ascii.eqb c "*"); [|apply Hkeep].
    destruct inrange; [apply Hkeep | done]. }
  intros inrange. apply (H (S (String.length pattern))). lia.
Qed.

Lemma scanSegment_progress (c : ascii) (r : string) :
  Ascii.eqb c "*" = false → (scanSegment (String c r) false).1 ≠ EmptyString.
Proof.
  intros Hc. cbn [scanSegment]. rewrite Hc.
  destruct (Ascii.eqb c "\"); [by destruct r as [|d r']; [|destruct (scanSegment r' false)]|].
  destruct (Ascii.eqb c "["); [by destruct (scanSegment r true)|].
  destruct (Ascii.eqb c "]"); by destruct (scanSegment r false).
Qed.

Lemma skipStars_head (pattern : string) :
  match (skipStars pattern).2 with
  | String c _ => Ascii.eqb c "*" = false
  | EmptyString => True
  end.
Proof.
  induction pattern as [|c r IH]; [done|]. simpl.
  destruct (Ascii.eqb c "*") eqn:E; simpl; done.
Qed.

Lemma scanChunk_shorter (pattern chunk rest : string) (star : bool) :
  pattern ≠ EmptyString → scanChunk pattern = (star, chunk, rest) →
  (String.length rest < String.length pattern)%nat.
Proof.
  intros Hne. unfold scanChunk.
  pose proof (skipStars_length pattern) as [Hle Hlt].
  pose proof (skipStars_head pattern) as Hhead.
  destruct (skipStars pattern) as [st p]. simpl in *.
  pose proof (scanSegment_length p false) as Hlen.
  destruct p as [|c r].
  - intros [= <- <- <-]. destruct pattern; [done|]. simpl. lia.
  - pose proof (scanSegment_progress c r Hhead) as Hprog.
    destruct (scanSegment (String c r) false) as [a b]. intros [= <- <- <-].
    simpl in *. destruct a; [done|]. simpl in *. lia.
Qed.

Lemma checkRest_fuel (fuel1 : nat) : ∀ (fuel2 : nat) (pattern : string),
  (String.length pattern <= fuel1)%nat → (String.length pattern <= fuel2)%nat →
  checkRest fuel1 pattern = checkRest fuel2 pattern.
Proof.
  induction fuel1 as [|fuel1 IH]; intros fuel2 pattern H1 H2.
  { destruct pattern; [by destruct fuel2 | simpl in H1; lia]. }
  destruct pattern as [|c p]; [by destruct fuel2|].
  destruct fuel2 as [|fuel2]; [simpl in H2; lia|].
  cbn [checkRest].
  destruct (scanChunk (String c p)) as [[star chunk] rest] eqn:E.
  apply scanChunk_shorter in E; [|done].
  destruct (matchChunk chunk EmptyString); [|done].
  apply IH; simpl in *; lia.
Qed.

(** [Match] with any bound that covers the pattern. *)
Lemma Match_from_fuel (fuel1 : nat) : ∀ (fuel2 : nat) (pattern name : string),
  (String.length pattern <= fuel1)%nat → (String.length pattern <= fuel2)%nat →
  Match_from fuel1 pattern name = Match_from fuel2 pattern name.
Proof.
  induction fuel1 as [|fuel1 IH]; intros fuel2 pattern name H1 H2.
  { destruct pattern; [by destruct fuel2 | simpl in H1; lia]. }
  destruct pattern as [|c p]; [by destruct fuel2|].
  destruct fuel2 as [|fuel2]; [simpl in H2; lia|].
  cbn [Match_from].
  destruct (scanChunk (String c p)) as [[star chunk] rest] eqn:E.
  apply scanChunk_shorter in E; [|done]. simpl in H1, H2, E.
  destruct (star && bool_decide (chunk = EmptyString)); [done|].
  assert (∀ t, Match_from fuel1 rest t = Match_from fuel2 rest t) as Hrec
    by (intros t; apply IH; lia).
  destruct (matchChunk chunk name) as [[t|]|]; [| |done].
  - destruct (bool_decide (t = EmptyString) || negb (bool_decide (rest = EmptyString)));
      [apply Hrec|].
    destruct (if star then _ else _) as [[t'|]|]; [apply Hrec|done..].
  - destruct (if star then _ else _) as [[t'|]|]; [apply Hrec|done..].
Qed.

Lemma Match_fuel (fuel : nat) (pattern name : string) :
  (String.length pattern <= fuel)%nat → Match_from fuel pattern name = Match pattern name.
Proof. intros H. by apply Match_from_fuel. Qed.

(** ** Patterns without magic characters *)

Lemma has_meta_append (a b : string) : has_meta (a +:+ b) = has_meta a || has_meta b.
Proof.
  induction a as [|c a IH]; [done|]. rewrite append_cons. simpl. rewrite IH.
  by rewrite !orb_assoc.
Qed.

Lemma has_sep_append (a b : string) : has_sep (a +:+ b) = has_sep a || has_sep b.
Proof.
  induction a as [|c a IH]; [done|]. rewrite append_cons. simpl. rewrite IH.
  by rewrite !orb_assoc.
Qed.

Lemma has_meta_cons (c : ascii) (r : string) :
  has_meta (String c r) = false →
  Ascii.eqb c "*" = false ∧ Ascii.eqb c "?" = false ∧ Ascii.eqb c "[" = false ∧
  Ascii.eqb c "\" = false ∧ has_meta r = false.
Proof.
  simpl. intros H. repeat (apply orb_false_elim in H as [H ?]). done.
Qed.

Lemma matchChunk_from_plain (chunk : string) : ∀ (fuel : nat) (s : string) (failed : bool),
  has_meta chunk = false → (String.length chunk <= fuel)%nat →
  matchChunk_from fuel chunk s failed = Some (if failed then None else strip_prefix chunk s).
Proof.
  induction chunk as [|c rest IH]; intros fuel s failed Hm Hfuel.
  - by destruct fuel.
  - apply has_meta_cons in Hm as (H1 & H2 & H3 & H4 & Hrest).
    destruct fuel as [|fuel]; [simpl in Hfuel; lia|]. simpl in Hfuel.
    simpl. rewrite H2, H3, H4.
    destruct failed; simpl.
    + rewrite IH by (done || lia). done.
    + destruct s as [|d s']; simpl.
      * rewrite IH by (done || lia). done.
      * rewrite IH by (done || lia). by destruct (Ascii.eqb c d).
Qed.

Lemma matchChunk_plain (chunk s : string) :
  has_meta chunk = false → matchChunk chunk s = Some (strip_prefix chunk s).
Proof. intros Hm. unfold matchChunk. by rewrite matchChunk_from_plain. Qed.

Lemma scanSegment_plain (s t : string) :
  has_meta s = false → scanSegment (s +:+ String "*" t) false = (s, String "*" t).
Proof.
  induction s as [|c r IH]; intros Hm; [done|].
  apply has_meta_cons in Hm as (H1 & H2 & H3 & H4 & Hrest).
  rewrite append_cons. simpl. rewrite H1, H3, H4, (IH Hrest).
  by destruct (Ascii.eqb c "]").
Qed.

Lemma scanChunk_plain (c : ascii) (r t : string) :
  has_meta (String c r) = false →
  scanChunk (String c r +:+ String "*" t) = (false, String c r, String "*" t).
Proof.
  intros Hm. unfold scanChunk. rewrite append_cons.
  pose proof (has_meta_cons _ _ Hm) as (H1 & _).
  cbn [skipStars]. rewrite H1. rewrite <- append_cons. by rewrite scanSegment_plain.
Qed.

Lemma strip_prefix_Some (p s t : string) : strip_prefix p s = Some t → s = p +:+ t.
Proof.
  revert s. induction p as [|c p IH]; intros s; simpl.
  - by intros [= ->].
  - destruct s as [|d s]; [done|]. destruct (Ascii.eqb_spec c d) as [->|]; [|done].
    intros H. rewrite append_cons. f_equal. by apply IH.
Qed.

Lemma strip_prefix_self (p : string) : strip_prefix p p = Some EmptyString.
Proof. induction p as [|c p IH]; [done|]. simpl. by rewrite Ascii.eqb_refl. Qed.

Lemma scanSegment_plain_end (s : string) :
  has_meta s = false → scanSegment s false = (s, EmptyString).
Proof.
  induction s as [|c r IH]; intros Hm; [done|].
  apply has_meta_cons in Hm as (H1 & H2 & H3 & H4 & Hrest).
  simpl. rewrite H1, H3, H4, (IH Hrest). by destruct (Ascii.eqb c "]").
Qed.

Lemma skipStars_plain (s : string) : has_meta s = false → skipStars s = (false, s).
Proof.
  destruct s as [|c r]; [done|]. intros Hm.
  apply has_meta_cons in Hm as (H1 & _). simpl. by rewrite H1.
Qed.

Lemma scanChunk_star_plain (s : string) :
  has_meta s = false → scanChunk (String "*" s) = (true, s, EmptyString).
Proof.
  intros Hm. unfold scanChunk.
  change (skipStars (String "*" s)) with (true, (skipStars s).2).
  rewrite (skipStars_plain s Hm). cbn [snd]. by rewrite (scanSegment_plain_end s Hm).
Qed.

(** A well-formed pattern is not rejected: [dir/*suf] with a plain
    directory part does not match the empty name, without error. *)
Lemma Match_check_plain (d suf : string) :
  d ≠ EmptyString → has_meta d = false → has_meta suf = false →
  Match (d +:+ String "*" suf) EmptyString = Some false.
Proof.
  intros Hne Hd Hsuf. destruct d as [|c r]; [done|].
  unfold Match. rewrite append_cons. cbn [String.length Match_from].
  rewrite <- append_cons, (scanChunk_plain c r suf Hd).
  rewrite (matchChunk_plain _ _ Hd). cbn [strip_prefix andb String.length checkRest].
  rewrite (scanChunk_star_plain suf Hsuf), (matchChunk_plain _ _ Hsuf).
  by destruct (String.length suf).
Qed.

(** The file pattern [*suf] matches every name without separator that
    ends in [suf]. *)
Lemma skipAndMatch_suffix (suf x : string) :
  has_meta suf = false → x ≠ EmptyString → has_sep x = false →
  skipAndMatch suf true (x +:+ suf) = Some (Some EmptyString).
Proof.
  intros Hsuf. induction x as [|c x IH]; intros Hne Hsep; [done|].
  simpl in Hsep. apply orb_false_elim in Hsep as [Hc Hsep].
  rewrite append_cons. cbn [skipAndMatch]. rewrite Hc, (matchChunk_plain _ _ Hsuf).
  destruct x as [|c' x'].
  - cbn [String.append]. rewrite strip_prefix_self. reflexivity.
  - destruct (strip_prefix suf (String c' x' +:+ suf)) as [t|] eqn:E; [|by apply IH].
    destruct t as [|e t]; [|by apply IH].
    apply strip_prefix_Some in E. apply (f_equal String.length) in E.
    rewrite !length_append in E. simpl in E. lia.
Qed.

Lemma Match_star_suffix (suf x : string) :
  has_meta suf = false → suf ≠ EmptyString → has_sep x = false →
  Match (String "*" suf) (x +:+ suf) = Some true.
Proof.
  intros Hsuf Hne Hsep. unfold Match. cbn [String.length Match_from].
  rewrite (scanChunk_star_plain suf Hsuf), (matchChunk_plain _ _ Hsuf).
  rewrite (bool_decide_eq_false_2 (suf = EmptyString)) by done.
  rewrite (bool_decide_eq_true_2 (EmptyString = EmptyString)) by done.
  cbn [andb orb negb].
  destruct x as [|c x].
  - cbn [String.append]. rewrite strip_prefix_self. cbn. by destruct (String.length suf).
  - rewrite (skipAndMatch_suffix suf (String c x)) by done.
    assert (Match_from (String.length suf) EmptyString EmptyString = Some true) as Hend
      by (by destruct (String.length suf)).
    destruct (strip_prefix suf (String c x +:+ suf)) as [t|]; [|done].
    rewrite orb_false_r. case_bool_decide as Ht; [by subst t | done].
Qed.

(** ** Globbing a plain directory *)

Lemma concat_snoc (sep x : string) (l : list string) :
  l ≠ [] → String.concat sep (l ++ [x]) = String.concat sep l +:+ sep +:+ x.
Proof.
  induction l as [|a l IH]; [done|]. intros _.
  destruct l as [|b l]; [done|].
  change (String.concat sep ((a :: b :: l) ++ [x]))
    with (a +:+ sep +:+ String.concat sep ((b :: l) ++ [x])).
  rewrite IH by done.
  change (String.concat sep (a :: b :: l)) with (a +:+ sep +:+ String.concat sep (b :: l)).
  by rewrite !append_assoc.
Qed.

(** The directory part of a pattern, with its trailing separator. *)
Lemma path_string_snoc (dir : path) (x : string) :
  ∃ d, path_string (dir ++ [x]) = d +:+ x ∧ d ≠ EmptyString ∧
       has_meta d = has_meta (path_string dir).
Proof.
  unfold path_string. destruct dir as [|a l].
  - exists "/"%string. done.
  - exists ("/" +:+ String.concat "/" (a :: l) +:+ "/")%string.
    rewrite concat_snoc by done. split; [by rewrite !append_assoc|]. split; [done|].
    rewrite !has_meta_append. simpl. by rewrite orb_false_r.
Qed.

Lemma glob_names_all (dir : path) (pattern : string) (names : list string) :
  Forall (λ n, Match pattern n = Some true) names →
  ∀ matches, glob_names dir pattern names matches
               = Some (matches ++ ((λ n, dir ++ [n]) <$> names)).
Proof.
  induction 1 as [|n r Hn _ IH]; intros matches; simpl.
  - by rewrite app_nil_r.
  - rewrite Hn, IH, <- app_assoc. done.
Qed.

(** [filepath.Glob(dir/*suf)] for a directory whose path holds no magic
    character: the entries of that directory that match, nothing else. *)
Lemma globWithLimit_plain (f : gmap path node) (dir : path) (suf : string) :
  has_meta (path_string dir) = false → has_meta suf = false →
  globWithLimit f (rev (dir ++ [String "*" suf])) 0 = glob f dir (String "*" suf) [].
Proof.
  intros Hdir Hsuf. rewrite rev_unit. cbn [globWithLimit].
  rewrite bool_decide_eq_false_2 by done.
  change (rev (String "*" suf :: rev dir)) with (rev (rev dir) ++ [String "*" suf]).
  rewrite rev_involutive.
  destruct (path_string_snoc dir (String "*" suf)) as (d & -> & Hne & Hd).
  rewrite (Match_check_plain d suf Hne) by congruence.
  rewrite has_meta_append. cbn [has_meta]. rewrite Hd, Hdir. reflexivity.
Qed.

(** ** Names without separator *)

Lemma has_sep_substring (s : string) : ∀ n : nat,
  has_sep s = false → has_sep (substring 0 n s) = false.
Proof.
  induction s as [|c s IH]; intros [|n] Hs; simpl in *; try done.
  apply orb_false_elim in Hs as [Hc Hs]. by rewrite Hc, IH.
Qed.

Lemma has_sep_trim_suffix (suf s : string) :
  has_sep s = false → has_sep (trim_suffix suf s) = false.
Proof.
  intros Hs. unfold trim_suffix. destruct (has_suffix suf s); [|done].
  by apply has_sep_substring.
Qed.

Lemma has_sep_uint (d : Decimal.uint) : has_sep (NilEmpty.string_of_uint d) = false.
Proof. induction d; simpl; done. Qed.

Lemma has_sep_Itoa (z : Z) : has_sep (Itoa z) = false.
Proof.
  unfold Itoa. destruct (Z.to_int z) as [d|d]; simpl.
  - destruct d; try done; simpl; apply has_sep_uint.
  - destruct d; try done; simpl; apply has_sep_uint.
Qed.

Lemma spanFileName_matches (fileName : string) (from thru : Z) :
  has_sep fileName = false →
  Match "*.pdf" (spanFileName fileName from thru) = Some true.
Proof.
  intros Hs. unfold spanFileName.
  assert (has_sep (trim_suffix ".pdf" fileName +:+ "_" +:+ Itoa from) = false) as Hfn.
  { by rewrite !has_sep_append, has_sep_trim_suffix, has_sep_Itoa. }
  case_bool_decide.
  - by apply (Match_star_suffix ".pdf").
  - rewrite <- !append_assoc. apply (Match_star_suffix ".pdf"); try done.
    by rewrite !has_sep_append, !has_sep_Itoa, has_sep_trim_suffix.
Qed.

(** Some patterns and names, among them cases with an escape, a class,
    a range, a negation, a multi-byte rune and a malformed pattern. *)
Lemma Match_examples :
  Forall (λ t : string * string * option bool, Match t.1.1 t.1.2 = t.2)
    [("abc", "abc", Some true); ("*", "abc", Some true); ("*c", "abc", Some true);
     ("a*", "a", Some true); ("a*", "abc", Some true); ("a*", "ab/c", Some false);
     ("a*/b", "abc/b", Some true); ("a*/b", "a/c/b", Some false);
     ("a*b*c*d*e*/f", "axbxcxdxe/f", Some true);
     ("a*b*c*d*e*/f", "axbxcxdxexxx/f", Some true);
     ("a*b*c*d*e*/f", "axbxcxdxe/xxx/f", Some false);
     ("a*b*c*d*e*/f", "axbxcxdxexxx/fff", Some false);
     ("a*b?c*x", "abxbbxdbxebxczzx", Some true);
     ("a*b?c*x", "abxbbxdbxebxczzy", Some false);
     ("ab[c]", "abc", Some true); ("ab[b-d]", "abc", Some true);
     ("ab[e-g]", "abc", Some false); ("ab[^c]", "abc", Some false);
     ("ab[^b-d]", "abc", Some false); ("ab[^e-g]", "abc", Some true);
     ("a\*b", "a*b", Some true); ("a\*b", "ab", Some false);
     ("a?b", "a☺b", Some true); ("a[^a]b", "a☺b", Some true);
     ("a???b", "a☺b", Some false); ("a[^a][^a][^a]b", "a☺b", Some false);
     ("[a-ζ]*", "α", Some true); ("*[a-ζ]", "A", Some false);
     ("a?b", "a/b", Some false); ("a*b", "a/b", Some false);
     ("[\]a]", "]", Some true); ("[\-]", "-", Some true);
     ("[x\-]", "x", Some true); ("[x\-]", "-", Some true); ("[x\-]", "z", Some false);
     ("[\-x]", "x", Some true); ("[\-x]", "-", Some true); ("[\-x]", "a", Some false);
     ("[]a]", "]", None); ("[-]", "-", None); ("[x-]", "x", None); ("[x-]", "-", None);
     ("[x-]", "z", None); ("[-x]", "x", None); ("[-x]", "-", None); ("[-x]", "a", None);
     ("\", "a", None); ("[a-b-c]", "a", None); ("[", "a", None); ("[^", "a", None);
     ("[^bc", "a", None); ("a[", "a", None); ("a[", "ab", None); ("a[", "x", None);
     ("a/b[", "x", None); ("*x", "xxx", Some true);
     ("*.pdf", "split-input-7_10.pdf", Some true); ("*.pdf", "notes.txt", Some false);
     ("/tmp/pdf[tool/split-output-7/*.pdf", "", None);
     ("/tmp/pdf[x]tool/split-output-7/*.pdf", "", Some false)]%string.
Proof. repeat (apply Forall_cons_2; [vm_compute; reflexivity|]). apply Forall_nil_2. Qed.

(** A temp directory with a magic character in its name, which the
    configuration accepts.  The split writes its files as always, but
    [filepath.Glob] reads the directory name as a pattern: with a class
    the pattern names another directory and no file is read back; with an
    unclosed bracket the pattern is malformed and the split fails. *)
Lemma SplitPDF_magic_temp_dir :
  validate (with_TempDir ["tmp"; "pdf[x]tool"]%string) = None ∧
  fst (SplitPDF (with_TempDir ["tmp"; "pdf[x]tool"]%string)
         {| sp_PDFData := B "%PDFab"; PageRange := "all" |} (world_of ∅ [])) = Ok [] ∧
  validate (with_TempDir ["tmp"; "pdf[tool"]%string) = None ∧
  fst (SplitPDF (with_TempDir ["tmp"; "pdf[tool"]%string)
         {| sp_PDFData := B "%PDFab"; PageRange := "all" |} (world_of ∅ []))
    = Fail (Wrap "failed to read split files" ErrBadPattern).
Proof. repeat split; vm_compute; reflexivity. Qed.

Section SplitRun.

Context {lib : PdfLib}.
Variable cfg : Config.

Lemma api_SplitFile_run (outDir : path) (dir : path) (name : string) (data : bytes)
    (spans : list (Z * Z * bytes)) (w : World) :
  faults w = [] → is_dir (fs w) outDir = true →
  fs w !! (dir ++ [name]) = Some (File data) →
  pdf_Split data 1 = Some spans →
  NoDup ((λ s, spanFileName name s.1.1 s.1.2) <$> spans) →
  (∀ n, fs w !! (outDir ++ [n]) = None) →
  ∃ w', api_SplitFile (dir ++ [name]) outDir 1 w = (Ok tt, w') ∧ faults w' = [] ∧
        is_dir (fs w') outDir = true ∧
        children outDir (fs w') ≡ₚ (λ s, spanFileName name s.1.1 s.1.2) <$> spans ∧
        (∀ s, s ∈ spans →
           fs w' !! (outDir ++ [spanFileName name s.1.1 s.1.2]) = Some (File s.2)).
Proof.
  intros Hf Hd Hin Hsplit Hnd Hnone. unfold api_SplitFile.
  rewrite (bind_ok _ _ _ _ _ (os_ReadFile_ok _ data w Hf Hin)), Hsplit.
  unfold Base. rewrite last_last.
  destruct (write_spans_run outDir name spans w Hf Hd Hnd)
    as (w' & E & Hf' & Hd' & Hch & Hdocs & _).
  { intros s _. apply Hnone. }
  exists w'. split; [done|]. split; [done|]. split; [done|]. split; [|done].
  by rewrite Hch, (children_empty _ _ Hnone), app_nil_r.
Qed.

(** What [filepath.Glob] finds in the output directory after the split:
    the span files in lexical order of their names. *)
Lemma glob_split_output (f : gmap path node) (outDir : path) (name : string)
    (spans : list (Z * Z * bytes)) :
  has_meta (path_string outDir) = false → has_sep name = false →
  is_dir f outDir = true →
  children outDir f ≡ₚ (λ s, spanFileName name s.1.1 s.1.2) <$> spans →
  globWithLimit f (rev (outDir ++ ["*.pdf"%string])) 0
    = Some ((λ n, outDir ++ [n]) <$>
              merge_sort str_le ((λ s, spanFileName name s.1.1 s.1.2) <$> spans)).
Proof.
  intros Hmeta Hsep Hd Hch.
  rewrite (globWithLimit_plain f outDir ".pdf" Hmeta eq_refl).
  unfold glob. rewrite Hd, (merge_sort_perm _ _ Hch).
  apply glob_names_all, Forall_forall. intros n Hn.
  rewrite merge_sort_Permutation in Hn.
  apply list_elem_of_fmap in Hn as (s & -> & _). by apply spanFileName_matches.
Qed.

End SplitRun.

(** X16: on a machine that does not fail and with fresh names, for a
    temp directory whose path holds no character that is magic to
    [filepath.Glob] and random tokens that hold none either, when pdfcpu
    splits the request's bytes into [spans] whose file names are
    distinct, [SplitPDF] returns the documents of the spans, each exactly
    once, in the byte-wise lexical order of the names of their files --
    the order of [filepath.Glob], not the order of the pages. *)
Theorem SplitPDF_result `{lib : PdfLib} (cfg : Config) (req : SplitRequest) (w : World)
    (spans : list (Z * Z * bytes)) :
  let name := "split-input-" +:+ entropy w (drawn w) +:+ ".pdf" in
  let names := (λ s, spanFileName name s.1.1 s.1.2) <$> spans in
  faults w = [] →
  is_Some (mkdir_from (fs w) [] (TempDir (PDF cfg))) →
  fresh_scratch (TempDir (PDF cfg)) w →
  has_meta (path_string (TempDir (PDF cfg))) = false →
  plain (entropy w (drawn w)) = true →
  plain (entropy w (S (drawn w))) = true →
  pdf_Split (sp_PDFData req) 1 = Some spans →
  NoDup names →
  fst (SplitPDF cfg req w) = Ok (span_doc name spans <$> merge_sort str_le names) ∧
  span_doc name spans <$> merge_sort str_le names ≡ₚ (λ s, s.2) <$> spans.
Proof.
  intros name names Hf Hm Hfresh HT Htok0 Htok1 Hsplit Hnd. split.
  2:{ rewrite merge_sort_Permutation. subst names. rewrite <- list_fmap_compose.
      erewrite list_fmap_ext; [done|]. intros i s Hs. simpl.
      apply span_doc_elem; [done|]. by apply list_elem_of_lookup_2 in Hs. }
  apply andb_true_iff in Htok0 as [_ Hsep0]. apply negb_true_iff in Hsep0.
  apply andb_true_iff in Htok1 as [Hmeta1 _]. apply negb_true_iff in Hmeta1.
  unfold SplitPDF. unfold exec. rewrite fst_defer.
  set (w0 := emit _ (emit _ w)).
  destruct (temp_input_ok cfg (sp_PDFData req) "split-input-*.pdf"
              "split-input-" ".pdf" w0)
    as (w1 & f1 & E1 & Hset & Hready & Hfs1 & Hf1 & He1 & Hd1); [by vm_compute | done..|].
  rewrite (try_ok _ _ _ _ _ _ E1), fst_defer.
  unfold bind at 1. unfold uuid_New, draw. cbn iota beta.
  set (w2 := mkWorld _ _ _ _ _).
  set (O := TempDir (PDF cfg) ++ ["split-output-" +:+ entropy w1 (drawn w1)]).
  assert (∀ rest, fs w1 !! (O ++ rest) = None) as Hfree.
  { intros rest. subst O. rewrite <- app_assoc. simpl.
    rewrite <- (append_empty_r (entropy w1 (drawn w1))).
    eapply (fresh_after_temp _ w0 w1); eauto; try (simpl in *; lia).
    all: cbv [String.append]; intros [=]. }
  assert (mkdir_from (fs w2) [] O = Some (<[O := Dir]> (fs w1))) as Hmk.
  { apply (mkdir_from_new (TempDir (PDF cfg)) (fs w1) []).
    - simpl. rewrite Hfs1. by apply dirs_ready_insert.
    - simpl. specialize (Hfree []). by rewrite app_nil_r in Hfree. }
  rewrite (try_ok _ _ _ _ _ _ (os_MkdirAll_ok O w2 _ Hf1 Hmk)), fst_defer.
  set (w3 := emit _ _).
  destruct (api_SplitFile_run O (TempDir (PDF cfg)) name (sp_PDFData req) spans w3)
    as (w4 & E4 & Hf4 & Hd4 & Hch & Hdocs); try done.
  { apply is_dir_child. simpl. apply lookup_insert_eq. }
  { simpl. rewrite lookup_insert_ne.
    - rewrite Hfs1. apply lookup_insert_eq.
    - subst O name. intros Heq. apply app_inv_head in Heq. revert Heq.
      cbv [String.append]. intros [=]. }
  { intros n. simpl. rewrite lookup_insert_ne; [apply Hfree|].
    intros Heq. apply (f_equal length) in Heq. rewrite length_app in Heq. simpl in Heq. lia. }
  fold name in E4. rewrite (try_ok _ _ _ _ _ _ E4).
  assert (has_meta (path_string O) = false) as HO.
  { destruct (path_string_snoc (TempDir (PDF cfg)) ("split-output-" +:+ entropy w1 (drawn w1)))
      as (d & Ed & _ & Hd).
    subst O. rewrite Ed, !has_meta_append, Hd, HT.
    rewrite He1, Hd1. subst w0. simpl. by rewrite Hmeta1. }
  assert (has_sep name = false) as Hname.
  { subst name. by rewrite !has_sep_append, Hsep0. }
  unfold try at 1, filepath_Glob.
  rewrite (glob_split_output (fs w4) O name spans HO Hname Hd4 Hch).
  assert (Forall2 (λ p d, fs w4 !! p = Some (File d))
            ((λ n, O ++ [n]) <$> merge_sort str_le names)
            (span_doc name spans <$> merge_sort str_le names)) as Hall.
  { apply Forall2_fmap, Forall_Forall2_diag, Forall_forall. intros n Hn.
    rewrite merge_sort_Permutation in Hn.
    apply list_elem_of_fmap in Hn as (s & -> & Hs).
    rewrite (span_doc_elem name spans s Hnd Hs). by apply Hdocs. }
  by rewrite (bind_ok _ _ _ _ _ (read_split_run _ _ w4 Hf4 Hall [])).
Qed.

Lemma SplitPDF_result_witness :
  fst (SplitPDF default_config
         {| sp_PDFData := B "%PDFabcdefghij"; PageRange := "all" |} (world_of home_fs []))
    = Ok [B "%PDFa"; B "%PDFj"; B "%PDFb"; B "%PDFc"; B "%PDFd"; B "%PDFe";
          B "%PDFf"; B "%PDFg"; B "%PDFh"; B "%PDFi"].
Proof.
  refine (proj1 (SplitPDF_result (lib := mini) default_config
            {| sp_PDFData := B "%PDFabcdefghij"; PageRange := "all" |} (world_of home_fs [])
            _ eq_refl (ex_intro _ _ eq_refl) (home_fs_fresh []) eq_refl eq_refl eq_refl
            eq_refl _)).
  apply (bool_decide_unpack _). vm_compute. exact I.
Defined.
